(** * Collaborative editor backend: piece table, diff, merge and session handler

    A shallow embedding of the Python sources
    [backend/editor/models/piece_table.py], [backend/editor/models/formatting.py],
    [backend/utils/diff.py], [backend/editor/models/document.py],
    [backend/editor/services/merge_service.py],
    [backend/editor/consumers/document_consumer.py],
    [backend/utils/version_control.py] and
    [backend/editor/services/document_service.py], followed by the
    properties established about them.

    Python integers are [Z]; strings are lists of characters; dictionaries
    are [gmap]s keyed by strings; a method that mutates [self] is a function
    in the state-and-exception monad [M], whose result always carries the
    state reached, also when an exception escapes. *)

From Stdlib Require Import ZArith Ascii String List Lia.
From Stdlib Require Import PrimFloat.
From stdpp Require Import gmap strings list fin_maps sorting.

Set Warnings "-inexact-float".
Local Open Scope Z_scope.

(* ===================================================================== *)
(** * Python runtime fragments *)
(* ===================================================================== *)

Module Py.

(** The exceptions the modelled code can raise. *)
Inductive exn :=
| IndexError | ValueError | KeyError | TypeError | AttributeError
| NameError | IntegrityError.

(** Result of evaluating an expression: a value or a raised exception. *)
Inductive res (A : Type) : Type :=
| Ok (a : A)
| Raise (e : exn).
Arguments Ok {A} a.
Arguments Raise {A} e.

Definition bind {A B} (r : res A) (k : A -> res B) : res B :=
  match r with
  | Ok a => k a
  | Raise e => Raise e
  end.

(** A method on a mutable object with state [S]: the final state is
    returned on normal return and on raise alike. *)
Definition M (S A : Type) : Type := S -> res A * S.

Definition ret {S A} (a : A) : M S A := fun s => (Ok a, s).
Definition raise {S A} (e : exn) : M S A := fun s => (Raise e, s).
Definition bindM {S A B} (m : M S A) (k : A -> M S B) : M S B :=
  fun s => match m s with
           | (Ok a, s') => k a s'
           | (Raise e, s') => (Raise e, s')
           end.
Definition get {S} : M S S := fun s => (Ok s, s).
Definition put {S} (s : S) : M S unit := fun _ => (Ok tt, s).
Definition modify {S} (f : S -> S) : M S unit := fun s => (Ok tt, f s).
Definition lift {S A} (r : res A) : M S A := fun s => (r, s).

(** Strings are sequences of characters. *)
Definition str (s : string) : list ascii := list_ascii_of_string s.

Definition len {A} (l : list A) : Z := Z.of_nat (length l).

(** Normalisation of a slice bound against a sequence of length [n]:
    negative bounds count from the end, everything is clamped to [0, n]. *)
Definition slice_index (n i : Z) : Z :=
  if i <? 0 then Z.max 0 (i + n) else Z.min i n.

(** [l[a:b]] *)
Definition slice {A} (l : list A) (a b : Z) : list A :=
  let lo := slice_index (len l) a in
  let hi := slice_index (len l) b in
  take (Z.to_nat (hi - lo)) (drop (Z.to_nat lo) l).

(** [l[i]]: negative indices count from the end; out of range raises. *)
Definition index {A} (l : list A) (i : Z) : res A :=
  let j := if i <? 0 then i + len l else i in
  if (0 <=? j) && (j <? len l) then
    match l !! Z.to_nat j with
    | Some x => Ok x
    | None => Raise IndexError
    end
  else Raise IndexError.

(** [l[i] = x] *)
Definition setitem {A} (l : list A) (i : Z) (x : A) : res (list A) :=
  let j := if i <? 0 then i + len l else i in
  if (0 <=? j) && (j <? len l) then Ok (<[Z.to_nat j := x]> l)
  else Raise IndexError.

(** [l.insert(i, x)]: the index is clamped like a slice bound. *)
Definition list_insert {A} (l : list A) (i : Z) (x : A) : list A :=
  let k := Z.to_nat (slice_index (len l) i) in
  take k l ++ x :: drop k l.

(** [del l[a:b]]: an empty or reversed range deletes nothing. *)
Definition del_slice {A} (l : list A) (a b : Z) : list A :=
  let lo := slice_index (len l) a in
  let hi := slice_index (len l) b in
  if lo <? hi then take (Z.to_nat lo) l ++ drop (Z.to_nat hi) l else l.

End Py.

Import Py.

Declare Scope py_scope.
Delimit Scope py_scope with py.
Notation "x <~ m ;; k" := (bindM m (fun x => k))
  (at level 100, m at next level, right associativity) : py_scope.
Notation "m ;;; k" := (bindM m (fun _ => k))
  (at level 100, right associativity) : py_scope.
Notation "x <- r ;; k" := (Py.bind r (fun x => k))
  (at level 100, r at next level, right associativity) : py_scope.
Local Open Scope py_scope.

(** Attribute and property values: the scalars of a JSON object. *)
Inductive jval := JNull | JBool (b : bool) | JNum (n : Z) | JStr (s : string).

#[global] Instance jval_eq_dec : EqDecision jval.
Proof. solve_decision. Defined.

(** The values stored under the keys of an operation dictionary. *)
Inductive pyval :=
| VNone
| VInt (n : Z)
| VStr (s : list ascii)
| VDict (d : gmap string jval).

#[global] Instance pyval_eq_dec : EqDecision pyval.
Proof. solve_decision. Defined.

(** An operation is a dictionary from key names to values. *)
Abbreviation pydict := (gmap string pyval).

(** [d[k]] *)
Definition getitem (d : pydict) (k : string) : res pyval :=
  match d !! k with
  | Some v => Ok v
  | None => Raise KeyError
  end.

(** [d.get(k, dflt)] *)
Definition dict_get (d : pydict) (k : string) (dflt : pyval) : pyval :=
  default dflt (d !! k).

(* ===================================================================== *)
(** * models/piece_table.py *)
(* ===================================================================== *)

Inductive buffer_kind := Original | Add.

#[global] Instance buffer_kind_eq_dec : EqDecision buffer_kind.
Proof. solve_decision. Defined.

Module Piece.

Record t := mk {
  buffer_type : buffer_kind;
  start : Z;
  length : Z;
  line_start : bool
}.

(** [Piece.split]: both halves are non-empty or the call raises. *)
Definition split (self : t) (offset : Z) : res (t * t) :=
  if (offset <=? 0) || (length self <=? offset) then Raise ValueError
  else
    let first := mk (buffer_type self) (start self) offset (line_start self) in
    let second := mk (buffer_type self) (start self + offset)
                     (length self - offset) false in
    Ok (first, second).

End Piece.

Module StyleRange.

Record t := mk {
  piece_index : Z;
  start_offset : Z;
  length : Z;
  attributes : gmap string jval
}.

Definition overlaps (self other : t) : bool :=
  let self_end := start_offset self + length self in
  let other_end := start_offset other + length other in
  negb ((self_end <=? start_offset other) || (other_end <=? start_offset self)).

End StyleRange.

Module LineMarker.

Record t := mk {
  piece_index : Z;
  offset : Z;
  type : string;
  properties : gmap string jval
}.

End LineMarker.

(** The lists [styles] and [lines] are declared to hold [StyleRange] and
    [LineMarker] objects; [DiffCalculator.apply_diff] appends plain
    dictionaries to them, so an entry is either. *)
Inductive style_entry := StyleObj (s : StyleRange.t) | StyleDict (d : pydict).
Inductive line_entry := LineObj (l : LineMarker.t) | LineDict (d : pydict).

(** The serialised form of a piece table, as stored in [Document.content]
    and [DocumentVersion.content]: every entry is the field dictionary of a
    dataclass instance. *)
Module Json.

Record t := mk {
  originalBuffer : list ascii;
  addBuffer : list ascii;
  pieces : list Piece.t;
  styles : list StyleRange.t;
  lines : list LineMarker.t
}.

End Json.

Module PieceTable.

Record t := mk {
  original_buffer : list ascii;
  add_buffer : list ascii;
  pieces : list Piece.t;
  styles : list style_entry;
  lines : list line_entry
}.

(** [PieceTable()] *)
Definition init : t := mk [] [] [] [] [].

Definition set_pieces (ps : list Piece.t) (self : t) : t :=
  mk (original_buffer self) (add_buffer self) ps (styles self) (lines self).
Definition set_add_buffer (b : list ascii) (self : t) : t :=
  mk (original_buffer self) b (pieces self) (styles self) (lines self).
Definition set_styles (ss : list style_entry) (self : t) : t :=
  mk (original_buffer self) (add_buffer self) (pieces self) ss (lines self).
Definition set_lines (ls : list line_entry) (self : t) : t :=
  mk (original_buffer self) (add_buffer self) (pieces self) (styles self) ls.

(** The loop of [_find_piece_at_position]: [i] is the enumeration index
    and [curr_pos] the running position. *)
Fixpoint find_loop (ps : list Piece.t) (position curr_pos i : Z) : option (Z * Z) :=
  match ps with
  | [] => None
  | piece :: rest =>
      if (curr_pos <=? position) && (position <? curr_pos + Piece.length piece)
      then Some (i, position - curr_pos)
      else find_loop rest position (curr_pos + Piece.length piece) (i + 1)
  end.

Definition _find_piece_at_position (self : t) (position : Z) : Z * Z :=
  match find_loop (pieces self) position 0 0 with
  | Some r => r
  | None => (len (pieces self), 0)
  end.

(** The first loop of [_update_markers]; reading [piece_index] off a
    dictionary entry raises, leaving the entries before it updated. *)
Fixpoint update_styles (ss : list style_entry) (piece_index delta : Z)
  : res unit * list style_entry :=
  match ss with
  | [] => (Ok tt, [])
  | StyleObj s :: rest =>
      let s' := if piece_index <? StyleRange.piece_index s
                then StyleRange.mk (StyleRange.piece_index s)
                       (StyleRange.start_offset s + delta)
                       (StyleRange.length s) (StyleRange.attributes s)
                else s in
      let '(r, rest') := update_styles rest piece_index delta in
      (r, StyleObj s' :: rest')
  | StyleDict d :: rest => (Raise AttributeError, StyleDict d :: rest)
  end.

Fixpoint update_lines (ls : list line_entry) (piece_index delta : Z)
  : res unit * list line_entry :=
  match ls with
  | [] => (Ok tt, [])
  | LineObj l :: rest =>
      let l' := if piece_index <? LineMarker.piece_index l
                then LineMarker.mk (LineMarker.piece_index l)
                       (LineMarker.offset l + delta)
                       (LineMarker.type l) (LineMarker.properties l)
                else l in
      let '(r, rest') := update_lines rest piece_index delta in
      (r, LineObj l' :: rest')
  | LineDict d :: rest => (Raise AttributeError, LineDict d :: rest)
  end.

Definition _update_markers (piece_index delta : Z) : M t unit :=
  (fun self => let '(r, ss) := update_styles (styles self) piece_index delta in
               (r, set_styles ss self)) ;;;
  (fun self => let '(r, ls) := update_lines (lines self) piece_index delta in
               (r, set_lines ls self)).

Definition insert (position : Z) (text : list ascii) : M t unit :=
  match text with
  | [] => ret tt
  | _ =>
      self <~ get ;;
      let '(piece_index, offset) := _find_piece_at_position self position in
      let add_buffer_pos := len (add_buffer self) in
      modify (set_add_buffer (add_buffer self ++ text)) ;;;
      let new_piece := Piece.mk Add add_buffer_pos (len text) false in
      (if 0 <? offset then
         curr_piece <~ lift (index (pieces self) piece_index) ;;
         halves <~ lift (Piece.split curr_piece offset) ;;
         ps1 <~ lift (setitem (pieces self) piece_index (fst halves)) ;;
         modify (set_pieces ps1) ;;;
         let ps2 := list_insert ps1 (piece_index + 1) new_piece in
         modify (set_pieces ps2) ;;;
         modify (set_pieces (list_insert ps2 (piece_index + 2) (snd halves)))
       else
         modify (set_pieces (list_insert (pieces self) piece_index new_piece))) ;;;
      _update_markers piece_index (len text)
  end.

(** The two [if] statements of [delete]; each returns the piece index it
    leaves in its variable. *)
Definition handle_start_piece (start_piece_index start_offset : Z) : M t Z :=
  if 0 <? start_offset then
    self <~ get ;;
    curr_piece <~ lift (index (pieces self) start_piece_index) ;;
    halves <~ lift (Piece.split curr_piece start_offset) ;;
    ps <~ lift (setitem (pieces self) start_piece_index (fst halves)) ;;
    modify (set_pieces ps) ;;;
    ret (start_piece_index + 1)
  else ret start_piece_index.

Definition handle_end_piece (end_piece_index end_offset : Z) : M t Z :=
  self <~ get ;;
  end_piece <~ lift (index (pieces self) end_piece_index) ;;
  if end_offset <? Piece.length end_piece then
    curr_piece <~ lift (index (pieces self) end_piece_index) ;;
    halves <~ lift (Piece.split curr_piece end_offset) ;;
    ps <~ lift (setitem (pieces self) end_piece_index (snd halves)) ;;
    modify (set_pieces ps) ;;;
    ret end_piece_index
  else ret (end_piece_index + 1).

Definition delete (position length : Z) : M t unit :=
  if length <=? 0 then ret tt
  else
    self <~ get ;;
    let '(start_piece_index, start_offset) := _find_piece_at_position self position in
    let '(end_piece_index, end_offset) :=
      _find_piece_at_position self (position + length) in
    start_piece_index <~ handle_start_piece start_piece_index start_offset ;;
    end_piece_index <~ handle_end_piece end_piece_index end_offset ;;
    (* Remove pieces in between *)
    modify (fun s => set_pieces (del_slice (pieces s) start_piece_index end_piece_index) s) ;;;
    _update_markers start_piece_index (- length).

Definition buffer_of (self : t) (piece : Piece.t) : list ascii :=
  match Piece.buffer_type piece with
  | Original => original_buffer self
  | Add => add_buffer self
  end.

Definition get_text (self : t) : list ascii :=
  concat (map (fun piece =>
                 slice (buffer_of self piece) (Piece.start piece)
                       (Piece.start piece + Piece.length piece))
              (pieces self)).

(** [vars(s)] of a dataclass instance is its field dictionary; of a plain
    dictionary it raises. *)
Fixpoint vars_styles (ss : list style_entry) : res (list StyleRange.t) :=
  match ss with
  | [] => Ok []
  | StyleObj s :: rest => rest' <- vars_styles rest ;; Ok (s :: rest')
  | StyleDict _ :: _ => Raise TypeError
  end.

Fixpoint vars_lines (ls : list line_entry) : res (list LineMarker.t) :=
  match ls with
  | [] => Ok []
  | LineObj l :: rest => rest' <- vars_lines rest ;; Ok (l :: rest')
  | LineDict _ :: _ => Raise TypeError
  end.

Definition to_json (self : t) : res Json.t :=
  ss <- vars_styles (styles self) ;;
  ls <- vars_lines (lines self) ;;
  Ok (Json.mk (original_buffer self) (add_buffer self) (pieces self) ss ls).

Definition from_json (data : Json.t) : t :=
  mk (Json.originalBuffer data) (Json.addBuffer data) (Json.pieces data)
     (map StyleObj (Json.styles data)) (map LineObj (Json.lines data)).

End PieceTable.


(* ===================================================================== *)
(** * models/formatting.py *)
(* ===================================================================== *)

Module Formatting.

Record StyleRange := mkStyle {
  s_pieceIndex : Z;
  s_offsetInPiece : Z;
  s_length : Z;
  s_priority : Z;
  s_styles : gmap string jval
}.

Record LineMarker := mkLine {
  l_pieceIndex : Z;
  l_offsetInPiece : Z;
  l_type : string;
  l_properties : gmap string jval
}.

Record BlockDescriptor := mkBlock {
  startPieceIndex : Z;
  startOffset : Z;
  endPieceIndex : Z;
  endOffset : Z;
  b_type : string;
  b_properties : gmap string jval
}.

(** [FormattingManager] *)
Record t := mk {
  styles : list StyleRange;
  lines : list LineMarker;
  blocks : list BlockDescriptor
}.

Definition shift_style (piece_index offset delta : Z) (style : StyleRange) : StyleRange :=
  if (s_pieceIndex style =? piece_index) && (offset <=? s_offsetInPiece style)
  then mkStyle (s_pieceIndex style) (s_offsetInPiece style + delta)
               (s_length style) (s_priority style) (s_styles style)
  else style.

Definition shift_line (piece_index offset delta : Z) (line : LineMarker) : LineMarker :=
  if (l_pieceIndex line =? piece_index) && (offset <=? l_offsetInPiece line)
  then mkLine (l_pieceIndex line) (l_offsetInPiece line + delta)
              (l_type line) (l_properties line)
  else line.

Definition shift_block (piece_index offset delta : Z) (block : BlockDescriptor)
  : BlockDescriptor :=
  let so := if (startPieceIndex block =? piece_index) && (offset <=? startOffset block)
            then startOffset block + delta else startOffset block in
  let eo := if (endPieceIndex block =? piece_index) && (offset <=? endOffset block)
            then endOffset block + delta else endOffset block in
  mkBlock (startPieceIndex block) so (endPieceIndex block) eo
          (b_type block) (b_properties block).

(** [FormattingManager.update_positions] *)
Definition update_positions (piece_index offset delta : Z) (self : t) : t :=
  mk (map (shift_style piece_index offset delta) (styles self))
     (map (shift_line piece_index offset delta) (lines self))
     (map (shift_block piece_index offset delta) (blocks self)).

End Formatting.

(* ===================================================================== *)
(** * Dynamic values in operation dictionaries *)
(* ===================================================================== *)

(** [int(v)] as the arithmetic and comparisons of the code need it:
    a value that is not an integer raises. *)
Definition int_of (v : pyval) : res Z :=
  match v with
  | VInt n => Ok n
  | _ => Raise TypeError
  end.

(** [len(v)] *)
Definition py_len (v : pyval) : res Z :=
  match v with
  | VStr s => Ok (len s)
  | VDict d => Ok (Z.of_nat (size d))
  | _ => Raise TypeError
  end.

(** [a + b] *)
Definition py_add (a b : pyval) : res pyval :=
  match a, b with
  | VInt x, VInt y => Ok (VInt (x + y))
  | VStr x, VStr y => Ok (VStr (x ++ y))
  | _, _ => Raise TypeError
  end.

(** Truth value of [v], as in [if not v]. *)
Definition truthy (v : pyval) : bool :=
  match v with
  | VNone => false
  | VInt n => negb (n =? 0)
  | VStr s => negb (bool_decide (s = []))
  | VDict d => negb (bool_decide (d = ∅))
  end.

Definition is_type (v : pyval) (name : string) : bool :=
  bool_decide (v = VStr (str name)).

(* ===================================================================== *)
(** * utils/diff.py *)
(* ===================================================================== *)

Module DiffCalculator.

Definition delete_op (position : Z) : pydict :=
  {[ "type" := VStr (str "delete"); "position" := VInt position; "length" := VInt 1 ]}.

Definition insert_op (position : Z) (content : list ascii) : pydict :=
  {[ "type" := VStr (str "insert"); "position" := VInt position;
     "content" := VStr content ]}.

Definition style_op (position length : Z) (attributes : gmap string jval) : pydict :=
  {[ "type" := VStr (str "style"); "position" := VInt position;
     "length" := VInt length; "attributes" := VDict attributes ]}.

Definition line_op (position : Z) (lineType : string) (properties : gmap string jval)
  : pydict :=
  {[ "type" := VStr (str "line"); "position" := VInt position;
     "lineType" := VStr (str lineType); "properties" := VDict properties ]}.

(** ** [_get_lcs] *)

Definition dp_get (dp : list (list Z)) (i j : nat) : Z :=
  default 0 (row ← dp !! i; row !! j).

Definition dp_set (dp : list (list Z)) (i j : nat) (v : Z) : list (list Z) :=
  alter (<[j := v]>) i dp.

(** [seq1[i - 1] == seq2[j - 1]] for [1 <= i <= m], [1 <= j <= n]. *)
Definition same_at (seq1 seq2 : list ascii) (i j : nat) : bool :=
  bool_decide (seq1 !! (i - 1)%nat = seq2 !! (j - 1)%nat).

Definition fill_cell (seq1 seq2 : list ascii) (i : nat) (dp : list (list Z)) (j : nat)
  : list (list Z) :=
  if same_at seq1 seq2 i j
  then dp_set dp i j (dp_get dp (i - 1) (j - 1) + 1)
  else dp_set dp i j (Z.max (dp_get dp (i - 1) j) (dp_get dp i (j - 1))).

Definition fill_table (seq1 seq2 : list ascii) : list (list Z) :=
  let m := length seq1 in
  let n := length seq2 in
  foldl (fun dp i => foldl (fill_cell seq1 seq2 i) dp (seq 1 n))
        (replicate (S m) (replicate (S n) 0)) (seq 1 m).

(** The backtracking loop; every iteration decreases [i + j], so
    [i + j] iterations are enough to leave it. *)
Fixpoint backtrack (fuel : nat) (seq1 seq2 : list ascii) (dp : list (list Z))
  (i j : nat) (lcs : list (nat * nat)) : list (nat * nat) :=
  match fuel with
  | O => lcs
  | S fuel' =>
      if (0 <? i)%nat && (0 <? j)%nat then
        if same_at seq1 seq2 i j
        then backtrack fuel' seq1 seq2 dp (i - 1) (j - 1) (lcs ++ [((i - 1)%nat, (j - 1)%nat)])
        else if dp_get dp i (j - 1) <? dp_get dp (i - 1) j
             then backtrack fuel' seq1 seq2 dp (i - 1) j lcs
             else backtrack fuel' seq1 seq2 dp i (j - 1) lcs
      else lcs
  end.

Definition _get_lcs (seq1 seq2 : list ascii) : list (nat * nat) :=
  let m := length seq1 in
  let n := length seq2 in
  let dp := fill_table seq1 seq2 in
  reverse (backtrack (m + n) seq1 seq2 dp m n []).

(** ** [_optimize_operations] *)

(** [current_op.get('length', len(current_op.get('content', '')))] *)
Definition extent (current_op : pydict) : res pyval :=
  n <- py_len (dict_get current_op "content" (VStr [])) ;;
  Ok (dict_get current_op "length" (VInt n)).

Definition abuts (op current_op : pydict) : res bool :=
  t <- getitem op "type" ;;
  ct <- getitem current_op "type" ;;
  if bool_decide (t = ct) then
    p <- getitem op "position" ;;
    cp <- getitem current_op "position" ;;
    e <- extent current_op ;;
    s <- py_add cp e ;;
    Ok (bool_decide (p = s))
  else Ok false.

Definition absorb (op current_op : pydict) : res pydict :=
  t <- getitem op "type" ;;
  let k := if is_type t "delete" then "length" else "content" in
  a <- getitem current_op k ;;
  b <- getitem op k ;;
  v <- py_add a b ;;
  Ok (<[k := v]> current_op).

Fixpoint optimize_loop (ops optimized : list pydict) (current_op : pydict)
  : res (list pydict) :=
  match ops with
  | [] => Ok (optimized ++ [current_op])
  | op :: rest =>
      b <- abuts op current_op ;;
      if b then
        c <- absorb op current_op ;;
        optimize_loop rest optimized c
      else optimize_loop rest (optimized ++ [current_op]) op
  end.

Definition _optimize_operations (operations : list pydict) : res (list pydict) :=
  match operations with
  | [] => Ok []
  | first :: rest => optimize_loop rest [] first
  end.

(** ** [_generate_operations] *)

(** [while source_pos < upto: append delete at source_pos; source_pos += 1] *)
Definition emit_deletes (source_pos upto : nat) : list pydict :=
  map (fun p => delete_op (Z.of_nat p)) (seq source_pos (upto - source_pos)).

(** [while target_pos < upto: append insert of target[target_pos]; target_pos += 1],
    run for [count = upto - target_pos] iterations. *)
Fixpoint emit_inserts (target : list ascii) (target_pos count : nat) : res (list pydict) :=
  match count with
  | O => Ok []
  | S count' =>
      ch <- index target (Z.of_nat target_pos) ;;
      rest <- emit_inserts target (S target_pos) count' ;;
      Ok (insert_op (Z.of_nat target_pos) [ch] :: rest)
  end.

Fixpoint generate_loop (target : list ascii) (lcs : list (nat * nat))
  (operations : list pydict) (source_pos target_pos : nat)
  : res (list pydict * nat * nat) :=
  match lcs with
  | [] => Ok (operations, source_pos, target_pos)
  | (lcs_source_pos, lcs_target_pos) :: rest =>
      let dels := emit_deletes source_pos lcs_source_pos in
      ins <- emit_inserts target target_pos (lcs_target_pos - target_pos) ;;
      generate_loop target rest (operations ++ dels ++ ins)
        (S (Nat.max source_pos lcs_source_pos))
        (S (Nat.max target_pos lcs_target_pos))
  end.

Definition _generate_operations (source target : list ascii) (lcs : list (nat * nat))
  : res (list pydict) :=
  st <- generate_loop target lcs [] 0 0 ;;
  let '(operations, source_pos, target_pos) := st in
  let dels := emit_deletes source_pos (length source) in
  ins <- emit_inserts target target_pos (length target - target_pos) ;;
  _optimize_operations (operations ++ dels ++ ins).

(** ** [_compare_styles] and [_compare_lines] *)

(** Attribute reads on the entries of [PieceTable.styles]. The comparison
    reads [pieceIndex], [offsetInPiece] and [styles]; the [StyleRange] of
    piece_table.py has the fields [piece_index], [start_offset], [length]
    and [attributes], and a dictionary has no attributes at all, so these
    reads raise on every entry. *)
Definition style_pieceIndex (s : style_entry) : res Z := Raise AttributeError.
Definition style_offsetInPiece (s : style_entry) : res Z := Raise AttributeError.
Definition style_styles (s : style_entry) : res (gmap string jval) := Raise AttributeError.
Definition style_length (s : style_entry) : res Z :=
  match s with
  | StyleObj o => Ok (StyleRange.length o)
  | StyleDict _ => Raise AttributeError
  end.

(** The same for [PieceTable.lines]: [LineMarker] has [piece_index], [offset],
    [type] and [properties]. *)
Definition line_pieceIndex (l : line_entry) : res Z := Raise AttributeError.
Definition line_offsetInPiece (l : line_entry) : res Z := Raise AttributeError.
Definition line_type (l : line_entry) : res string :=
  match l with
  | LineObj o => Ok (LineMarker.type o)
  | LineDict _ => Raise AttributeError
  end.
Definition line_properties (l : line_entry) : res (gmap string jval) :=
  match l with
  | LineObj o => Ok (LineMarker.properties o)
  | LineDict _ => Raise AttributeError
  end.

(** The inner [for ... break] search: the first entry of [l] that matches,
    with its index standing for [id(entry)]. *)
Fixpoint find_match {A} (matches : A -> res bool) (l : list A) (i : nat)
  : res (option (nat * A)) :=
  match l with
  | [] => Ok None
  | x :: rest =>
      b <- matches x ;;
      if b then Ok (Some (i, x)) else find_match matches rest (S i)
  end.

Definition style_matches (target_style source_style : style_entry) : res bool :=
  a <- style_pieceIndex source_style ;;
  b <- style_pieceIndex target_style ;;
  if negb (a =? b) then Ok false else
  a <- style_offsetInPiece source_style ;;
  b <- style_offsetInPiece target_style ;;
  if negb (a =? b) then Ok false else
  a <- style_length source_style ;;
  b <- style_length target_style ;;
  Ok (a =? b).

Fixpoint styles_target_loop (source_styles targets : list style_entry)
  (processed : gset nat) (operations : list pydict) : res (list pydict * gset nat) :=
  match targets with
  | [] => Ok (operations, processed)
  | target_style :: rest =>
      m <- find_match (style_matches target_style) source_styles 0 ;;
      differs <- match m with
                 | None => Ok true
                 | Some (_, matching) =>
                     a <- style_styles matching ;;
                     b <- style_styles target_style ;;
                     Ok (negb (bool_decide (a = b)))
                 end ;;
      operations' <- (if differs : bool then
                        pos <- style_offsetInPiece target_style ;;
                        l <- style_length target_style ;;
                        a <- style_styles target_style ;;
                        Ok (operations ++ [style_op pos l a])
                      else Ok operations) ;;
      styles_target_loop source_styles rest
        (match m with Some (i, _) => {[i]} ∪ processed | None => processed end)
        operations'
  end.

Fixpoint styles_removed_loop (sources : list style_entry) (i : nat)
  (processed : gset nat) (operations : list pydict) : res (list pydict) :=
  match sources with
  | [] => Ok operations
  | source_style :: rest =>
      operations' <- (if bool_decide (i ∈ processed) then Ok operations
                      else
                        pos <- style_offsetInPiece source_style ;;
                        l <- style_length source_style ;;
                        Ok (operations ++ [style_op pos l ∅])) ;;
      styles_removed_loop rest (S i) processed operations'
  end.

Definition _compare_styles (source target : PieceTable.t) : res (list pydict) :=
  st <- styles_target_loop (PieceTable.styles source) (PieceTable.styles target) ∅ [] ;;
  styles_removed_loop (PieceTable.styles source) 0 (snd st) (fst st).

Definition line_matches (target_line source_line : line_entry) : res bool :=
  a <- line_pieceIndex source_line ;;
  b <- line_pieceIndex target_line ;;
  if negb (a =? b) then Ok false else
  a <- line_offsetInPiece source_line ;;
  b <- line_offsetInPiece target_line ;;
  Ok (a =? b).

Fixpoint lines_target_loop (source_lines targets : list line_entry)
  (processed : gset nat) (operations : list pydict) : res (list pydict * gset nat) :=
  match targets with
  | [] => Ok (operations, processed)
  | target_line :: rest =>
      m <- find_match (line_matches target_line) source_lines 0 ;;
      differs <- match m with
                 | None => Ok true
                 | Some (_, matching) =>
                     a <- line_type matching ;;
                     b <- line_type target_line ;;
                     if negb (bool_decide (a = b)) then Ok true else
                     a <- line_properties matching ;;
                     b <- line_properties target_line ;;
                     Ok (negb (bool_decide (a = b)))
                 end ;;
      operations' <- (if differs : bool then
                        pos <- line_offsetInPiece target_line ;;
                        ty <- line_type target_line ;;
                        pr <- line_properties target_line ;;
                        Ok (operations ++ [line_op pos ty pr])
                      else Ok operations) ;;
      lines_target_loop source_lines rest
        (match m with Some (i, _) => {[i]} ∪ processed | None => processed end)
        operations'
  end.

Fixpoint lines_removed_loop (sources : list line_entry) (i : nat)
  (processed : gset nat) (operations : list pydict) : res (list pydict) :=
  match sources with
  | [] => Ok operations
  | source_line :: rest =>
      operations' <- (if bool_decide (i ∈ processed) then Ok operations
                      else
                        pos <- line_offsetInPiece source_line ;;
                        Ok (operations ++ [line_op pos "paragraph" ∅])) ;;
      lines_removed_loop rest (S i) processed operations'
  end.

Definition _compare_lines (source target : PieceTable.t) : res (list pydict) :=
  st <- lines_target_loop (PieceTable.lines source) (PieceTable.lines target) ∅ [] ;;
  lines_removed_loop (PieceTable.lines source) 0 (snd st) (fst st).

(** ** [create_diff] *)

Definition create_diff (source target : PieceTable.t) : res (list pydict) :=
  let source_chars := PieceTable.get_text source in
  let target_chars := PieceTable.get_text target in
  let lcs := _get_lcs source_chars target_chars in
  operations <- _generate_operations source_chars target_chars lcs ;;
  style_ops <- _compare_styles source target ;;
  line_ops <- _compare_lines source target ;;
  Ok (operations ++ style_ops ++ line_ops).

(** ** [apply_diff] *)

(** [piece_table.insert(position, content)] for a value read off a
    dictionary: a falsy value returns at [if not text]; any other value
    that is not a string fails at [self.add_buffer += text]. *)
Definition insert_value (position : Z) (content : pyval) : M PieceTable.t unit :=
  match content with
  | VStr s => PieceTable.insert position s
  | v => if truthy v then raise TypeError else ret tt
  end.

(** One iteration of the loop; the result is the new [position_offset]. *)
Definition apply_op (op : pydict) (position_offset : Z) : M PieceTable.t Z :=
  op_type <~ lift (getitem op "type") ;;
  p <~ lift (getitem op "position") ;;
  p <~ lift (int_of p) ;;
  let position := p + position_offset in
  if is_type op_type "insert" then
    content <~ lift (getitem op "content") ;;
    insert_value position content ;;;
    n <~ lift (py_len content) ;;
    ret (position_offset + n)
  else if is_type op_type "delete" then
    l <~ lift (getitem op "length") ;;
    n <~ lift (int_of l) ;;
    PieceTable.delete position n ;;;
    ret (position_offset - n)
  else if is_type op_type "style" then
    self <~ get ;;
    let pieceIndex := fst (PieceTable._find_piece_at_position self position) in
    l <~ lift (getitem op "length") ;;
    a <~ lift (getitem op "attributes") ;;
    modify (PieceTable.set_styles
              (PieceTable.styles self ++
               [StyleDict {[ "pieceIndex" := VInt pieceIndex; "startOffset" := VInt position;
                             "length" := l; "attributes" := a ]}])) ;;;
    ret position_offset
  else if is_type op_type "line" then
    self <~ get ;;
    let pieceIndex := fst (PieceTable._find_piece_at_position self position) in
    ty <~ lift (getitem op "lineType") ;;
    pr <~ lift (getitem op "properties") ;;
    modify (PieceTable.set_lines
              (PieceTable.lines self ++
               [LineDict {[ "pieceIndex" := VInt pieceIndex; "offset" := VInt position;
                            "type" := ty; "properties" := pr ]}])) ;;;
    ret position_offset
  else ret position_offset.

Fixpoint apply_loop (operations : list pydict) (position_offset : Z)
  : M PieceTable.t unit :=
  match operations with
  | [] => ret tt
  | op :: rest =>
      position_offset' <~ apply_op op position_offset ;;
      apply_loop rest position_offset'
  end.

Definition apply_diff (operations : list pydict) : M PieceTable.t unit :=
  apply_loop operations 0.

End DiffCalculator.

(* ===================================================================== *)
(** * models/document.py *)
(* ===================================================================== *)

(** Versions are Python floats: IEEE 754 binary64. *)
Definition bump (v : float) : float := PrimFloat.add v 0.1%float.

Module DocumentVersion.

Record t := mk {
  version : float;
  content : Json.t
}.

End DocumentVersion.

Module Change.

Record t := mk {
  source_version : float;
  operation_type : string;
  position : Z;
  content : option (list ascii);
  attributes : option (gmap string jval)
}.

End Change.

Module Document.

(** The fields of a document the editing core reads and writes. *)
Record t := mk {
  content : Json.t;
  current_version : float
}.

(** The names bound in document.py are those of its imports ([models],
    [get_user_model], [uuid], [json]) and of its own definitions;
    [PieceTable] is not among them, so looking the name up when a method
    runs raises. *)
Definition global_PieceTable : res unit := Raise NameError.

Definition get_piece_table (self : t) : res PieceTable.t :=
  _ <- global_PieceTable ;;
  Ok (PieceTable.from_json (content self)).

End Document.

(** The rows of one document in the database: the document itself, its
    [versions] and its [changes]. *)
Module Db.

Record t := mk {
  document : Document.t;
  versions : list DocumentVersion.t;
  changes : list Change.t
}.

(** [document.versions.filter(version=v).first()] *)
Definition first_version (v : float) (db : t) : option DocumentVersion.t :=
  List.find (fun dv => PrimFloat.eqb (DocumentVersion.version dv) v) (versions db).

(** [document.save()] *)
Definition save (doc : Document.t) (db : t) : t :=
  mk doc (versions db) (changes db).

(** [document.versions.create(version=v, content=c)]; the pair
    (document, version) is unique. *)
Definition create_version (v : float) (c : Json.t) (db : t) : res t :=
  match first_version v db with
  | Some _ => Raise IntegrityError
  | None => Ok (mk (document db) (versions db ++ [DocumentVersion.mk v c]) (changes db))
  end.

(** [Change.objects.create(...)] *)
Definition create_change (c : Change.t) (db : t) : t :=
  mk (document db) (versions db) (changes db ++ [c]).

End Db.

(* ===================================================================== *)
(** * services/merge_service.py *)
(* ===================================================================== *)

(** The arguments of the merge functions are annotated as dictionaries, but
    [apply_change] passes the list returned by [create_diff] as the first
    one, so an argument is either. *)
Inductive pyobj := PList (l : list pydict) | PDict (d : pydict).

(** [o[k]] with a string key: a list rejects it. *)
Definition obj_getitem (o : pyobj) (k : string) : res pyval :=
  match o with
  | PList _ => Raise TypeError
  | PDict d => getitem d k
  end.

(** [o.get(k, dflt)]: a list has no such method. *)
Definition obj_get (o : pyobj) (k : string) (dflt : pyval) : res pyval :=
  match o with
  | PList _ => Raise AttributeError
  | PDict d => Ok (dict_get d k dflt)
  end.

(** [o[k] = v] *)
Definition obj_setitem (o : pyobj) (k : string) (v : pyval) : res pyobj :=
  match o with
  | PList _ => Raise TypeError
  | PDict d => Ok (PDict (<[k := v]> d))
  end.

(** [a - b] *)
Definition py_sub (a b : pyval) : res pyval :=
  match a, b with
  | VInt x, VInt y => Ok (VInt (x - y))
  | _, _ => Raise TypeError
  end.

(** [a <= b] and [a < b]: integers by value, strings by code points. *)
Definition py_le (a b : pyval) : res bool :=
  match a, b with
  | VInt x, VInt y => Ok (x <=? y)
  | VStr x, VStr y => Ok (String.leb (string_of_list_ascii x) (string_of_list_ascii y))
  | _, _ => Raise TypeError
  end.

Definition py_lt (a b : pyval) : res bool :=
  match a, b with
  | VInt x, VInt y => Ok (x <? y)
  | VStr x, VStr y => Ok (String.ltb (string_of_list_ascii x) (string_of_list_ascii y))
  | _, _ => Raise TypeError
  end.

(** [**v] inside a dictionary display *)
Definition mapping_of (v : pyval) : res (gmap string jval) :=
  match v with
  | VDict d => Ok d
  | _ => Raise TypeError
  end.

(** The dictionary [{'type': 'compound', 'operations': diffs}] or any other
    merge result. *)
Inductive merged := Single (diff : pyobj) | Compound (operations : list pyobj).

(** [try: m  except Exception: handler] *)
Definition try_except {S A} (m : M S A) (handler : exn -> M S A) : M S A :=
  fun s => match m s with
           | (Ok a, s') => (Ok a, s')
           | (Raise e, s') => handler e s'
           end.

Module MergeService.

Definition _change_to_diff (change : Change.t) : pydict :=
  {[ "type" := VStr (str (Change.operation_type change));
     "position" := VInt (Change.position change);
     "content" := match Change.content change with
                  | Some s => VStr s
                  | None => VNone
                  end;
     "attributes" := match Change.attributes change with
                     | Some a => VDict a
                     | None => VNone
                     end ]}.

(** [len(diff.get('content', '')) if diff['type'] == 'insert' else diff.get('length', 0)] *)
Definition affected_len (diff : pyobj) : res pyval :=
  t <- obj_getitem diff "type" ;;
  if is_type t "insert" then
    c <- obj_get diff "content" (VStr []) ;;
    n <- py_len c ;;
    Ok (VInt n)
  else obj_get diff "length" (VInt 0).

Definition _changes_overlap (diff1 diff2 : pyobj) : res bool :=
  pos1 <- obj_getitem diff1 "position" ;;
  pos2 <- obj_getitem diff2 "position" ;;
  len1 <- affected_len diff1 ;;
  len2 <- affected_len diff2 ;;
  end1 <- py_add pos1 len1 ;;
  b1 <- py_le end1 pos2 ;;
  if b1 : bool then Ok false else
  end2 <- py_add pos2 len2 ;;
  b2 <- py_le end2 pos1 ;;
  Ok (negb b2).

Definition _combine_non_overlapping_diffs (diff1 diff2 : pyobj) : res merged :=
  (* sorted([diff1, diff2], key=position) is stable *)
  k1 <- obj_getitem diff1 "position" ;;
  k2 <- obj_getitem diff2 "position" ;;
  swap <- py_lt k2 k1 ;;
  let '(d0, d1) := if swap : bool then (diff2, diff1) else (diff1, diff2) in
  t <- obj_getitem d0 "type" ;;
  if is_type t "insert" then
    c <- obj_getitem d0 "content" ;;
    length <- py_len c ;;
    p <- obj_getitem d1 "position" ;;
    p' <- py_add p (VInt length) ;;
    d1' <- obj_setitem d1 "position" p' ;;
    Ok (Compound [d0; d1'])
  else if is_type t "delete" then
    length <- obj_get d0 "length" (VInt 0) ;;
    p <- obj_getitem d1 "position" ;;
    p' <- py_sub p length ;;
    d1' <- obj_setitem d1 "position" p' ;;
    Ok (Compound [d0; d1'])
  else Ok (Compound [d0; d1]).

Definition _merge_style_changes (style1 style2 : pyobj) : res pydict :=
  a1 <- obj_get style1 "attributes" (VDict ∅) ;;
  m1 <- mapping_of a1 ;;
  a2 <- obj_get style2 "attributes" (VDict ∅) ;;
  m2 <- mapping_of a2 ;;
  (* later keys of the display overwrite earlier ones *)
  let merged_attributes := m2 ∪ m1 in
  p <- obj_getitem style1 "position" ;;
  l <- obj_getitem style1 "length" ;;
  Ok {[ "type" := VStr (str "style"); "position" := p; "length" := l;
        "attributes" := VDict merged_attributes ]}.

Definition _resolve_conflict (current_diff change_diff : pyobj) : res merged :=
  t1 <- obj_getitem current_diff "type" ;;
  if is_type t1 "style" then
    t2 <- obj_getitem change_diff "type" ;;
    if is_type t2 "style" then
      d <- _merge_style_changes current_diff change_diff ;;
      Ok (Single (PDict d))
    else Ok (Single change_diff)
  else Ok (Single change_diff).

Definition _merge_diffs (current_diff change_diff : pyobj) : res merged :=
  overlap <- _changes_overlap current_diff change_diff ;;
  if negb overlap then _combine_non_overlapping_diffs current_diff change_diff
  else _resolve_conflict current_diff change_diff.

(** [piece_table.insert(position, content)] with values read off a
    dictionary. A falsy [content] returns before [position] is looked at;
    [_find_piece_at_position] compares [position] only when there is a
    piece to compare with. *)
Definition insert_values (position content : pyval) : M PieceTable.t unit :=
  match content with
  | VStr [] => ret tt
  | VStr s =>
      self <~ get ;;
      match PieceTable.pieces self with
      | [] => PieceTable.insert 0 s
      | _ => p <~ lift (int_of position) ;; PieceTable.insert p s
      end
  | v => if truthy v then raise TypeError else ret tt
  end.

(** [piece_table.delete(position, length)] with values read off a
    dictionary: [length <= 0] needs an integer, and so does
    [position + length] after it. *)
Definition delete_values (position length : pyval) : M PieceTable.t unit :=
  n <~ lift (int_of length) ;;
  if n <=? 0 then ret tt
  else
    p <~ lift (int_of position) ;;
    PieceTable.delete p n.

(** [StyleRange] is not imported into merge_service.py: after the lookup of
    the position, building the range raises. *)
Definition _apply_style (style_op : pyobj) : M PieceTable.t unit :=
  position <~ lift (obj_getitem style_op "position") ;;
  self <~ get ;;
  match PieceTable.pieces self with
  | [] => raise NameError
  | _ => p <~ lift (int_of position) ;; raise NameError
  end.

Definition _apply_single_operation (operation : pyobj) : M PieceTable.t unit :=
  op_type <~ lift (obj_getitem operation "type") ;;
  position <~ lift (obj_getitem operation "position") ;;
  if is_type op_type "insert" then
    content <~ lift (obj_getitem operation "content") ;;
    insert_values position content
  else if is_type op_type "delete" then
    length <~ lift (obj_getitem operation "length") ;;
    delete_values position length
  else if is_type op_type "style" then _apply_style operation
  else ret tt.

Fixpoint apply_each (operations : list pyobj) : M PieceTable.t unit :=
  match operations with
  | [] => ret tt
  | op :: rest => _apply_single_operation op ;;; apply_each rest
  end.

(** [for op in v: self._apply_single_operation(piece_table, op)] for a value
    [v] stored under ['operations'] of a dictionary that is not the compound
    built by the merge: the elements of a string or the keys of a dictionary
    are strings, which cannot be indexed by ['type']. *)
Definition apply_each_value (v : pyval) : M PieceTable.t unit :=
  match v with
  | VStr [] => ret tt
  | VDict d => if bool_decide (d = ∅) then ret tt else raise TypeError
  | _ => raise TypeError
  end.

(** The state of [apply_change]: the [document] object in memory and the
    database behind it. *)
Definition store : Type := Document.t * Db.t.

Definition _apply_merged_changes (merged_diff : merged) : M store unit :=
  st <~ get ;;
  piece_table <~ lift (Document.get_piece_table (fst st)) ;;
  let '(r, piece_table') :=
    match merged_diff with
    | Compound operations => apply_each operations piece_table
    | Single diff =>
        (t <~ lift (obj_getitem diff "type") ;;
         if is_type t "compound" then
           v <~ lift (obj_getitem diff "operations") ;;
           apply_each_value v
         else _apply_single_operation diff) piece_table
    end in
  lift r ;;;
  (* document.current_version += 0.1 *)
  modify (fun st : store =>
            (Document.mk (Document.content (fst st))
                         (bump (Document.current_version (fst st))), snd st)) ;;;
  (* document.update_content(piece_table) *)
  content <~ lift (PieceTable.to_json piece_table') ;;
  modify (fun st : store =>
            let doc := Document.mk content (Document.current_version (fst st)) in
            (doc, Db.save doc (snd st))) ;;;
  (* document.versions.create(...) *)
  st <~ get ;;
  db <~ lift (Db.create_version (Document.current_version (fst st))
                                (Document.content (fst st)) (snd st)) ;;
  put (fst st, db).

(** [not merged_diff] *)
Definition merged_truthy (m : merged) : bool :=
  match m with
  | Single (PDict d) => negb (bool_decide (d = ∅))
  | Single (PList l) => negb (bool_decide (l = []))
  | Compound _ => true
  end.

Definition apply_change (change : Change.t) : M store bool :=
  st <~ get ;;
  match Db.first_version (Change.source_version change) (snd st) with
  | None => ret false
  | Some base_version =>
      current_table <~ lift (Document.get_piece_table (fst st)) ;;
      let base_table := PieceTable.from_json (DocumentVersion.content base_version) in
      current_diff <~ lift (DiffCalculator.create_diff base_table current_table) ;;
      let change_diff := _change_to_diff change in
      merged_diff <~ lift (_merge_diffs (PList current_diff) (PDict change_diff)) ;;
      if negb (merged_truthy merged_diff) then ret false
      else try_except (_apply_merged_changes merged_diff ;;; ret true)
                      (fun _ => ret false)
  end.

End MergeService.

(* ===================================================================== *)
(** * consumers/document_consumer.py *)
(* ===================================================================== *)

Module DocumentConsumer.

(** An incoming [operation] message with its required fields. *)
Record operation_t := mkOperation {
  op_type : string;
  op_position : Z;
  op_content : option (list ascii);
  op_attributes : option (gmap string jval)
}.

Record data_t := mkData {
  sourceVersion : float;
  operation : operation_t
}.

(** Frames written to the socket of this consumer by [self.send]. *)
Inductive frame :=
| sync_required (currentVersion : float)
| sync_response (content : Json.t) (version : float).

(** Events handed to the channel layer by [group_send]. *)
Inductive event :=
| document_change (change : data_t) (user_id : string) (new_version : float)
| cursor_position (user_id : string) (position : Z).

Record world := mk {
  db : Db.t;
  sent : list frame;
  group_sent : list event
}.

Definition send (f : frame) (w : world) : world :=
  mk (db w) (sent w ++ [f]) (group_sent w).

Definition group_send (e : event) (w : world) : world :=
  mk (db w) (sent w) (group_sent w ++ [e]).

Definition set_db (d : Db.t) (w : world) : world :=
  mk d (sent w) (group_sent w).

Definition create_change (data : data_t) : Change.t :=
  Change.mk (sourceVersion data) (op_type (operation data))
            (op_position (operation data)) (op_content (operation data))
            (op_attributes (operation data)).

Definition handle_operation (user_id : string) (data : data_t) : M world unit :=
  w <~ get ;;
  let document := Db.document (db w) in
  if negb (PrimFloat.eqb (sourceVersion data) (Document.current_version document)) then
    modify (send (sync_required (Document.current_version document)))
  else
    let change := create_change data in
    let db1 := Db.create_change change (db w) in
    let '(r, (document', db2)) := MergeService.apply_change change (document, db1) in
    modify (set_db db2) ;;;
    success <~ lift r ;;
    if success : bool then
      modify (group_send (document_change data user_id
                            (Document.current_version document')))
    else ret tt.

Definition handle_sync_request : M world unit :=
  w <~ get ;;
  let document := Db.document (db w) in
  modify (send (sync_response (Document.content document)
                              (Document.current_version document))).

End DocumentConsumer.

(* ===================================================================== *)
(** * Specification vocabulary *)
(* ===================================================================== *)

(** Logical length of a document: the sum of the lengths of its pieces. *)
Definition sum_lengths (ps : list Piece.t) : Z :=
  foldr (fun p acc => Piece.length p + acc) 0 ps.

Definition doc_length (t : PieceTable.t) : Z := sum_lengths (PieceTable.pieces t).

(** The characters a piece denotes. *)
Definition piece_text (t : PieceTable.t) (p : Piece.t) : list ascii :=
  slice (PieceTable.buffer_of t p) (Piece.start p) (Piece.start p + Piece.length p).

(** The text of a sequence of pieces of [t]. *)
Definition text_of (t : PieceTable.t) (ps : list Piece.t) : list ascii :=
  concat (map (piece_text t) ps).

(** A piece is in order when it is not empty and its slice lies inside the
    buffer it references. *)
Definition piece_ok (t : PieceTable.t) (p : Piece.t) : Prop :=
  0 < Piece.length p ∧ 0 <= Piece.start p ∧
  Piece.start p + Piece.length p <= len (PieceTable.buffer_of t p).

Definition is_style_obj (e : style_entry) : Prop :=
  match e with StyleObj _ => True | StyleDict _ => False end.

Definition is_line_obj (e : line_entry) : Prop :=
  match e with LineObj _ => True | LineDict _ => False end.

(** The overlay lists hold what their annotations say. *)
Definition typed (t : PieceTable.t) : Prop :=
  Forall is_style_obj (PieceTable.styles t) ∧ Forall is_line_obj (PieceTable.lines t).

(** The effect of an edit at piece [piece_index] on an anchor, as
    [_update_markers] has it: the offset moves by [delta] when the anchor
    sits in a later piece, whatever its offset. *)
Definition moved_style (piece_index delta : Z) (s : StyleRange.t) : StyleRange.t :=
  StyleRange.mk (StyleRange.piece_index s)
    (if piece_index <? StyleRange.piece_index s
     then StyleRange.start_offset s + delta else StyleRange.start_offset s)
    (StyleRange.length s) (StyleRange.attributes s).

Definition moved_line (piece_index delta : Z) (l : LineMarker.t) : LineMarker.t :=
  LineMarker.mk (LineMarker.piece_index l)
    (if piece_index <? LineMarker.piece_index l
     then LineMarker.offset l + delta else LineMarker.offset l)
    (LineMarker.type l) (LineMarker.properties l).

Definition on_style (f : StyleRange.t -> StyleRange.t) (e : style_entry) : style_entry :=
  match e with StyleObj s => StyleObj (f s) | StyleDict d => StyleDict d end.

Definition on_line (f : LineMarker.t -> LineMarker.t) (e : line_entry) : line_entry :=
  match e with LineObj l => LineObj (f l) | LineDict d => LineDict d end.

(** The piece added by [insert] for [text]. *)
Definition new_piece (t : PieceTable.t) (text : list ascii) : Piece.t :=
  Piece.mk Add (len (PieceTable.add_buffer t)) (len text) false.

(** Where the new piece goes: before a piece boundary (or at the very end),
    or between the two halves of a split piece. *)
Definition insert_shape (t : PieceTable.t) (pos : Z) (text : list ascii)
  (ps' : list Piece.t) : Prop :=
  (exists pre post,
      PieceTable.pieces t = pre ++ post /\ ps' = pre ++ new_piece t text :: post /\
      fst (PieceTable._find_piece_at_position t pos) = len pre /\
      (pos = sum_lengths pre \/ ((pos < 0 \/ doc_length t <= pos) /\ post = []))) \/
  (exists pre p post off first second,
      PieceTable.pieces t = pre ++ p :: post /\ pos = sum_lengths pre + off /\
      fst (PieceTable._find_piece_at_position t pos) = len pre /\
      Piece.split p off = Ok (first, second) /\
      ps' = pre ++ first :: new_piece t text :: second :: post).

(** [s] differs from [t] at most in its pieces, which are in order. *)
Definition keeps (t s : PieceTable.t) : Prop :=
  PieceTable.original_buffer s = PieceTable.original_buffer t /\
  PieceTable.add_buffer s = PieceTable.add_buffer t /\
  PieceTable.styles s = PieceTable.styles t /\
  PieceTable.lines s = PieceTable.lines t /\
  Forall (piece_ok t) (PieceTable.pieces s).

(** The piece-table invariant. *)
Definition wf (t : PieceTable.t) : Prop :=
  Forall (piece_ok t) (PieceTable.pieces t) ∧ typed t.

(** Tables reached from the empty table by inserts and deletes at positions
    inside the document. A delete that raises leaves the table in the state
    it had reached; that state counts as reached, too. *)
Inductive reachable : PieceTable.t -> Prop :=
| reach_init : reachable PieceTable.init
| reach_insert t pos text :
    reachable t -> 0 <= pos <= doc_length t ->
    reachable (snd (PieceTable.insert pos text t))
| reach_delete t pos n :
    reachable t -> 0 <= pos -> 0 <= n -> pos + n <= doc_length t ->
    reachable (snd (PieceTable.delete pos n t)).

(** [old] with [text] spliced in at offset [pos]. *)
Definition splice (old : list ascii) (pos : Z) (text : list ascii) : list ascii :=
  take (Z.to_nat pos) old ++ text ++ drop (Z.to_nat pos) old.

(** [old] without the [n] characters from offset [pos] on. *)
Definition cut (old : list ascii) (pos n : Z) : list ascii :=
  take (Z.to_nat pos) old ++ drop (Z.to_nat (pos + n)) old.

Definition raises {S A} (r : res A * S) : Prop := ∃ e, fst r = Raise e.

(** The table holding [s] in a single piece: [insert(0, s)] on [PieceTable()]. *)
Definition table_of (s : string) : PieceTable.t :=
  snd (PieceTable.insert 0 (str s) PieceTable.init).

(** "abcdef", then "XY" inserted at 3, then two characters deleted at 0. *)
Definition edited_table : PieceTable.t :=
  snd (PieceTable.delete 0 2 (snd (PieceTable.insert 3 (str "XY") (table_of "abcdef")))).

(** The rule of the specification for an anchor after an edit at offset
    [o] of piece [piece_index]: the same piece and an offset of at least
    [o] move by [delta], everything else stays. *)
Definition same_piece_style (piece_index o delta : Z) (s : StyleRange.t) : StyleRange.t :=
  StyleRange.mk (StyleRange.piece_index s)
    (if (StyleRange.piece_index s =? piece_index) && (o <=? StyleRange.start_offset s)
     then StyleRange.start_offset s + delta else StyleRange.start_offset s)
    (StyleRange.length s) (StyleRange.attributes s).

Definition same_piece_line (piece_index o delta : Z) (l : LineMarker.t) : LineMarker.t :=
  LineMarker.mk (LineMarker.piece_index l)
    (if (LineMarker.piece_index l =? piece_index) && (o <=? LineMarker.offset l)
     then LineMarker.offset l + delta else LineMarker.offset l)
    (LineMarker.type l) (LineMarker.properties l).

Definition anchors_follow_same_piece_rule (t : PieceTable.t) (pos : Z) (text : list ascii)
  : Prop :=
  let '(piece_index, o) := PieceTable._find_piece_at_position t pos in
  let t' := snd (PieceTable.insert pos text t) in
  PieceTable.styles t'
  = map (on_style (same_piece_style piece_index o (len text))) (PieceTable.styles t) /\
  PieceTable.lines t'
  = map (on_line (same_piece_line piece_index o (len text))) (PieceTable.lines t).

(** "abc" in one piece, with a bold range starting at its offset 1 and a
    line marker at its offset 2. *)
Definition styled_abc : PieceTable.t :=
  PieceTable.mk [] (str "abc") [Piece.mk Add 0 3 false]
    [StyleObj (StyleRange.mk 0 1 1 {[ "bold" := JBool true ]})]
    [LineObj (LineMarker.mk 0 2 "paragraph" ∅)].

(** ** The scenario of two concurrent inserts

    The document held "abcdef" at version 2.0; insert "X" at 1 has been
    applied and stored as the next version; a client still at 2.0 sends
    insert "Y" at 4. *)
Definition json_abcdef : Json.t :=
  Json.mk [] (str "abcdef") [Piece.mk Add 0 6 false] [] [].

Definition json_aXbcdef : Json.t :=
  Json.mk [] (str "abcdefX")
    [Piece.mk Add 0 1 false; Piece.mk Add 6 1 false; Piece.mk Add 1 5 false] [] [].

Definition doc_2_1 : Document.t := Document.mk json_aXbcdef (bump 2.0%float).

Definition db_2_1 : Db.t :=
  Db.mk doc_2_1
    [DocumentVersion.mk 2.0%float json_abcdef;
     DocumentVersion.mk (bump 2.0%float) json_aXbcdef] [].

Definition change_Y : Change.t :=
  Change.mk 2.0%float "insert" 4 (Some (str "Y")) None.

Definition server_insert_X : pydict := DiffCalculator.insert_op 1 (str "X").

(** ** The scenario of two style changes on the range [2, 5) *)
Definition server_underline : pydict :=
  DiffCalculator.style_op 2 3 {[ "underline" := JBool true ]}.

Definition client_bold_italic : pydict :=
  DiffCalculator.style_op 2 3 {[ "bold" := JBool false; "italic" := JBool true ]}.

(* ===================================================================== *)
(** * models/formatting.py, continued *)
(* ===================================================================== *)

(** [list.sort(key=...)] is a stable sort: elements come out in the order
    of their keys, those with equal keys in the order they had. Insertion
    sort from the right computes that list. *)
Fixpoint insert_by {A} (le : A -> A -> bool) (x : A) (l : list A) : list A :=
  match l with
  | [] => [x]
  | y :: rest => if le x y then x :: y :: rest else y :: insert_by le x rest
  end.

Definition stable_sort {A} (le : A -> A -> bool) (l : list A) : list A :=
  foldr (insert_by le) [] l.

(** Order of the tuples [(piece, offset)] used as sort keys. *)
Definition key_le (a b : Z * Z) : bool :=
  (fst a <? fst b) || ((fst a =? fst b) && (snd a <=? snd b)).

Module FormattingManager.

Import Formatting.

(** [StyleRange.overlaps] *)
Definition overlaps (self other : StyleRange) : bool :=
  if negb (s_pieceIndex self =? s_pieceIndex other) then false
  else
    let self_end := s_offsetInPiece self + s_length self in
    let other_end := s_offsetInPiece other + s_length other in
    negb ((self_end <=? s_offsetInPiece other) || (other_end <=? s_offsetInPiece self)).

(** [StyleRange.split] *)
Definition split (self : StyleRange) (offset : Z) : option StyleRange * option StyleRange :=
  if offset <=? 0 then (None, Some self)
  else if s_length self <=? offset then (Some self, None)
  else
    (Some (mkStyle (s_pieceIndex self) (s_offsetInPiece self) offset
                   (s_priority self) (s_styles self)),
     Some (mkStyle (s_pieceIndex self) (s_offsetInPiece self + offset)
                   (s_length self - offset) (s_priority self) (s_styles self))).

(** [LineMarker.update_position] *)
Definition update_position (delta : Z) (self : LineMarker) : LineMarker :=
  mkLine (l_pieceIndex self) (l_offsetInPiece self + delta) (l_type self)
         (l_properties self).

(** [BlockDescriptor.contains_position] *)
Definition contains_position (self : BlockDescriptor) (piece_index offset : Z) : bool :=
  if (piece_index <? startPieceIndex self) || (endPieceIndex self <? piece_index)
  then false
  else if (piece_index =? startPieceIndex self) && (offset <? startOffset self)
  then false
  else if (piece_index =? endPieceIndex self) && (endOffset self <? offset)
  then false
  else true.

(** [any(k in s.styles for k in style.styles)] *)
Definition shares_key (a b : gmap string jval) : bool :=
  bool_decide (dom a ∩ dom b ≠ ∅).

Definition style_key (s : StyleRange) : Z * Z := (s_pieceIndex s, s_offsetInPiece s).
Definition line_key (l : LineMarker) : Z * Z := (l_pieceIndex l, l_offsetInPiece l).
Definition block_key (b : BlockDescriptor) : Z * Z := (startPieceIndex b, startOffset b).

Definition _sort_styles (self : t) : t :=
  mk (stable_sort (fun a b => key_le (style_key a) (style_key b)) (styles self))
     (lines self) (blocks self).

Definition _sort_lines (self : t) : t :=
  mk (styles self)
     (stable_sort (fun a b => key_le (line_key a) (line_key b)) (lines self))
     (blocks self).

Definition _sort_blocks (self : t) : t :=
  mk (styles self) (lines self)
     (stable_sort (fun a b => key_le (block_key a) (block_key b)) (blocks self)).

(** The style [s] gives way to the new [style]. *)
Definition displaced_by (style s : StyleRange) : bool :=
  overlaps s style && shares_key (s_styles s) (s_styles style).

Definition add_style (style : StyleRange) (self : t) : t :=
  _sort_styles
    (mk (filter (fun s => negb (displaced_by style s)) (styles self) ++ [style])
        (lines self) (blocks self)).

Definition same_coordinate (marker l : LineMarker) : bool :=
  (l_pieceIndex l =? l_pieceIndex marker) && (l_offsetInPiece l =? l_offsetInPiece marker).

Definition add_line_marker (marker : LineMarker) (self : t) : t :=
  _sort_lines
    (mk (styles self)
        (filter (fun l => negb (same_coordinate marker l)) (lines self) ++ [marker])
        (blocks self)).

Definition _blocks_overlap (b1 b2 : BlockDescriptor) : bool :=
  if (endPieceIndex b2 <? startPieceIndex b1) || (endPieceIndex b1 <? startPieceIndex b2)
  then false
  else if (startPieceIndex b1 =? endPieceIndex b2) && (endOffset b2 <=? startOffset b1)
  then false
  else if (startPieceIndex b2 =? endPieceIndex b1) && (endOffset b1 <=? startOffset b2)
  then false
  else true.

Definition block_displaced_by (block b : BlockDescriptor) : bool :=
  bool_decide (b_type b = b_type block) && _blocks_overlap b block.

Definition add_block (block : BlockDescriptor) (self : t) : t :=
  _sort_blocks
    (mk (styles self) (lines self)
        (filter (fun b => negb (block_displaced_by block b)) (blocks self) ++ [block])).

Definition get_styles_at_position (piece_index offset : Z) (self : t) : list StyleRange :=
  filter (fun style =>
            (s_pieceIndex style =? piece_index) &&
            ((s_offsetInPiece style <=? offset) &&
             (offset <? s_offsetInPiece style + s_length style)))
         (styles self).

(** [for line in reversed(self.lines): if ...: return line] *)
Definition line_not_after (piece_index offset : Z) (line : LineMarker) : bool :=
  (l_pieceIndex line <? piece_index) ||
  ((l_pieceIndex line =? piece_index) && (l_offsetInPiece line <=? offset)).

Definition get_line_at_position (piece_index offset : Z) (self : t) : option LineMarker :=
  List.find (line_not_after piece_index offset) (reverse (lines self)).

Definition get_block_at_position (piece_index offset : Z) (self : t)
  : option BlockDescriptor :=
  List.find (fun block => contains_position block piece_index offset) (blocks self).

End FormattingManager.

(** ** Vocabulary for the overlay *)

(** [R] holds between any two elements at different places of [l]. *)
Fixpoint pairwise {A} (R : A -> A -> Prop) (l : list A) : Prop :=
  match l with
  | [] => True
  | x :: rest => Forall (R x) rest /\ pairwise R rest
  end.

(** Two style ranges may overlap only when they name different attributes. *)
Definition styles_apart (a b : Formatting.StyleRange) : Prop :=
  FormattingManager.overlaps a b = true ->
  FormattingManager.shares_key (Formatting.s_styles a) (Formatting.s_styles b) = false.

(** Two line markers sit at different coordinates. *)
Definition lines_apart (a b : Formatting.LineMarker) : Prop :=
  FormattingManager.line_key a <> FormattingManager.line_key b.

(** Two blocks of one type do not overlap. *)
Definition blocks_apart (a b : Formatting.BlockDescriptor) : Prop :=
  Formatting.b_type a = Formatting.b_type b ->
  FormattingManager._blocks_overlap a b = false.

(** The offsets a style range covers. *)
Definition covers (s : Formatting.StyleRange) (x : Z) : Prop :=
  Formatting.s_offsetInPiece s <= x < Formatting.s_offsetInPiece s + Formatting.s_length s.

Definition sorted_by {A} (key : A -> Z * Z) (l : list A) : Prop :=
  StronglySorted (fun a b => key_le (key a) (key b) = true) l.

(** ** Vocabulary for the diff *)

(** The index pairs [l] name equal characters of the two sequences and
    increase in both components. *)
Definition common_subsequence (seq1 seq2 : list ascii) (l : list (nat * nat)) : Prop :=
  Forall (fun p => exists c, seq1 !! fst p = Some c /\ seq2 !! snd p = Some c) l /\
  StronglySorted (fun x y => (fst x < fst y)%nat /\ (snd x < snd y)%nat) l.

Definition descending (x y : nat * nat) : Prop :=
  (fst y < fst x)%nat /\ (snd y < snd x)%nat.

(** A delete of [length] characters, as [_optimize_operations] builds it
    from single deletes. *)
Definition delete_run (position length : Z) : pydict :=
  <["length" := VInt length]> (DiffCalculator.delete_op position).

(** The text operations of a diff. *)
Definition is_text_op (d : pydict) : Prop :=
  (exists p n, d = delete_run p n) \/ (exists p s, d = DiffCalculator.insert_op p s).

(** ** Vocabulary for the table of [_get_lcs] *)

(** The value [fill_cell] writes to cell [(a, b)], read off the table. *)
Definition cell_value (seq1 seq2 : list ascii) (dp : list (list Z)) (a b : nat) : Z :=
  if DiffCalculator.same_at seq1 seq2 a b
  then DiffCalculator.dp_get dp (a - 1) (b - 1) + 1
  else Z.max (DiffCalculator.dp_get dp (a - 1) b) (DiffCalculator.dp_get dp a (b - 1)).

Definition table_dims (seq1 seq2 : list ascii) (dp : list (list Z)) : Prop :=
  length dp = S (length seq1) /\
  Forall (fun row => length row = S (length seq2)) dp.

(** Cell [(a, b)] has been filled before the loops reach [(i, j)]. *)
Definition cell_filled (seq2 : list ascii) (i j a b : nat) : Prop :=
  (1 <= a)%nat /\ (1 <= b <= length seq2)%nat /\ (a < i \/ (a = i /\ b < j))%nat.

(** The loop invariant of the table filling: the border is zero and the
    cells filled so far hold the value computed from their neighbours. *)
Definition table_inv (seq1 seq2 : list ascii) (dp : list (list Z)) (i j : nat) : Prop :=
  table_dims seq1 seq2 dp /\
  (forall a b, a = 0%nat \/ b = 0%nat -> DiffCalculator.dp_get dp a b = 0) /\
  (forall a b, cell_filled seq2 i j a b ->
               DiffCalculator.dp_get dp a b = cell_value seq1 seq2 dp a b).

(* ===================================================================== *)
(** * utils/version_control.py *)
(* ===================================================================== *)

(** [-v] *)
Definition py_neg (v : pyval) : res pyval :=
  match v with
  | VInt n => Ok (VInt (- n))
  | _ => Raise TypeError
  end.

Module VersionControl.

(** The keys [x['position']] of the operations, computed before any
    comparison is made. *)
Fixpoint position_keys (diff : list pydict) : res (list pyval) :=
  match diff with
  | [] => Ok []
  | x :: rest =>
      k <- getitem x "position" ;;
      ks <- position_keys rest ;;
      Ok (k :: ks)
  end.

Definition is_int (v : pyval) : bool :=
  match v with VInt _ => true | _ => false end.

Definition is_str (v : pyval) : bool :=
  match v with VStr _ => true | _ => false end.

Definition int_position (x : pydict) : Z :=
  match x !! "position" with
  | Some (VInt n) => n
  | _ => 0
  end.

Definition str_position (x : pydict) : string :=
  match x !! "position" with
  | Some (VStr s) => string_of_list_ascii s
  | _ => EmptyString
  end.

(** [sorted(diff, key=lambda x: x['position'])]. With fewer than two
    operations no keys are compared. Otherwise every key takes part in a
    comparison, and [<] is defined between two integers and between two
    strings only: the sort succeeds exactly when all keys are integers or
    all are strings, and it is stable. *)
Definition sorted_by_position (diff : list pydict) : res (list pydict) :=
  keys <- position_keys diff ;;
  match keys with
  | [] | [_] => Ok diff
  | _ =>
      if forallb is_int keys
      then Ok (stable_sort (fun a b => int_position a <=? int_position b) diff)
      else if forallb is_str keys
      then Ok (stable_sort (fun a b => String.leb (str_position a) (str_position b)) diff)
      else Raise TypeError
  end.

Definition _adjust_operation (op : pydict) (offset : Z) : res pydict :=
  p <- getitem op "position" ;;
  p' <- py_add p (VInt offset) ;;
  Ok (<["position" := p']> op).

Definition _get_position_offset (op : pydict) : res Z :=
  t <- getitem op "type" ;;
  if is_type t "insert" then
    c <- getitem op "content" ;;
    py_len c
  else if is_type t "delete" then
    l <- getitem op "length" ;;
    n <- py_neg l ;;
    int_of n
  else Ok 0.

(** The two loops over what is left of either list. *)
Fixpoint adjust_all (ops : list pydict) (pos_offset : Z) : res (list pydict) :=
  match ops with
  | [] => Ok []
  | op :: rest =>
      adjusted <- _adjust_operation op pos_offset ;;
      rest' <- adjust_all rest pos_offset ;;
      Ok (adjusted :: rest')
  end.

(** The merging loop; the lists are what is left of [sorted_diff1] from
    [i] on and of [sorted_diff2] from [j] on. *)
Fixpoint merge_loop (sorted_diff1 : list pydict)
  : list pydict -> Z -> list pydict -> res (list pydict) :=
  fix inner (sorted_diff2 : list pydict) (pos_offset : Z) (merged : list pydict)
    : res (list pydict) :=
    match sorted_diff1, sorted_diff2 with
    | op1 :: rest1, op2 :: rest2 =>
        p1 <- getitem op1 "position" ;;
        adj_pos1 <- py_add p1 (VInt pos_offset) ;;
        p2 <- getitem op2 "position" ;;
        adj_pos2 <- py_add p2 (VInt pos_offset) ;;
        lt <- py_lt adj_pos1 adj_pos2 ;;
        if lt : bool then
          adjusted <- _adjust_operation op1 pos_offset ;;
          off <- _get_position_offset op1 ;;
          merge_loop rest1 sorted_diff2 (pos_offset + off) (merged ++ [adjusted])
        else
          adjusted <- _adjust_operation op2 pos_offset ;;
          off <- _get_position_offset op2 ;;
          inner rest2 (pos_offset + off) (merged ++ [adjusted])
    | _, _ =>
        rest1 <- adjust_all sorted_diff1 pos_offset ;;
        rest2 <- adjust_all sorted_diff2 pos_offset ;;
        Ok (merged ++ rest1 ++ rest2)
    end.

Definition _merge_diffs (diff1 diff2 : list pydict) : res (list pydict) :=
  sorted_diff1 <- sorted_by_position diff1 ;;
  sorted_diff2 <- sorted_by_position diff2 ;;
  merge_loop sorted_diff1 sorted_diff2 0 [].

End VersionControl.

(** ** Vocabulary for the version merge *)

(** An operation whose position is the integer [p]. *)
Definition has_int_position (x : pydict) : Prop :=
  exists p, x !! "position" = Some (VInt p).

(** An operation without its position. *)
Definition unpositioned (x : pydict) : pydict := delete "position" x.

(* ===================================================================== *)
(** * services/document_service.py *)
(* ===================================================================== *)

Module DocumentService.

Definition newline : ascii := "010"%char.

(** [s.split('\n')] *)
Fixpoint split_newline (s : list ascii) : list (list ascii) :=
  match s with
  | [] => [[]]
  | c :: rest =>
      if Ascii.eqb c newline then [] :: split_newline rest
      else match split_newline rest with
           | first :: others => (c :: first) :: others
           | [] => [[c]]
           end
  end.

(** [s.count('\n')] *)
Definition count_newline (s : list ascii) : Z :=
  len (filter (fun c => c = newline) s).

(** ['\n'.join(lines)] *)
Fixpoint join_newline (lines : list (list ascii)) : list ascii :=
  match lines with
  | [] => []
  | [line] => line
  | line :: rest => line ++ newline :: join_newline rest
  end.

(** The style is read through [start_offset] and [length]; a dictionary
    entry has neither. *)
Definition _apply_markdown_style (content : list ascii) (style : style_entry)
  (marker : list ascii) : res (list ascii) :=
  match style with
  | StyleDict _ => Raise AttributeError
  | StyleObj s =>
      let start := StyleRange.start_offset s in
      let end_ := start + StyleRange.length s in
      Ok (slice content 0 start ++ marker ++ slice content start end_ ++ marker ++
          slice content end_ (len content))
  end.

Definition _add_line_prefix (content : list ascii) (line : line_entry)
  (prefix : list ascii) : res (list ascii) :=
  let lines := split_newline content in
  match line with
  | LineDict _ => Raise AttributeError
  | LineObj l =>
      let line_number := count_newline (slice content 0 (LineMarker.offset l)) in
      lines' <- (if line_number <? len lines then
                   current <- index lines line_number ;;
                   setitem lines line_number (prefix ++ current)
                 else Ok lines) ;;
      Ok (join_newline lines')
  end.

End DocumentService.

(* ===================================================================== *)
(** * Facts about the Python runtime fragments *)
(* ===================================================================== *)

Section PyFacts.

Context {A : Type}.
Implicit Types l pre post : list A.

Lemma len_nonneg l : 0 <= len l.
Proof. unfold len. lia. Qed.

Lemma len_app l1 l2 : len (l1 ++ l2) = len l1 + len l2.
Proof. unfold len. rewrite length_app. lia. Qed.

Lemma len_cons (x : A) l : len (x :: l) = 1 + len l.
Proof. unfold len. simpl. lia. Qed.

Lemma len_pos l : l <> [] -> 0 < len l.
Proof.
  destruct l; [contradiction|]. intros _.
  rewrite len_cons. pose proof (len_nonneg l). lia.
Qed.

Lemma slice_index_in n i : 0 <= i <= n -> slice_index n i = i.
Proof. unfold slice_index. intros H. destruct (Z.ltb_spec i 0); lia. Qed.

Lemma slice_index_above n i : 0 <= n <= i -> slice_index n i = n.
Proof. unfold slice_index. intros H. destruct (Z.ltb_spec i 0); lia. Qed.

Lemma slice_in_range l a b :
  0 <= a -> a <= b -> b <= len l ->
  slice l a b = take (Z.to_nat (b - a)) (drop (Z.to_nat a) l).
Proof.
  intros Ha Hab Hb. unfold slice.
  rewrite !slice_index_in by lia. reflexivity.
Qed.

Lemma slice_length l a b :
  0 <= a -> a <= b -> b <= len l -> len (slice l a b) = b - a.
Proof.
  intros Ha Hab Hb. rewrite slice_in_range by assumption.
  unfold len in *. rewrite length_take, length_drop. lia.
Qed.

Lemma slice_app_l l extra a b :
  0 <= a -> a <= b -> b <= len l -> slice (l ++ extra) a b = slice l a b.
Proof.
  intros Ha Hab Hb.
  rewrite !slice_in_range by (rewrite ?len_app; pose proof (len_nonneg extra); lia).
  unfold len in Hb.
  rewrite drop_app_le by lia.
  rewrite take_app_le by (rewrite length_drop; lia).
  reflexivity.
Qed.

Lemma slice_appended l extra :
  slice (l ++ extra) (len l) (len l + len extra) = extra.
Proof.
  pose proof (len_nonneg l). pose proof (len_nonneg extra).
  rewrite slice_in_range by (rewrite ?len_app; lia).
  unfold len. rewrite Nat2Z.id.
  rewrite drop_app_length.
  replace (Z.to_nat _) with (length extra) by lia.
  apply firstn_all.
Qed.

Lemma slice_split l a o n :
  0 <= a -> 0 <= o <= n -> a + n <= len l ->
  slice l a (a + o) ++ slice l (a + o) (a + n) = slice l a (a + n).
Proof.
  intros Ha Ho Hn.
  rewrite !slice_in_range by lia.
  replace (Z.to_nat (a + o - a)) with (Z.to_nat o) by lia.
  replace (Z.to_nat (a + n - (a + o))) with (Z.to_nat n - Z.to_nat o)%nat by lia.
  replace (Z.to_nat (a + n - a)) with (Z.to_nat n) by lia.
  replace (Z.to_nat (a + o)) with (Z.to_nat a + Z.to_nat o)%nat by lia.
  rewrite <- drop_drop.
  generalize (drop (Z.to_nat a) l). intros m.
  rewrite <- (take_drop (Z.to_nat o) (take (Z.to_nat n) m)).
  rewrite take_take. rewrite Nat.min_l by lia.
  f_equal. rewrite take_drop_commute. f_equal. f_equal. lia.
Qed.

(** Indexing, assignment and insertion at the boundary of a decomposition. *)

Lemma index_middle pre (x : A) post : index (pre ++ x :: post) (len pre) = Ok x.
Proof.
  unfold index. pose proof (len_nonneg pre). pose proof (len_nonneg post).
  destruct (Z.ltb_spec (len pre) 0); [lia|].
  rewrite len_app, len_cons.
  destruct (Z.leb_spec 0 (len pre)); [|lia].
  destruct (Z.ltb_spec (len pre) (len pre + (1 + len post))); [|lia].
  simpl. unfold len. rewrite Nat2Z.id.
  rewrite list_lookup_middle by reflexivity. reflexivity.
Qed.

Lemma index_end l : index l (len l) = Raise IndexError.
Proof.
  unfold index. pose proof (len_nonneg l).
  destruct (Z.ltb_spec (len l) 0); [lia|].
  destruct (Z.ltb_spec (len l) (len l)); [lia|].
  rewrite andb_false_r. reflexivity.
Qed.

Lemma index_elem_of l i (x : A) : index l i = Ok x -> x ∈ l.
Proof.
  unfold index. destruct (_ && _); [|discriminate].
  destruct (l !! _) eqn:E; [|discriminate].
  intros [= <-]. eapply list_elem_of_lookup_2; eauto.
Qed.

Lemma setitem_middle pre (x y : A) post :
  setitem (pre ++ x :: post) (len pre) y = Ok (pre ++ y :: post).
Proof.
  unfold setitem. pose proof (len_nonneg pre). pose proof (len_nonneg post).
  destruct (Z.ltb_spec (len pre) 0); [lia|].
  rewrite len_app, len_cons.
  destruct (Z.leb_spec 0 (len pre)); [|lia].
  destruct (Z.ltb_spec (len pre) (len pre + (1 + len post))); [|lia].
  simpl. unfold len. rewrite Nat2Z.id.
  rewrite insert_app_r_alt by lia. rewrite Nat.sub_diag. reflexivity.
Qed.

Lemma setitem_Forall (P : A -> Prop) l i x l' :
  setitem l i x = Ok l' -> Forall P l -> P x -> Forall P l'.
Proof.
  unfold setitem. destruct (_ && _); [|discriminate].
  intros [= <-] Hl Hx. apply Forall_insert; assumption.
Qed.

Lemma list_insert_at pre post (x : A) :
  list_insert (pre ++ post) (len pre) x = pre ++ x :: post.
Proof.
  unfold list_insert. pose proof (len_nonneg pre). pose proof (len_nonneg post).
  rewrite slice_index_in by (rewrite len_app; lia).
  unfold len. rewrite Nat2Z.id.
  rewrite take_app_length, drop_app_length. reflexivity.
Qed.

Lemma list_insert_Forall (P : A -> Prop) l i x :
  Forall P l -> P x -> Forall P (list_insert l i x).
Proof.
  intros Hl Hx. unfold list_insert.
  apply Forall_app. split; [apply Forall_take; assumption|].
  constructor; [assumption|apply Forall_drop; assumption].
Qed.

Lemma del_slice_Forall (P : A -> Prop) l a b :
  Forall P l -> Forall P (del_slice l a b).
Proof.
  intros Hl. unfold del_slice. destruct (_ <? _); [|assumption].
  apply Forall_app. split; [apply Forall_take|apply Forall_drop]; assumption.
Qed.

Lemma del_slice_empty l a : del_slice l a a = l.
Proof. unfold del_slice. rewrite Z.ltb_irrefl. reflexivity. Qed.

End PyFacts.

(* ===================================================================== *)
(** * Facts about the piece table *)
(* ===================================================================== *)

Section PieceTableFacts.

Import PieceTable.

Implicit Types t : PieceTable.t.
Implicit Types p : Piece.t.
Implicit Types ps pre post : list Piece.t.

Lemma sum_lengths_app pre post :
  sum_lengths (pre ++ post) = sum_lengths pre + sum_lengths post.
Proof. induction pre as [|p pre IH]; simpl; lia. Qed.

Lemma sum_lengths_positive ps :
  Forall (fun q => 0 < Piece.length q) ps -> 0 <= sum_lengths ps.
Proof. induction 1; simpl; lia. Qed.

(** ** Locating a position *)

Lemma find_loop_Some ps position curr i k off :
  find_loop ps position curr i = Some (k, off) ->
  exists pre p post,
    ps = pre ++ p :: post /\ k = i + len pre /\
    position = curr + sum_lengths pre + off /\ 0 <= off < Piece.length p.
Proof.
  revert curr i. induction ps as [|q ps IH]; intros curr i; simpl; [discriminate|].
  destruct (Z.leb_spec curr position);
    destruct (Z.ltb_spec position (curr + Piece.length q)); simpl.
  1: { intros [= <- <-]. exists [], q, ps. simpl. unfold len. simpl. repeat split; lia. }
  all: intros Hf; apply IH in Hf as (pre & p & post & -> & -> & -> & Hoff);
       exists (q :: pre), p, post; rewrite len_cons; simpl; repeat split; lia.
Qed.

Lemma find_loop_None ps position curr i :
  find_loop ps position curr i = None ->
  position < curr \/ curr + sum_lengths ps <= position.
Proof.
  revert curr i. induction ps as [|q ps IH]; intros curr i; simpl.
  - intros _. lia.
  - destruct (Z.leb_spec curr position);
      destruct (Z.ltb_spec position (curr + Piece.length q)); simpl;
      [discriminate| | |]; intros Hf; apply IH in Hf; lia.
Qed.

Lemma find_loop_at pre p post curr i off :
  Forall (fun q => 0 < Piece.length q) pre -> 0 <= off < Piece.length p ->
  find_loop (pre ++ p :: post) (curr + sum_lengths pre + off) curr i
  = Some (i + len pre, off).
Proof.
  intros Hpre Hoff. revert curr i.
  induction Hpre as [|q pre Hq Hpre IH]; intros curr i; simpl.
  - destruct (Z.leb_spec curr (curr + 0 + off)); [|lia].
    destruct (Z.ltb_spec (curr + 0 + off) (curr + Piece.length p)); [|lia].
    simpl. unfold len. simpl. do 2 f_equal; lia.
  - pose proof (sum_lengths_positive _ Hpre).
    destruct (Z.ltb_spec (curr + (Piece.length q + sum_lengths pre) + off)
                         (curr + Piece.length q)); [lia|].
    rewrite andb_false_r.
    replace (curr + (Piece.length q + sum_lengths pre) + off)
      with (curr + Piece.length q + sum_lengths pre + off) by lia.
    rewrite IH. rewrite len_cons. do 2 f_equal. lia.
Qed.

Lemma find_loop_past ps position curr i :
  Forall (fun q => 0 < Piece.length q) ps -> curr + sum_lengths ps <= position ->
  find_loop ps position curr i = None.
Proof.
  intros Hps. revert curr i.
  induction Hps as [|q ps Hq Hps IH]; intros curr i Hpos; simpl in *; [reflexivity|].
  destruct (Z.ltb_spec position (curr + Piece.length q)).
  - pose proof (sum_lengths_positive _ Hps). lia.
  - rewrite andb_false_r. apply IH. lia.
Qed.

(** ** The text of a sequence of pieces *)

Lemma get_text_text_of t : get_text t = text_of t (pieces t).
Proof. reflexivity. Qed.

Lemma text_of_app t pre post : text_of t (pre ++ post) = text_of t pre ++ text_of t post.
Proof. unfold text_of. rewrite map_app, concat_app. reflexivity. Qed.

Lemma text_of_cons t p ps : text_of t (p :: ps) = piece_text t p ++ text_of t ps.
Proof. reflexivity. Qed.

Lemma piece_text_length t p : piece_ok t p -> len (piece_text t p) = Piece.length p.
Proof.
  intros (Hl & Hs & He). unfold piece_text.
  rewrite slice_length by lia. lia.
Qed.

Lemma text_of_length t ps : Forall (piece_ok t) ps -> len (text_of t ps) = sum_lengths ps.
Proof.
  induction 1 as [|p ps Hp Hps IH]; [reflexivity|].
  rewrite text_of_cons, len_app, piece_text_length, IH by assumption. reflexivity.
Qed.

Lemma sum_lengths_nonneg t ps : Forall (piece_ok t) ps -> 0 <= sum_lengths ps.
Proof. intros H. rewrite <- (text_of_length t) by assumption. apply len_nonneg. Qed.

(** Appending to the add buffer changes neither the standing of a piece
    nor its text. *)
Lemma piece_ok_grow t t' extra p :
  original_buffer t' = original_buffer t ->
  add_buffer t' = add_buffer t ++ extra ->
  piece_ok t p -> piece_ok t' p.
Proof.
  intros Ho Ha (Hl & Hs & He). unfold piece_ok, buffer_of in *.
  destruct (Piece.buffer_type p); rewrite ?Ho, ?Ha, ?len_app;
    pose proof (len_nonneg extra); split_and!; lia.
Qed.

Lemma piece_text_grow t t' extra p :
  original_buffer t' = original_buffer t ->
  add_buffer t' = add_buffer t ++ extra ->
  piece_ok t p -> piece_text t' p = piece_text t p.
Proof.
  intros Ho Ha (Hl & Hs & He). unfold piece_text, buffer_of in *.
  destruct (Piece.buffer_type p); rewrite ?Ho, ?Ha; [reflexivity|].
  apply slice_app_l; lia.
Qed.

Lemma text_of_grow t t' extra ps :
  original_buffer t' = original_buffer t ->
  add_buffer t' = add_buffer t ++ extra ->
  Forall (piece_ok t) ps -> text_of t' ps = text_of t ps.
Proof.
  intros Ho Ha. induction 1 as [|p ps Hp Hps IH]; [reflexivity|].
  rewrite !text_of_cons, IH. f_equal. eapply piece_text_grow; eauto.
Qed.

(** ** Splitting a piece *)

Lemma split_ok t p off first second :
  Piece.split p off = Ok (first, second) -> piece_ok t p ->
  piece_ok t first /\ piece_ok t second /\
  0 < off < Piece.length p /\
  Piece.length first = off /\ Piece.length second = Piece.length p - off /\
  piece_text t first ++ piece_text t second = piece_text t p.
Proof.
  unfold Piece.split.
  destruct (Z.leb_spec off 0); destruct (Z.leb_spec (Piece.length p) off);
    simpl; try discriminate.
  intros [= <- <-] (Hl & Hs & He).
  unfold piece_ok, piece_text, buffer_of in *. simpl.
  split_and!; try lia.
  replace (Piece.start p + off + (Piece.length p - off))
    with (Piece.start p + Piece.length p) by lia.
  apply slice_split; lia.
Qed.

Lemma split_inside p off :
  0 < off < Piece.length p ->
  Piece.split p off =
    Ok (Piece.mk (Piece.buffer_type p) (Piece.start p) off (Piece.line_start p),
        Piece.mk (Piece.buffer_type p) (Piece.start p + off) (Piece.length p - off) false).
Proof.
  intros H. unfold Piece.split.
  destruct (Z.leb_spec off 0); [lia|].
  destruct (Z.leb_spec (Piece.length p) off); [lia|]. reflexivity.
Qed.

Lemma split_at_zero p : Piece.split p 0 = Raise ValueError.
Proof. reflexivity. Qed.

End PieceTableFacts.

Section InsertFacts.

Import PieceTable.

#[local] Arguments index : simpl never.
#[local] Arguments setitem : simpl never.
#[local] Arguments list_insert : simpl never.
#[local] Arguments del_slice : simpl never.
#[local] Arguments slice : simpl never.
#[local] Arguments Piece.split : simpl never.
#[local] Arguments _update_markers : simpl never.
#[local] Arguments len : simpl never.

Implicit Types t : PieceTable.t.
Implicit Types p : Piece.t.
Implicit Types ps pre post : list Piece.t.

(** ** Markers *)

Lemma update_styles_typed ss piece_index delta :
  Forall is_style_obj ss ->
  update_styles ss piece_index delta
  = (Ok tt, map (on_style (moved_style piece_index delta)) ss).
Proof.
  induction 1 as [|[s|d] ss Hs Hss IH]; simpl; [reflexivity| |contradiction].
  rewrite IH. unfold moved_style.
  destruct (piece_index <? StyleRange.piece_index s); [reflexivity|].
  destruct s; reflexivity.
Qed.

Lemma update_lines_typed ls piece_index delta :
  Forall is_line_obj ls ->
  update_lines ls piece_index delta
  = (Ok tt, map (on_line (moved_line piece_index delta)) ls).
Proof.
  induction 1 as [|[l|d] ls Hl Hls IH]; simpl; [reflexivity| |contradiction].
  rewrite IH. unfold moved_line.
  destruct (piece_index <? LineMarker.piece_index l); [reflexivity|].
  destruct l; reflexivity.
Qed.

Lemma update_markers_typed t piece_index delta :
  typed t ->
  _update_markers piece_index delta t
  = (Ok tt, mk (original_buffer t) (add_buffer t) (pieces t)
               (map (on_style (moved_style piece_index delta)) (styles t))
               (map (on_line (moved_line piece_index delta)) (lines t))).
Proof.
  intros [Hs Hl]. unfold _update_markers, bindM.
  rewrite update_styles_typed by assumption. simpl.
  rewrite update_lines_typed by assumption. reflexivity.
Qed.

Lemma on_style_typed f ss : Forall is_style_obj ss -> Forall is_style_obj (map (on_style f) ss).
Proof. induction 1 as [|[s|d] ss Hs Hss IH]; simpl; constructor; auto. Qed.

Lemma on_line_typed f ls : Forall is_line_obj ls -> Forall is_line_obj (map (on_line f) ls).
Proof. induction 1 as [|[l|d] ls Hl Hls IH]; simpl; constructor; auto. Qed.

(** ** The run of [insert] *)

Lemma list_insert_after pre (x y : Piece.t) post i :
  i = len pre + 1 ->
  list_insert (pre ++ x :: post) i y = pre ++ x :: y :: post.
Proof.
  intros ->. replace (pre ++ x :: post) with ((pre ++ [x]) ++ post)
    by (rewrite <- app_assoc; reflexivity).
  replace (len pre + 1) with (len (pre ++ [x])) by (rewrite len_app; reflexivity).
  rewrite list_insert_at. rewrite <- app_assoc. reflexivity.
Qed.

Lemma list_insert_after2 pre (x y z : Piece.t) post i :
  i = len pre + 2 ->
  list_insert (pre ++ x :: y :: post) i z = pre ++ x :: y :: z :: post.
Proof.
  intros ->. replace (pre ++ x :: y :: post) with ((pre ++ [x; y]) ++ post)
    by (rewrite <- app_assoc; reflexivity).
  replace (len pre + 2) with (len (pre ++ [x; y])) by (rewrite len_app; reflexivity).
  rewrite list_insert_at. rewrite <- app_assoc. reflexivity.
Qed.

Lemma insert_at_boundary t pos text piece_index :
  typed t -> text <> [] ->
  _find_piece_at_position t pos = (piece_index, 0) ->
  insert pos text t
  = (Ok tt,
     mk (original_buffer t) (add_buffer t ++ text)
        (list_insert (pieces t) piece_index (new_piece t text))
        (map (on_style (moved_style piece_index (len text))) (styles t))
        (map (on_line (moved_line piece_index (len text))) (lines t))).
Proof.
  intros Ht Hne Hf. destruct text as [|c text]; [contradiction|].
  unfold insert, bindM, get, modify, lift. rewrite Hf. simpl.
  rewrite update_markers_typed by exact Ht. reflexivity.
Qed.

Lemma insert_inside t pos text piece_index offset p first second ps1 :
  typed t -> text <> [] ->
  _find_piece_at_position t pos = (piece_index, offset) -> 0 < offset ->
  index (pieces t) piece_index = Ok p ->
  Piece.split p offset = Ok (first, second) ->
  setitem (pieces t) piece_index first = Ok ps1 ->
  insert pos text t
  = (Ok tt,
     mk (original_buffer t) (add_buffer t ++ text)
        (list_insert (list_insert ps1 (piece_index + 1) (new_piece t text))
                     (piece_index + 2) second)
        (map (on_style (moved_style piece_index (len text))) (styles t))
        (map (on_line (moved_line piece_index (len text))) (lines t))).
Proof.
  intros Ht Hne Hf Hoff Hi Hs Hset. destruct text as [|c text]; [contradiction|].
  unfold insert, bindM, get, modify, lift. rewrite Hf. simpl.
  destruct (Z.ltb_spec 0 offset); [|lia].
  rewrite Hi, Hs. simpl. rewrite Hset.
  rewrite update_markers_typed by exact Ht. reflexivity.
Qed.

Lemma insert_run t pos text :
  typed t -> text <> [] ->
  exists ps',
    insert pos text t
    = (Ok tt,
       mk (original_buffer t) (add_buffer t ++ text) ps'
          (map (on_style (moved_style (fst (_find_piece_at_position t pos)) (len text)))
               (styles t))
          (map (on_line (moved_line (fst (_find_piece_at_position t pos)) (len text)))
               (lines t)))
    /\ insert_shape t pos text ps'.
Proof.
  intros Ht Hne. unfold insert_shape.
  destruct (_find_piece_at_position t pos) as [k off] eqn:Hfind.
  pose proof Hfind as Hfind'. unfold _find_piece_at_position in Hfind'.
  destruct (find_loop (pieces t) pos 0 0) as [[k' off']|] eqn:Hf.
  - injection Hfind' as -> ->.
    apply find_loop_Some in Hf as (pre & p & post & Hps & -> & Hpos & Hoff).
    rewrite Z.add_0_l in *. simpl fst.
    destruct (Z.ltb_spec 0 off) as [Hpos'|Hzero].
    + eexists. split.
      * eapply insert_inside; eauto.
        -- rewrite Hps. apply index_middle.
        -- apply split_inside. lia.
        -- rewrite Hps. apply setitem_middle.
      * right. exists pre, p, post, off. do 2 eexists.
        split_and!; [assumption|lia|reflexivity|apply split_inside; lia|].
        rewrite (list_insert_after pre _ _ post) by reflexivity.
        rewrite list_insert_after2 by reflexivity. reflexivity.
    + assert (off = 0) as -> by lia.
      eexists. split.
      * eapply insert_at_boundary; eauto.
      * left. exists pre, (p :: post).
        split_and!; [assumption| |reflexivity|left; lia].
        rewrite Hps. apply list_insert_at.
  - injection Hfind' as <- <-. simpl fst.
    apply find_loop_None in Hf.
    eexists. split.
    + eapply insert_at_boundary; eauto.
    + left. exists (pieces t), [].
      split_and!; [rewrite app_nil_r; reflexivity| |reflexivity|].
      * rewrite <- (app_nil_r (pieces t)) at 1. apply list_insert_at.
      * right. split; [unfold doc_length; lia|reflexivity].
Qed.

End InsertFacts.

Section InsertCorrect.

Import PieceTable.

Implicit Types t : PieceTable.t.
Implicit Types p : Piece.t.
Implicit Types ps pre post : list Piece.t.

Lemma insert_empty t pos : insert pos [] t = (Ok tt, t).
Proof. reflexivity. Qed.

Lemma new_piece_ok t t' text :
  text <> [] -> add_buffer t' = add_buffer t ++ text -> piece_ok t' (new_piece t text).
Proof.
  intros Hne Ha. unfold piece_ok, new_piece, buffer_of. simpl.
  rewrite Ha, len_app. pose proof (len_nonneg (add_buffer t)).
  pose proof (len_pos text Hne). lia.
Qed.

Lemma new_piece_text t t' text :
  add_buffer t' = add_buffer t ++ text -> piece_text t' (new_piece t text) = text.
Proof.
  intros Ha. unfold piece_text, new_piece, buffer_of. simpl.
  rewrite Ha. apply slice_appended.
Qed.

(** [insert] keeps the invariant, wherever it is asked to insert. *)
Lemma insert_wf t pos text : wf t -> wf (snd (insert pos text t)).
Proof.
  intros [Hps Ht]. destruct (decide (text = [])) as [->|Hne]; [split; assumption|].
  destruct (insert_run t pos text Ht Hne) as (ps' & -> & Hshape). simpl.
  set (t' := mk _ _ _ _ _).
  assert (Hgrow : forall q, piece_ok t q -> piece_ok t' q).
  { intros q. apply (piece_ok_grow t t' text); reflexivity. }
  assert (Hnew : piece_ok t' (new_piece t text)).
  { apply new_piece_ok; [assumption|reflexivity]. }
  split; [|split; simpl; [apply on_style_typed|apply on_line_typed]; apply Ht].
  simpl.
  destruct Hshape as [(pre & post & Hsplit & -> & _ & _)
                     |(pre & p & post & off & first & second & Hsplit & _ & _ & Hs & ->)];
    rewrite Hsplit in Hps.
  - apply Forall_app in Hps as [Hpre Hpost].
    apply Forall_app. split; [|constructor; [assumption|]];
      eapply Forall_impl; eauto.
  - apply Forall_app in Hps as [Hpre Hpost]. inversion Hpost as [|? ? Hp Hpost']; subst.
    destruct (split_ok t _ _ _ _ Hs Hp) as (Hf & Hsnd & _).
    apply Forall_app. split; [eapply Forall_impl; eauto|].
    constructor; [auto|]. constructor; [auto|]. constructor; [auto|].
    eapply Forall_impl; eauto.
Qed.

Lemma insert_ok t pos text : typed t -> fst (insert pos text t) = Ok tt.
Proof.
  intros Ht. destruct (decide (text = [])) as [->|Hne]; [reflexivity|].
  destruct (insert_run t pos text Ht Hne) as (ps' & -> & _). reflexivity.
Qed.

Lemma splice_at (a b text : list ascii) pos :
  pos = len a -> splice (a ++ b) pos text = a ++ text ++ b.
Proof.
  intros ->. unfold splice, len. rewrite Nat2Z.id.
  rewrite take_app_length, drop_app_length. reflexivity.
Qed.

(** At a position inside the document the new text is spliced in there. *)
Lemma insert_text t pos text :
  wf t -> 0 <= pos <= doc_length t ->
  get_text (snd (insert pos text t)) = splice (get_text t) pos text.
Proof.
  intros [Hps Ht] Hpos. destruct (decide (text = [])) as [->|Hne].
  { simpl. unfold splice. simpl. rewrite take_drop. reflexivity. }
  destruct (insert_run t pos text Ht Hne) as (ps' & -> & Hshape). simpl.
  set (t' := mk _ _ _ _ _).
  rewrite !get_text_text_of. change (pieces t') with ps'.
  assert (Hsame : forall qs, Forall (piece_ok t) qs -> text_of t' qs = text_of t qs).
  { intros qs. apply (text_of_grow t t' text); reflexivity. }
  assert (Hnew : piece_text t' (new_piece t text) = text).
  { apply new_piece_text. reflexivity. }
  destruct Hshape as [(pre & post & Hsplit & -> & _ & Hwhere)
                     |(pre & p & post & off & first & second & Hsplit & Hat & _ & Hs & ->)];
    rewrite Hsplit in *.
  - apply Forall_app in Hps as [Hpre Hpost].
    rewrite !text_of_app, text_of_cons, Hnew, !Hsame by assumption.
    symmetry. apply splice_at.
    rewrite text_of_length by assumption.
    destruct Hwhere as [->|[Hout ->]]; [reflexivity|].
    unfold doc_length in *. rewrite Hsplit, app_nil_r in *. lia.
  - apply Forall_app in Hps as [Hpre Hpost]. inversion Hpost as [|? ? Hp Hpost']; subst.
    destruct (split_ok t _ _ _ _ Hs Hp) as (Hf & Hsnd & Hoff & Hlf & Hls & Htxt).
    rewrite !text_of_app, !text_of_cons, Hnew, !Hsame by assumption.
    rewrite (piece_text_grow t t' text first), (piece_text_grow t t' text second)
      by (reflexivity || assumption).
    rewrite <- Htxt.
    replace (text_of t pre ++ (piece_text t first ++ piece_text t second) ++ text_of t post)
      with ((text_of t pre ++ piece_text t first) ++ piece_text t second ++ text_of t post)
      by (rewrite <- !app_assoc; reflexivity).
    rewrite splice_at.
    + rewrite <- !app_assoc. reflexivity.
    + rewrite len_app, text_of_length, piece_text_length by assumption. lia.
Qed.

(** Outside the document the text goes to the end. *)
Lemma insert_text_outside t pos text :
  wf t -> pos < 0 \/ doc_length t < pos ->
  get_text (snd (insert pos text t)) = get_text t ++ text.
Proof.
  intros [Hps Ht] Hpos. destruct (decide (text = [])) as [->|Hne].
  { simpl. rewrite app_nil_r. reflexivity. }
  destruct (insert_run t pos text Ht Hne) as (ps' & -> & Hshape). simpl.
  set (t' := mk _ _ _ _ _).
  rewrite !get_text_text_of. change (pieces t') with ps'.
  assert (Hnew : piece_text t' (new_piece t text) = text).
  { apply new_piece_text. reflexivity. }
  destruct Hshape as [(pre & post & Hsplit & -> & _ & Hwhere)
                     |(pre & p & post & off & first & second & Hsplit & Hat & _ & Hs & ->)].
  - destruct Hwhere as [->|[_ ->]].
    + exfalso. rewrite Hsplit in Hps. apply Forall_app in Hps as [Hpre Hpost].
      pose proof (sum_lengths_nonneg t _ Hpre). pose proof (sum_lengths_nonneg t _ Hpost).
      unfold doc_length in Hpos. rewrite Hsplit, sum_lengths_app in Hpos. lia.
    + rewrite app_nil_r in Hsplit. rewrite Hsplit in *.
      rewrite text_of_app, text_of_cons, Hnew. simpl. rewrite app_nil_r.
      f_equal. apply (text_of_grow t t' text); [reflexivity|reflexivity|assumption].
  - exfalso. rewrite Hsplit in Hps. apply Forall_app in Hps as [Hpre Hpost].
    inversion Hpost as [|? ? Hp Hpost']; subst.
    destruct (split_ok t _ _ _ _ Hs Hp) as (_ & _ & Hoff & _).
    pose proof (sum_lengths_nonneg t _ Hpre). pose proof (sum_lengths_nonneg t _ Hpost').
    unfold doc_length in Hpos. rewrite Hsplit, sum_lengths_app in Hpos. simpl in Hpos. lia.
Qed.

End InsertCorrect.

Section DeleteFacts.

Import PieceTable.

#[local] Arguments index : simpl never.
#[local] Arguments setitem : simpl never.
#[local] Arguments del_slice : simpl never.
#[local] Arguments Piece.split : simpl never.
#[local] Arguments _update_markers : simpl never.

Implicit Types t s : PieceTable.t.
Implicit Types p : Piece.t.
Implicit Types ps pre post : list Piece.t.

Lemma piece_ok_same_buffers t s p :
  original_buffer s = original_buffer t -> add_buffer s = add_buffer t ->
  piece_ok t p -> piece_ok s p.
Proof.
  intros Ho Ha. unfold piece_ok, buffer_of. rewrite Ho, Ha. tauto.
Qed.

Lemma keeps_refl t : Forall (piece_ok t) (pieces t) -> keeps t t.
Proof. intros H. repeat split; assumption. Qed.

Lemma keeps_set_pieces t s ps :
  keeps t s -> Forall (piece_ok t) ps -> keeps t (set_pieces ps s).
Proof. intros (Ho & Ha & Hs & Hl & _) Hps. repeat split; assumption. Qed.

Lemma keeps_wf t s : typed t -> keeps t s -> wf s.
Proof.
  intros [Hts Htl] (Ho & Ha & Hs & Hl & Hps). split.
  - eapply Forall_impl; [exact Hps|]. intros p. apply piece_ok_same_buffers; assumption.
  - split; [rewrite Hs|rewrite Hl]; assumption.
Qed.

Lemma split_halves_ok t p off halves :
  Piece.split p off = Ok halves -> piece_ok t p ->
  piece_ok t (fst halves) /\ piece_ok t (snd halves).
Proof.
  destruct halves as [first second]. intros Hs Hp.
  destruct (split_ok t _ _ _ _ Hs Hp) as (H1 & H2 & _). split; assumption.
Qed.

Lemma handle_start_piece_keeps t s i o :
  keeps t s -> keeps t (snd (handle_start_piece i o s)).
Proof.
  intros Hk. unfold handle_start_piece.
  destruct (0 <? o); [|exact Hk].
  unfold bindM, get, lift, modify, ret. simpl.
  destruct (index (pieces s) i) as [p|] eqn:Hi; simpl; [|exact Hk].
  destruct (Piece.split p o) as [halves|] eqn:Hs; simpl; [|exact Hk].
  destruct (setitem (pieces s) i (fst halves)) as [ps|] eqn:Hset; simpl; [|exact Hk].
  apply keeps_set_pieces; [exact Hk|].
  destruct Hk as (_ & _ & _ & _ & Hps).
  eapply setitem_Forall; [exact Hset|exact Hps|].
  eapply split_halves_ok; [exact Hs|].
  eapply Forall_forall; [exact Hps|]. eapply index_elem_of; eauto.
Qed.

Lemma handle_end_piece_keeps t s i o :
  keeps t s -> keeps t (snd (handle_end_piece i o s)).
Proof.
  intros Hk. unfold handle_end_piece.
  unfold bindM, get, lift, modify, ret. simpl.
  destruct (index (pieces s) i) as [p|] eqn:Hi; simpl; [|exact Hk].
  destruct (o <? Piece.length p); [|exact Hk].
  destruct (Piece.split p o) as [halves|] eqn:Hs; simpl; [|exact Hk].
  destruct (setitem (pieces s) i (snd halves)) as [ps|] eqn:Hset; simpl; [|exact Hk].
  apply keeps_set_pieces; [exact Hk|].
  destruct Hk as (_ & _ & _ & _ & Hps).
  eapply setitem_Forall; [exact Hset|exact Hps|].
  eapply split_halves_ok; [exact Hs|].
  eapply Forall_forall; [exact Hps|]. eapply index_elem_of; eauto.
Qed.

Lemma update_markers_wf t piece_index delta :
  wf t -> wf (snd (_update_markers piece_index delta t)).
Proof.
  intros [Hps [Hs Hl]]. rewrite update_markers_typed by (split; assumption). simpl.
  split; [exact Hps|]. split; simpl; [apply on_style_typed|apply on_line_typed]; assumption.
Qed.

(** [delete] keeps the invariant, whatever its arguments and whether it
    returns or raises. *)
Lemma delete_wf t pos n : wf t -> wf (snd (delete pos n t)).
Proof.
  intros Hwf. pose proof Hwf as [Hps Ht]. unfold delete.
  destruct (n <=? 0); [exact Hwf|].
  unfold bindM at 1. unfold get at 1.
  destruct (_find_piece_at_position t pos) as [si so].
  destruct (_find_piece_at_position t (pos + n)) as [ei eo].
  unfold bindM at 1.
  pose proof (handle_start_piece_keeps t t si so (keeps_refl t Hps)) as H1.
  destruct (handle_start_piece si so t) as [[si'|e] s1]; simpl in H1;
    [|eapply keeps_wf; eauto].
  unfold bindM at 1.
  pose proof (handle_end_piece_keeps t s1 ei eo H1) as H2.
  destruct (handle_end_piece ei eo s1) as [[ei'|e] s2]; simpl in H2;
    [|eapply keeps_wf; eauto].
  unfold bindM, modify. apply update_markers_wf.
  eapply keeps_wf; [exact Ht|].
  apply keeps_set_pieces; [exact H2|].
  apply del_slice_Forall. apply H2.
Qed.

End DeleteFacts.

Section DeleteAtBoundary.

Import PieceTable.

#[local] Arguments index : simpl never.
#[local] Arguments setitem : simpl never.
#[local] Arguments del_slice : simpl never.
#[local] Arguments Piece.split : simpl never.
#[local] Arguments _update_markers : simpl never.

Implicit Types t s : PieceTable.t.
Implicit Types p : Piece.t.
Implicit Types ps pre post : list Piece.t.

Lemma index_raises_IndexError {A} (l : list A) i e : index l i = Raise e -> e = IndexError.
Proof.
  unfold index. destruct (_ && _); [destruct (l !! _)|]; congruence.
Qed.

Lemma keeps_positive t s : keeps t s -> Forall (fun q => 0 < Piece.length q) (pieces s).
Proof.
  intros (_ & _ & _ & _ & Hps). eapply Forall_impl; [exact Hps|]. intros q Hq. apply Hq.
Qed.

Lemma delete_unfold t pos n si so ei eo :
  0 < n ->
  _find_piece_at_position t pos = (si, so) ->
  _find_piece_at_position t (pos + n) = (ei, eo) ->
  delete pos n t
  = (si' <~ handle_start_piece si so ;;
     ei' <~ handle_end_piece ei eo ;;
     modify (fun s => set_pieces (del_slice (pieces s) si' ei') s) ;;;
     _update_markers si' (- n)) t.
Proof.
  intros Hn Hs He. unfold delete.
  destruct (Z.leb_spec n 0); [lia|].
  unfold bindM at 1. unfold get at 1. rewrite Hs, He. reflexivity.
Qed.

(** With the end of the range at offset 0 of its piece, the end piece is
    either missing or asked to split at 0. *)
Lemma handle_end_piece_at_boundary s ei :
  Forall (fun q => 0 < Piece.length q) (pieces s) ->
  exists e, handle_end_piece ei 0 s = (Raise e, s) /\ (e = IndexError \/ e = ValueError).
Proof.
  intros Hpos. unfold handle_end_piece, bindM, get, lift. simpl.
  destruct (index (pieces s) ei) as [p|e] eqn:Hi; simpl.
  - assert (Hp : 0 < Piece.length p).
    { eapply Forall_forall in Hpos; [exact Hpos|]. eapply index_elem_of; eauto. }
    destruct (Z.ltb_spec 0 (Piece.length p)); [|lia].
    simpl. eauto.
  - apply index_raises_IndexError in Hi as ->. eauto.
Qed.

(** Whenever the end of the range falls on a piece boundary or outside the
    document, [delete] raises. *)
Lemma delete_end_at_boundary_raises t pos n :
  wf t -> 0 < n -> snd (_find_piece_at_position t (pos + n)) = 0 ->
  raises (delete pos n t).
Proof.
  intros [Hps Ht] Hn Hend.
  destruct (_find_piece_at_position t pos) as [si so] eqn:Hs.
  destruct (_find_piece_at_position t (pos + n)) as [ei eo] eqn:He.
  simpl in Hend. subst eo.
  rewrite (delete_unfold t pos n si so ei 0 Hn Hs He).
  unfold bindM at 1.
  pose proof (handle_start_piece_keeps t t si so (keeps_refl t Hps)) as Hk.
  destruct (handle_start_piece si so t) as [[si'|e] s1]; [|exists e; reflexivity].
  simpl in Hk. unfold bindM at 1.
  destruct (handle_end_piece_at_boundary s1 ei (keeps_positive _ _ Hk)) as (e & -> & _).
  exists e. reflexivity.
Qed.

Lemma find_outside t pos :
  Forall (fun q => 0 < Piece.length q) (pieces t) -> doc_length t <= pos ->
  _find_piece_at_position t pos = (len (pieces t), 0).
Proof.
  intros Hps Hpos. unfold _find_piece_at_position.
  rewrite find_loop_past; [reflexivity|assumption|unfold doc_length in Hpos; lia].
Qed.

Lemma wf_positive t : wf t -> Forall (fun q => 0 < Piece.length q) (pieces t).
Proof. intros [Hps _]. eapply Forall_impl; [exact Hps|]. intros q Hq. apply Hq. Qed.

(** In particular a range reaching exactly to the end of the document
    cannot be deleted. *)
Lemma delete_reaching_end_raises t pos n :
  wf t -> 0 < n -> pos + n = doc_length t -> raises (delete pos n t).
Proof.
  intros Hwf Hn Hend. apply delete_end_at_boundary_raises; [assumption..|].
  rewrite find_outside; [reflexivity|apply wf_positive; assumption|lia].
Qed.

(** After [insert(pos, text)] the new piece starts at [pos]. *)
Lemma insert_places_new_piece t pos text ps' :
  wf t -> 0 <= pos <= doc_length t -> insert_shape t pos text ps' ->
  exists pre post,
    ps' = pre ++ new_piece t text :: post /\ sum_lengths pre = pos /\
    Forall (fun q => 0 < Piece.length q) pre /\
    Forall (fun q => 0 < Piece.length q) post.
Proof.
  intros Hwf Hpos Hshape. pose proof (wf_positive t Hwf) as Hps. destruct Hwf as [Hok _].
  destruct Hshape as [(pre & post & Hsplit & -> & _ & Hwhere)
                     |(pre & p & post & off & first & second & Hsplit & Hat & _ & Hs & ->)];
    rewrite Hsplit in Hps, Hok; apply Forall_app in Hps as [Hpre Hpost];
    apply Forall_app in Hok as [Hokpre Hokpost].
  - exists pre, post. split_and!; try assumption; try reflexivity.
    destruct Hwhere as [->|[Hout ->]]; [reflexivity|].
    unfold doc_length in *. rewrite Hsplit, app_nil_r in *. lia.
  - inversion Hokpost as [|? ? Hp Hokpost']; subst.
    inversion Hpost as [|? ? _ Hpost']; subst.
    destruct (split_ok t _ _ _ _ Hs Hp) as (Hf & Hsnd & Hoff & Hlf & Hls & _).
    exists (pre ++ [first]), (second :: post). split_and!.
    + rewrite <- app_assoc. reflexivity.
    + rewrite sum_lengths_app. simpl. lia.
    + apply Forall_app. split; [assumption|]. constructor; [lia|constructor].
    + constructor; [lia|assumption].
Qed.

(** Deleting what was just inserted always raises, and the text inserted
    stays in the table. *)
Lemma delete_after_insert_raises t pos text :
  wf t -> 0 <= pos <= doc_length t -> text <> [] ->
  exists e,
    delete pos (len text) (snd (insert pos text t)) = (Raise e, snd (insert pos text t)) /\
    (e = IndexError \/ e = ValueError).
Proof.
  intros Hwf Hpos Hne.
  destruct (insert_run t pos text (proj2 Hwf) Hne) as (ps' & Hrun & Hshape).
  destruct (insert_places_new_piece t pos text ps' Hwf Hpos Hshape)
    as (pre & post & -> & Hsum & Hpre & Hpost).
  rewrite Hrun. simpl. set (t' := mk _ _ _ _ _).
  pose proof (len_pos text Hne) as Hn.
  assert (Hall : Forall (fun q => 0 < Piece.length q) (pieces t')).
  { simpl. apply Forall_app. split; [assumption|]. constructor; assumption. }
  assert (Hstart : _find_piece_at_position t' pos = (len pre, 0)).
  { unfold _find_piece_at_position. simpl.
    replace pos with (0 + sum_lengths pre + 0) by lia.
    rewrite find_loop_at by (simpl; try assumption; lia). f_equal. }
  assert (Hend : exists ei, _find_piece_at_position t' (pos + len text) = (ei, 0)).
  { unfold _find_piece_at_position. simpl. destruct post as [|q post].
    - rewrite find_loop_past; [eauto|exact Hall|].
      rewrite sum_lengths_app. simpl. lia.
    - replace (pre ++ new_piece t text :: q :: post)
        with ((pre ++ [new_piece t text]) ++ q :: post)
        by (rewrite <- app_assoc; reflexivity).
      replace (pos + len text) with (0 + sum_lengths (pre ++ [new_piece t text]) + 0)
        by (rewrite sum_lengths_app; simpl; lia).
      inversion Hpost; subst.
      rewrite find_loop_at; [eauto| |lia].
      apply Forall_app. split; [assumption|]. constructor; [exact Hn|constructor]. }
  destruct Hend as [ei Hend].
  rewrite (delete_unfold t' pos (len text) _ _ _ _ Hn Hstart Hend).
  unfold bindM at 1. unfold handle_start_piece. simpl.
  unfold bindM at 1.
  destruct (handle_end_piece_at_boundary t' ei Hall) as (e & -> & He).
  exists e. split; [reflexivity|exact He].
Qed.

End DeleteAtBoundary.

(* ===================================================================== *)
(** * The properties *)
(* ===================================================================== *)

Section Invariant.

Import PieceTable.

Lemma init_wf : wf init.
Proof. split; [constructor|split; constructor]. Qed.

Lemma reachable_wf t : reachable t -> wf t.
Proof.
  induction 1 as [|t pos text _ IH _|t pos n _ IH _ _ _].
  - exact init_wf.
  - apply insert_wf. exact IH.
  - apply delete_wf. exact IH.
Qed.

(** C5. In every piece table reached from the empty table by inserts and
    deletes at valid positions, the lengths of the stored pieces add up to
    the length of the text returned by [get_text], no stored piece has
    length 0, and the slice of every piece lies within the current length
    of the buffer it references. *)
Theorem reachable_invariant (t : PieceTable.t) :
  reachable t ->
  doc_length t = len (get_text t) /\
  Forall (fun p => Piece.length p <> 0) (pieces t) /\
  Forall (fun p => 0 <= Piece.start p /\
                   Piece.start p + Piece.length p <= len (buffer_of t p)) (pieces t).
Proof.
  intros Hr. apply reachable_wf in Hr as [Hps _]. split_and!.
  - rewrite get_text_text_of, text_of_length by assumption. reflexivity.
  - eapply Forall_impl; [exact Hps|]. intros p (Hl & _). lia.
  - eapply Forall_impl; [exact Hps|]. intros p (_ & Hs & He). split; assumption.
Qed.

Example edited_table_text :
  delete 0 2 (snd (insert 3 (str "XY") (table_of "abcdef"))) = (Ok tt, edited_table) /\
  get_text edited_table = str "cXYdef".
Proof. vm_compute. split; reflexivity. Qed.

Lemma reachable_invariant_witness :
  reachable edited_table /\
  (doc_length edited_table = len (get_text edited_table) /\
   Forall (fun p => Piece.length p <> 0) (pieces edited_table) /\
   Forall (fun p => 0 <= Piece.start p /\
                    Piece.start p + Piece.length p <= len (buffer_of edited_table p))
          (pieces edited_table)).
Proof.
  assert (Hr : reachable edited_table).
  { unfold edited_table, table_of.
    apply reach_delete; [apply reach_insert; [apply reach_insert; [apply reach_init|]|]| | |];
      vm_compute; intuition discriminate. }
  split; [exact Hr|]. apply (reachable_invariant edited_table). exact Hr.
Defined.

End Invariant.

Section InsertClaims.

Import PieceTable.

(** C4, as the specification states it, fails: [insert] at position 5 of
    the empty table does not fail although 5 exceeds the length 0. *)
Lemma insert_out_of_range_does_not_fail :
  ~ (raises (insert 5 (str "x") init) <-> (5 < 0 \/ doc_length init < 5)).
Proof.
  intros [_ H]. destruct H as [e He].
  - right. reflexivity.
  - discriminate He.
Qed.

(** C4, amended. [insert(pos, text)] never fails, whatever [pos]: the code
    has no position check. For every [pos] in [0, length] the resulting
    text is the old text with [text] spliced in at offset [pos]. *)
Theorem insert_total_and_splices (t : PieceTable.t) (pos : Z) (text : list ascii) :
  wf t ->
  fst (insert pos text t) = Ok tt /\
  (0 <= pos <= doc_length t ->
   get_text (snd (insert pos text t)) = splice (get_text t) pos text).
Proof.
  intros Hwf. split.
  - apply insert_ok. apply Hwf.
  - intros Hpos. apply insert_text; assumption.
Qed.

Lemma insert_total_and_splices_witness :
  wf (table_of "abc") /\
  fst (insert 1 (str "X") (table_of "abc")) = Ok tt /\
  (0 <= 1 <= doc_length (table_of "abc") ->
   get_text (snd (insert 1 (str "X") (table_of "abc")))
   = splice (get_text (table_of "abc")) 1 (str "X")).
Proof.
  assert (Hwf : wf (table_of "abc")).
  { split; [|split; constructor].
    constructor; [|constructor]. vm_compute. intuition discriminate. }
  split; [exact Hwf|].
  apply (insert_total_and_splices (table_of "abc") 1 (str "X")). exact Hwf.
Defined.

(** C7, as the specification states it, fails: inserting at offset 1 of the
    only piece of "abc" leaves the bold range anchored at offset 1 of that
    piece where it was. *)
Lemma insert_ignores_same_piece_rule :
  ~ anchors_follow_same_piece_rule styled_abc 1 (str "X").
Proof.
  unfold anchors_follow_same_piece_rule. vm_compute. intros [H _]. discriminate H.
Qed.

Lemma update_positions_lookup_style fm piece_index off delta k s :
  Formatting.styles fm !! k = Some s ->
  Formatting.styles (Formatting.update_positions piece_index off delta fm) !! k
  = Some (Formatting.shift_style piece_index off delta s).
Proof. intros H. simpl. rewrite list_lookup_fmap, H. reflexivity. Qed.

Lemma update_positions_lookup_line fm piece_index off delta k l :
  Formatting.lines fm !! k = Some l ->
  Formatting.lines (Formatting.update_positions piece_index off delta fm) !! k
  = Some (Formatting.shift_line piece_index off delta l).
Proof. intros H. simpl. rewrite list_lookup_fmap, H. reflexivity. Qed.

(** C7, amended. After [insert(pos, text)] with the insertion point located
    in piece [i], every style and line anchor whose piece index is greater
    than [i] has its offset shifted by the length of [text], and every
    anchor with a piece index of at most [i] is unchanged, whatever its
    offset. The rule "same piece and offset at least [o]" is the one of
    [FormattingManager.update_positions], which [insert] does not call. *)
Theorem insert_moves_anchors_of_later_pieces
  (t : PieceTable.t) (pos : Z) (text : list ascii) :
  typed t -> text <> [] ->
  let i := fst (_find_piece_at_position t pos) in
  let t' := snd (insert pos text t) in
  (forall k s, styles t !! k = Some (StyleObj s) ->
     exists s', styles t' !! k = Some (StyleObj s') /\
       StyleRange.piece_index s' = StyleRange.piece_index s /\
       StyleRange.length s' = StyleRange.length s /\
       StyleRange.attributes s' = StyleRange.attributes s /\
       (i < StyleRange.piece_index s ->
        StyleRange.start_offset s' = StyleRange.start_offset s + len text) /\
       (StyleRange.piece_index s <= i ->
        StyleRange.start_offset s' = StyleRange.start_offset s)) /\
  (forall k l, lines t !! k = Some (LineObj l) ->
     exists l', lines t' !! k = Some (LineObj l') /\
       LineMarker.piece_index l' = LineMarker.piece_index l /\
       LineMarker.type l' = LineMarker.type l /\
       LineMarker.properties l' = LineMarker.properties l /\
       (i < LineMarker.piece_index l ->
        LineMarker.offset l' = LineMarker.offset l + len text) /\
       (LineMarker.piece_index l <= i ->
        LineMarker.offset l' = LineMarker.offset l)) /\
  length (styles t') = length (styles t) /\ length (lines t') = length (lines t) /\
  (forall fm piece_index off delta,
     (forall k s,
        Formatting.styles fm !! k = Some s ->
        exists s',
          Formatting.styles (Formatting.update_positions piece_index off delta fm) !! k
          = Some s' /\
          (Formatting.s_pieceIndex s = piece_index -> off <= Formatting.s_offsetInPiece s ->
           Formatting.s_offsetInPiece s' = Formatting.s_offsetInPiece s + delta) /\
          (Formatting.s_pieceIndex s <> piece_index \/ Formatting.s_offsetInPiece s < off ->
           s' = s)) /\
     (forall k l,
        Formatting.lines fm !! k = Some l ->
        exists l',
          Formatting.lines (Formatting.update_positions piece_index off delta fm) !! k
          = Some l' /\
          (Formatting.l_pieceIndex l = piece_index -> off <= Formatting.l_offsetInPiece l ->
           Formatting.l_offsetInPiece l' = Formatting.l_offsetInPiece l + delta) /\
          (Formatting.l_pieceIndex l <> piece_index \/ Formatting.l_offsetInPiece l < off ->
           l' = l))).
Proof.
  intros Ht Hne i t'.
  destruct (insert_run t pos text Ht Hne) as (ps' & Hrun & _).
  subst t'. rewrite Hrun. simpl. fold i. split_and!.
  - intros k s Hk. eexists. rewrite list_lookup_fmap, Hk. simpl.
    split; [reflexivity|]. unfold moved_style. simpl. split_and!; try reflexivity.
    + intros Hi. destruct (Z.ltb_spec i (StyleRange.piece_index s)); [reflexivity|lia].
    + intros Hi. destruct (Z.ltb_spec i (StyleRange.piece_index s)); [lia|reflexivity].
  - intros k l Hk. eexists. rewrite list_lookup_fmap, Hk. simpl.
    split; [reflexivity|]. unfold moved_line. simpl. split_and!; try reflexivity.
    + intros Hi. destruct (Z.ltb_spec i (LineMarker.piece_index l)); [reflexivity|lia].
    + intros Hi. destruct (Z.ltb_spec i (LineMarker.piece_index l)); [lia|reflexivity].
  - apply length_map.
  - apply length_map.
  - intros fm piece_index off delta. split.
    + intros k s Hk. eexists.
      split; [apply update_positions_lookup_style; exact Hk|].
      unfold Formatting.shift_style. split.
      * intros Hpi Hoff.
        destruct (Z.eqb_spec (Formatting.s_pieceIndex s) piece_index); [|contradiction].
        destruct (Z.leb_spec off (Formatting.s_offsetInPiece s)); [reflexivity|lia].
      * intros [Hpi|Hoff].
        -- destruct (Z.eqb_spec (Formatting.s_pieceIndex s) piece_index); [contradiction|].
           reflexivity.
        -- destruct (Z.leb_spec off (Formatting.s_offsetInPiece s)); [lia|].
           rewrite andb_false_r. reflexivity.
    + intros k l Hk. eexists.
      split; [apply update_positions_lookup_line; exact Hk|].
      unfold Formatting.shift_line. split.
      * intros Hpi Hoff.
        destruct (Z.eqb_spec (Formatting.l_pieceIndex l) piece_index); [|contradiction].
        destruct (Z.leb_spec off (Formatting.l_offsetInPiece l)); [reflexivity|lia].
      * intros [Hpi|Hoff].
        -- destruct (Z.eqb_spec (Formatting.l_pieceIndex l) piece_index); [contradiction|].
           reflexivity.
        -- destruct (Z.leb_spec off (Formatting.l_offsetInPiece l)); [lia|].
           rewrite andb_false_r. reflexivity.
Qed.

Lemma insert_moves_anchors_of_later_pieces_witness :
  typed styled_abc /\ str "X" <> [] /\
  fst (_find_piece_at_position styled_abc 1) = 0 /\
  exists s', styles (snd (insert 1 (str "X") styled_abc)) !! 0%nat = Some (StyleObj s') /\
             StyleRange.piece_index s' = 0 /\ StyleRange.start_offset s' = 1.
Proof.
  assert (Ht : typed styled_abc) by (split; (constructor; [exact I|constructor])).
  assert (Hne : str "X" <> []) by discriminate.
  split; [exact Ht|]. split; [exact Hne|]. split; [reflexivity|].
  destruct (insert_moves_anchors_of_later_pieces styled_abc 1 (str "X") Ht Hne)
    as (Hstyles & _).
  destruct (Hstyles 0%nat _ eq_refl) as (s' & Hs' & Hpi & _ & _ & _ & Hsame).
  exists s'. split; [exact Hs'|]. split; [exact Hpi|].
  apply Hsame. vm_compute. discriminate.
Defined.

End InsertClaims.

Section DeleteClaims.

Import PieceTable.

(** C3 fails on the code. From "abc" held in one piece:
    [delete(0, 3)], which reaches exactly to the end of the document, raises
    and removes nothing; [delete(1, 2)] raises as well; and [delete(1, 1)]
    returns but removes "bc" instead of "b". *)
Theorem delete_to_end_raises :
  doc_length (table_of "abc") = 3 /\
  get_text (table_of "abc") = str "abc" /\
  (let r := delete 0 3 (table_of "abc") in
   fst r = Raise IndexError /\ get_text (snd r) = str "abc") /\
  (let r := delete 1 2 (table_of "abc") in fst r = Raise IndexError) /\
  (let r := delete 1 1 (table_of "abc") in
   fst r = Ok tt /\ get_text (snd r) = str "a" /\
   cut (str "abc") 1 1 = str "ac").
Proof. vm_compute. repeat split. Qed.

(** C8 fails on the code. On the empty table, [insert(0, "a")] followed by
    [delete(0, 1)] raises in [delete], and the text stays "a". *)
Theorem insert_then_delete_raises :
  get_text init = [] /\
  (let r := (insert 0 (str "a") ;;; delete 0 1) init in
   fst r = Raise IndexError /\ get_text (snd r) = str "a").
Proof. vm_compute. repeat split. Qed.

End DeleteClaims.

Section DiffClaims.

Import PieceTable DiffCalculator.

(** C1 fails on the code. The diff from "abc" to "xbc" is a delete at 0
    followed by an insert at 0; [apply_diff] moves the insert to position
    -1, where [insert] appends, and the result is "bcx". *)
Theorem diff_law_fails :
  get_text (table_of "abc") = str "abc" /\
  get_text (table_of "xbc") = str "xbc" /\
  create_diff (table_of "abc") (table_of "xbc")
  = Ok [delete_op 0; insert_op 0 (str "x")] /\
  (let r := apply_diff [delete_op 0; insert_op 0 (str "x")] (table_of "abc") in
   fst r = Ok tt /\ get_text (snd r) = str "bcx").
Proof. vm_compute. repeat split. Qed.

End DiffClaims.

Section MergeClaims.

Import PieceTable DiffCalculator MergeService.

(** C2 fails on the code. In the scenario of the two concurrent inserts
    [apply_change] raises as soon as it asks the document for its piece
    table, and the document stays "aXbcdef" at its version. The merge
    itself would fail next: the server diff computed by [create_diff] is a
    list, which [_changes_overlap] indexes with ['position']. On the two
    operations as dictionaries the merge does rebase the client insert to
    position 5, but its result repeats the server insert, and applied to
    the server's state it gives "aXXbcYdef". *)
Theorem concurrent_insert_scenario_raises :
  get_text (from_json json_abcdef) = str "abcdef" /\
  to_json (snd (insert 1 (str "X") (from_json json_abcdef))) = Ok json_aXbcdef /\
  get_text (from_json json_aXbcdef) = str "aXbcdef" /\
  create_diff (from_json json_abcdef) (from_json json_aXbcdef) = Ok [server_insert_X] /\
  apply_change change_Y (doc_2_1, db_2_1) = (Raise NameError, (doc_2_1, db_2_1)) /\
  _merge_diffs (PList [server_insert_X]) (PDict (_change_to_diff change_Y))
  = Raise TypeError /\
  _merge_diffs (PDict server_insert_X) (PDict (_change_to_diff change_Y))
  = Ok (Compound [PDict server_insert_X;
                  PDict (<["position" := VInt 5]> (_change_to_diff change_Y))]) /\
  (let r := apply_each [PDict server_insert_X;
                        PDict (<["position" := VInt 5]> (_change_to_diff change_Y))]
                       (from_json json_aXbcdef) in
   fst r = Ok tt /\ get_text (snd r) = str "aXXbcYdef") /\
  (let r := apply_each [PDict server_insert_X;
                        PDict (<["position" := VInt 5]> (_change_to_diff change_Y))]
                       (from_json json_abcdef) in
   fst r = Ok tt /\ get_text (snd r) = str "aXbcdYef").
Proof. vm_compute. repeat split. Qed.

Lemma is_type_refl name : is_type (VStr (str name)) name = true.
Proof. unfold is_type. apply bool_decide_eq_true. reflexivity. Qed.

(** C6. When a client style operation overlaps a concurrent server style
    change, the merge gives a single style operation: its attribute map is
    the union of the two maps with the client's value on every shared key,
    and its position and length are those of the server operation. *)
Theorem overlapping_styles_merge
  (server client : pydict) (p l : pyval) (attrs_s attrs_c : gmap string jval) :
  server !! "type" = Some (VStr (str "style")) ->
  client !! "type" = Some (VStr (str "style")) ->
  server !! "position" = Some p ->
  server !! "length" = Some l ->
  dict_get server "attributes" (VDict ∅) = VDict attrs_s ->
  dict_get client "attributes" (VDict ∅) = VDict attrs_c ->
  exists merged_attributes : gmap string jval,
    let result :=
      Single (PDict {[ "type" := VStr (str "style"); "position" := p;
                       "length" := l; "attributes" := VDict merged_attributes ]}) in
    _resolve_conflict (PDict server) (PDict client) = Ok result /\
    (_changes_overlap (PDict server) (PDict client) = Ok true ->
     _merge_diffs (PDict server) (PDict client) = Ok result) /\
    dom merged_attributes = dom attrs_s ∪ dom attrs_c /\
    (forall k v, attrs_c !! k = Some v -> merged_attributes !! k = Some v) /\
    (forall k, attrs_c !! k = None -> merged_attributes !! k = attrs_s !! k).
Proof.
  intros Hts Htc Hp Hl Has Hac.
  assert (Hres : _resolve_conflict (PDict server) (PDict client)
                 = Ok (Single (PDict {[ "type" := VStr (str "style"); "position" := p;
                                        "length" := l;
                                        "attributes" := VDict (attrs_c ∪ attrs_s) ]}))).
  { unfold _resolve_conflict, obj_getitem, getitem. rewrite Hts, Htc. cbn [Py.bind].
    rewrite !is_type_refl.
    unfold _merge_style_changes, obj_get, obj_getitem, getitem. cbn [Py.bind].
    rewrite Has, Hac, Hp, Hl. reflexivity. }
  exists (attrs_c ∪ attrs_s). cbv zeta. split_and!.
  - exact Hres.
  - intros Hov. unfold _merge_diffs. rewrite Hov. cbn [Py.bind negb]. exact Hres.
  - rewrite dom_union_L. apply union_comm_L.
  - intros k v Hk. apply lookup_union_Some_l. exact Hk.
  - intros k Hk. apply lookup_union_r. exact Hk.
Qed.

Lemma overlapping_styles_merge_witness :
  exists m : gmap string jval,
    _changes_overlap (PDict server_underline) (PDict client_bold_italic) = Ok true /\
    _merge_diffs (PDict server_underline) (PDict client_bold_italic)
    = Ok (Single (PDict (style_op 2 3 m))) /\
    m !! "bold" = Some (JBool false) /\
    m !! "italic" = Some (JBool true) /\
    m !! "underline" = Some (JBool true).
Proof.
  destruct (overlapping_styles_merge server_underline client_bold_italic
              (VInt 2) (VInt 3) {[ "underline" := JBool true ]}
              {[ "bold" := JBool false; "italic" := JBool true ]}
              eq_refl eq_refl eq_refl eq_refl eq_refl eq_refl)
    as (m & _ & Hm & _ & Hclient & Hserver).
  assert (Hov : _changes_overlap (PDict server_underline) (PDict client_bold_italic)
                = Ok true) by (vm_compute; reflexivity).
  exists m. split; [exact Hov|]. split; [exact (Hm Hov)|]. split_and!.
  - apply Hclient. reflexivity.
  - apply Hclient. reflexivity.
  - rewrite Hserver; reflexivity.
Defined.

(** The scenario of the specification, evaluated. *)
Lemma style_scenario_merged :
  _merge_diffs (PDict server_underline) (PDict client_bold_italic)
  = Ok (Single (PDict (style_op 2 3 {[ "bold" := JBool false; "italic" := JBool true;
                                       "underline" := JBool true ]}))).
Proof. vm_compute. reflexivity. Qed.

(** C10. If [apply_change] is called with a change whose [source_version]
    has no stored [DocumentVersion], it returns [False] and leaves the
    document as it was: its content, its [current_version] and the stored
    versions (and changes) are those from before the call. *)
Theorem unknown_base_version_changes_nothing
  (change : Change.t) (document : Document.t) (db : Db.t) :
  Forall (fun dv => PrimFloat.eqb (DocumentVersion.version dv)
                                  (Change.source_version change) = false)
         (Db.versions db) ->
  apply_change change (document, db) = (Ok false, (document, db)).
Proof.
  intros Hnone. unfold apply_change, bindM, get. simpl.
  assert (Hfind : Db.first_version (Change.source_version change) db = None).
  { unfold Db.first_version. induction Hnone as [|dv dvs Hdv _ IH]; [reflexivity|].
    simpl. rewrite Hdv. exact IH. }
  rewrite Hfind. reflexivity.
Qed.

Lemma unknown_base_version_changes_nothing_witness :
  Forall (fun dv => PrimFloat.eqb (DocumentVersion.version dv) 1.5%float = false)
         (Db.versions db_2_1) /\
  apply_change (Change.mk 1.5%float "insert" 0 (Some (str "Z")) None) (doc_2_1, db_2_1)
  = (Ok false, (doc_2_1, db_2_1)).
Proof.
  assert (H : Forall (fun dv => PrimFloat.eqb (DocumentVersion.version dv) 1.5%float = false)
                     (Db.versions db_2_1)).
  { repeat constructor. }
  split; [exact H|].
  apply (unknown_base_version_changes_nothing
           (Change.mk 1.5%float "insert" 0 (Some (str "Z")) None) doc_2_1 db_2_1).
  exact H.
Defined.

End MergeClaims.

Section ConsumerClaims.

Import DocumentConsumer.

(** C9. For every incoming operation message whose [sourceVersion] differs
    from the document's [current_version], the handler sends
    [sync_required] with the current version on the socket of the sender
    and does nothing else: nothing is handed to the group, no [Change] is
    recorded, and the document with its content, version and stored
    versions is unchanged. *)
Theorem stale_operation_gets_sync_required
  (user_id : string) (data : data_t) (w : world) :
  PrimFloat.eqb (sourceVersion data) (Document.current_version (Db.document (db w)))
  = false ->
  handle_operation user_id data w
  = (Ok tt,
     mk (db w)
        (sent w ++ [sync_required (Document.current_version (Db.document (db w)))])
        (group_sent w)).
Proof.
  intros Hne. unfold handle_operation, bindM, get. simpl. rewrite Hne. reflexivity.
Qed.

Lemma stale_operation_gets_sync_required_witness :
  PrimFloat.eqb 2.0%float (Document.current_version (Db.document db_2_1)) = false /\
  handle_operation "B" (mkData 2.0%float (mkOperation "insert" 4 (Some (str "Y")) None))
                   (mk db_2_1 [] [])
  = (Ok tt, mk db_2_1 [sync_required (bump 2.0%float)] []).
Proof.
  split; [reflexivity|].
  apply (stale_operation_gets_sync_required "B"
           (mkData 2.0%float (mkOperation "insert" 4 (Some (str "Y")) None))
           (mk db_2_1 [] [])).
  reflexivity.
Defined.

End ConsumerClaims.

(* ===================================================================== *)
(** * Further properties of the piece table *)
(* ===================================================================== *)

(** Concrete tables satisfy the invariant by evaluation. *)
Ltac wf_by_evaluation :=
  split;
  [ repeat (constructor; [vm_compute; intuition discriminate|]); constructor
  | split; repeat (constructor; [exact I|]); constructor ].

Section Locating.

Import PieceTable.

Implicit Types t : PieceTable.t.
Implicit Types p : Piece.t.
Implicit Types ps pre post : list Piece.t.

Lemma index_in_range {A} (l : list A) i :
  0 <= i < len l -> index l i = match l !! Z.to_nat i with
                                | Some x => Ok x
                                | None => Raise IndexError
                                end.
Proof.
  intros Hi. unfold index.
  destruct (Z.ltb_spec i 0); [lia|].
  destruct (Z.leb_spec 0 i); [|lia].
  destruct (Z.ltb_spec i (len l)); [|lia]. reflexivity.
Qed.

Lemma index_app_r {A} (l1 l2 : list A) k :
  0 <= k < len l2 -> index (l1 ++ l2) (len l1 + k) = index l2 k.
Proof.
  intros Hk. pose proof (len_nonneg l1).
  rewrite !index_in_range by (rewrite ?len_app; lia).
  replace (Z.to_nat (len l1 + k)) with (length l1 + Z.to_nat k)%nat
    by (unfold len; lia).
  rewrite lookup_app_r by lia.
  replace (length l1 + Z.to_nat k - length l1)%nat with (Z.to_nat k) by lia.
  reflexivity.
Qed.

Lemma index_app_l {A} (l1 l2 : list A) k :
  0 <= k < len l1 -> index (l1 ++ l2) k = index l1 k.
Proof.
  intros Hk. pose proof (len_nonneg l2).
  rewrite !index_in_range by (rewrite ?len_app; lia).
  rewrite lookup_app_l by (unfold len in Hk; lia). reflexivity.
Qed.

Lemma index_slice {A} (l : list A) a b k :
  0 <= a -> a <= b -> b <= len l -> 0 <= k < b - a ->
  index (slice l a b) k = index l (a + k).
Proof.
  intros Ha Hab Hb Hk.
  rewrite !index_in_range by (rewrite ?slice_length; lia).
  rewrite slice_in_range by lia.
  rewrite lookup_take_lt by lia. rewrite lookup_drop.
  replace (Z.to_nat a + Z.to_nat k)%nat with (Z.to_nat (a + k)) by lia.
  reflexivity.
Qed.

Lemma len_take_app {A} (pre post : list A) :
  take (Z.to_nat (len pre)) (pre ++ post) = pre.
Proof. unfold len. rewrite Nat2Z.id. apply take_app_length. Qed.

(** X1. For a position inside the document [_find_piece_at_position]
    returns the piece that holds it and the offset inside that piece: the
    lengths of the pieces before it and the offset add up to the position,
    and the character of the text at the position is the character of the
    piece's buffer at [start + offset]. *)
Theorem find_piece_locates_position (t : PieceTable.t) (pos : Z) :
  wf t -> 0 <= pos < doc_length t ->
  exists i off p,
    _find_piece_at_position t pos = (i, off) /\
    index (pieces t) i = Ok p /\
    0 <= off < Piece.length p /\
    pos = sum_lengths (take (Z.to_nat i) (pieces t)) + off /\
    index (get_text t) pos = index (buffer_of t p) (Piece.start p + off).
Proof.
  intros [Hps _] Hpos. unfold _find_piece_at_position.
  destruct (find_loop (pieces t) pos 0 0) as [[k off]|] eqn:Hf.
  - apply find_loop_Some in Hf as (pre & p & post & Hsplit & -> & Hat & Hoff).
    rewrite Z.add_0_l in *. exists (len pre), off, p.
    rewrite get_text_text_of, Hsplit in *.
    apply Forall_app in Hps as [Hpre Hpost]. inversion Hpost as [|? ? Hp Hpost']; subst.
    split_and!; try reflexivity; try lia.
    + apply index_middle.
    + rewrite len_take_app. reflexivity.
    + rewrite text_of_app, text_of_cons.
      rewrite <- (text_of_length t pre Hpre).
      pose proof (piece_text_length t p Hp) as Hlen.
      rewrite index_app_r by (rewrite len_app; pose proof (len_nonneg (text_of t post)); lia).
      rewrite index_app_l by lia.
      destruct Hp as (Hl & Hs & He).
      unfold piece_text. apply index_slice; lia.
  - apply find_loop_None in Hf. unfold doc_length in Hpos. lia.
Qed.

Lemma find_piece_locates_position_witness :
  wf (table_of "abc") /\ 0 <= 1 < doc_length (table_of "abc") /\
  exists i off p,
    _find_piece_at_position (table_of "abc") 1 = (i, off) /\
    index (pieces (table_of "abc")) i = Ok p /\
    index (get_text (table_of "abc")) 1
    = index (buffer_of (table_of "abc") p) (Piece.start p + off).
Proof.
  assert (Hwf : wf (table_of "abc")) by wf_by_evaluation.
  assert (Hpos : 0 <= 1 < doc_length (table_of "abc")) by (vm_compute; intuition discriminate).
  split; [exact Hwf|]. split; [exact Hpos|].
  destruct (find_piece_locates_position (table_of "abc") 1 Hwf Hpos)
    as (i & off & p & Hf & Hi & _ & _ & Hc).
  exists i, off, p. split_and!; assumption.
Defined.

(** X2. For a negative position and for a position at or after the end of
    the document [_find_piece_at_position] returns the number of pieces
    and offset 0. *)
Theorem find_piece_outside_document (t : PieceTable.t) (pos : Z) :
  wf t -> pos < 0 \/ doc_length t <= pos ->
  _find_piece_at_position t pos = (len (pieces t), 0).
Proof.
  intros Hwf Hpos. unfold _find_piece_at_position.
  destruct (find_loop (pieces t) pos 0 0) as [[k off]|] eqn:Hf; [|reflexivity].
  exfalso. apply find_loop_Some in Hf as (pre & p & post & Hsplit & _ & Hat & Hoff).
  destruct Hwf as [Hps _]. rewrite Hsplit in Hps.
  apply Forall_app in Hps as [Hpre Hpost]. inversion Hpost as [|? ? Hp Hpost']; subst.
  pose proof (sum_lengths_nonneg t _ Hpre). pose proof (sum_lengths_nonneg t _ Hpost').
  unfold doc_length in Hpos. rewrite Hsplit, sum_lengths_app in Hpos. simpl in Hpos. lia.
Qed.

Lemma find_piece_outside_document_witness :
  wf (table_of "abc") /\ (-1 < 0 \/ doc_length (table_of "abc") <= -1) /\
  _find_piece_at_position (table_of "abc") (-1) = (1, 0) /\
  _find_piece_at_position (table_of "abc") 3 = (1, 0).
Proof.
  assert (Hwf : wf (table_of "abc")) by wf_by_evaluation.
  split; [exact Hwf|]. split; [left; lia|]. split.
  - apply (find_piece_outside_document (table_of "abc") (-1) Hwf). left. lia.
  - apply (find_piece_outside_document (table_of "abc") 3 Hwf). right.
    vm_compute. discriminate.
Defined.

End Locating.

Section DeleteRuns.

Import PieceTable.

#[local] Arguments index : simpl never.
#[local] Arguments setitem : simpl never.
#[local] Arguments del_slice : simpl never.
#[local] Arguments Piece.split : simpl never.
#[local] Arguments _update_markers : simpl never.

Implicit Types t s : PieceTable.t.
Implicit Types p : Piece.t.
Implicit Types ps pre post mid : list Piece.t.

Lemma del_slice_middle {A} (a r b : list A) :
  del_slice (a ++ r ++ b) (len a) (len a + len r) = a ++ b.
Proof.
  unfold del_slice. pose proof (len_nonneg a). pose proof (len_nonneg r).
  pose proof (len_nonneg b).
  rewrite !slice_index_in by (rewrite !len_app; lia).
  destruct (Z.ltb_spec (len a) (len a + len r)) as [Hlt|Hge].
  - rewrite len_take_app.
    replace (Z.to_nat (len a + len r)) with (length (a ++ r)) by (rewrite length_app; unfold len; lia).
    rewrite app_assoc, drop_app_length. reflexivity.
  - assert (r = []) as -> by (destruct r; [reflexivity|rewrite len_cons in Hge; pose proof (len_nonneg r); lia]).
    reflexivity.
Qed.

Lemma handle_start_piece_at_boundary s i : handle_start_piece i 0 s = (Ok i, s).
Proof. reflexivity. Qed.

Lemma handle_start_piece_inside s pre p post so :
  pieces s = pre ++ p :: post -> 0 < so < Piece.length p ->
  handle_start_piece (len pre) so s
  = (Ok (len pre + 1),
     set_pieces (pre ++ Piece.mk (Piece.buffer_type p) (Piece.start p) so (Piece.line_start p)
                     :: post) s).
Proof.
  intros Hps Hso. unfold handle_start_piece.
  destruct (Z.ltb_spec 0 so); [|lia].
  unfold bindM, get, lift, modify, ret.
  rewrite Hps, index_middle, split_inside by lia. cbn [fst snd].
  rewrite setitem_middle. reflexivity.
Qed.

Lemma handle_end_piece_inside s pre p post eo :
  pieces s = pre ++ p :: post -> 0 < eo < Piece.length p ->
  handle_end_piece (len pre) eo s
  = (Ok (len pre),
     set_pieces (pre ++ Piece.mk (Piece.buffer_type p) (Piece.start p + eo)
                                 (Piece.length p - eo) false :: post) s).
Proof.
  intros Hps Heo. unfold handle_end_piece.
  unfold bindM, get, lift, modify, ret.
  rewrite Hps, index_middle.
  destruct (Z.ltb_spec eo (Piece.length p)); [|lia].
  rewrite split_inside by lia. cbn [fst snd].
  rewrite setitem_middle. reflexivity.
Qed.

Lemma handle_end_piece_past s pre p post eo :
  pieces s = pre ++ p :: post -> Piece.length p <= eo ->
  handle_end_piece (len pre) eo s = (Ok (len pre + 1), s).
Proof.
  intros Hps Heo. unfold handle_end_piece.
  unfold bindM, get, lift, modify, ret.
  rewrite Hps, index_middle.
  destruct (Z.ltb_spec eo (Piece.length p)); [lia|]. reflexivity.
Qed.

(** Two decompositions of one list, the first one cutting earlier. *)
Lemma decompositions_nest {A} (l pre1 post1 pre2 post2 : list A) x1 x2 :
  l = pre1 ++ x1 :: post1 -> l = pre2 ++ x2 :: post2 ->
  (length pre1 < length pre2)%nat ->
  exists m : list A, pre2 = pre1 ++ x1 :: m /\ post1 = m ++ x2 :: post2.
Proof.
  revert l pre2. induction pre1 as [|a pre1 IH]; intros l pre2 H1 H2 Hlt.
  - destruct pre2 as [|b pre2]; [simpl in Hlt; lia|].
    subst l. simpl in H2. injection H2 as -> ->. exists pre2. split; reflexivity.
  - destruct pre2 as [|b pre2]; [simpl in Hlt; lia|].
    subst l. simpl in H2. injection H2 as -> H2.
    destruct (IH _ pre2 eq_refl H2) as (m & -> & ->); [simpl in Hlt; lia|].
    exists m. split; reflexivity.
Qed.

Lemma decompositions_agree {A} (l pre1 post1 pre2 post2 : list A) x1 x2 :
  l = pre1 ++ x1 :: post1 -> l = pre2 ++ x2 :: post2 ->
  length pre1 = length pre2 ->
  pre1 = pre2 /\ x1 = x2 /\ post1 = post2.
Proof.
  intros H1 H2 Hlen. subst l.
  apply app_inj_1 in H2 as [-> H2]; [|assumption].
  injection H2 as -> ->. auto.
Qed.

Lemma find_at t pre p post off :
  pieces t = pre ++ p :: post ->
  Forall (fun q => 0 < Piece.length q) (pieces t) -> 0 <= off < Piece.length p ->
  _find_piece_at_position t (sum_lengths pre + off) = (len pre, off).
Proof.
  intros Hps Hpos Hoff. unfold _find_piece_at_position. rewrite Hps in *.
  apply Forall_app in Hpos as [Hpre _].
  replace (sum_lengths pre + off) with (0 + sum_lengths pre + off) by lia.
  rewrite find_loop_at by assumption. rewrite Z.add_0_l. reflexivity.
Qed.

(** The run of [delete] when the range starts on a piece boundary and ends
    inside a piece: the pieces [gone] in between disappear and the end
    piece keeps its tail. *)
Lemma delete_run_from_boundary t pre gone p post eo :
  typed t -> pieces t = pre ++ gone ++ p :: post ->
  Forall (fun q => 0 < Piece.length q) (pieces t) -> 0 < eo < Piece.length p ->
  delete (sum_lengths pre) (sum_lengths gone + eo) t
  = (Ok tt,
     mk (original_buffer t) (add_buffer t)
        (pre ++ Piece.mk (Piece.buffer_type p) (Piece.start p + eo)
                         (Piece.length p - eo) false :: post)
        (map (on_style (moved_style (len pre) (- (sum_lengths gone + eo)))) (styles t))
        (map (on_line (moved_line (len pre) (- (sum_lengths gone + eo)))) (lines t))).
Proof.
  intros Ht Hps Hpos Heo.
  assert (Hgone : 0 <= sum_lengths gone).
  { apply sum_lengths_positive. rewrite Hps in Hpos.
    apply Forall_app in Hpos as [_ Hpos]. apply Forall_app in Hpos as [Hpos _]. exact Hpos. }
  assert (Hstart : _find_piece_at_position t (sum_lengths pre) = (len pre, 0)).
  { replace (sum_lengths pre) with (sum_lengths pre + 0) at 1 by lia.
    destruct gone as [|g gone].
    - apply (find_at t pre p post); [exact Hps|exact Hpos|lia].
    - apply (find_at t pre g (gone ++ p :: post)); [exact Hps|exact Hpos|].
      rewrite Hps in Hpos. apply Forall_app in Hpos as [_ Hpos].
      inversion Hpos; subst. lia. }
  assert (Hend : _find_piece_at_position t (sum_lengths pre + (sum_lengths gone + eo))
                 = (len (pre ++ gone), eo)).
  { replace (sum_lengths pre + (sum_lengths gone + eo))
      with (sum_lengths (pre ++ gone) + eo) by (rewrite sum_lengths_app; lia).
    apply (find_at t (pre ++ gone) p post); [|exact Hpos|lia].
    rewrite Hps, app_assoc. reflexivity. }
  assert (Hn : 0 < sum_lengths gone + eo) by lia.
  rewrite (delete_unfold t _ _ _ _ _ _ Hn Hstart Hend).
  unfold bindM at 1. rewrite handle_start_piece_at_boundary.
  unfold bindM at 1.
  rewrite (handle_end_piece_inside t (pre ++ gone) p post eo)
    by (rewrite ?Hps, ?app_assoc; auto).
  unfold bindM at 1. unfold modify at 1. cbn [pieces set_pieces].
  rewrite len_app, <- app_assoc, del_slice_middle.
  unfold bindM. rewrite update_markers_typed by exact Ht. reflexivity.
Qed.

(** The same when the range starts inside a piece and ends inside a later
    one: the start piece keeps its head, the end piece its tail. *)
Lemma delete_run_from_inside t pre p1 gone p2 post so eo :
  typed t -> pieces t = pre ++ p1 :: gone ++ p2 :: post ->
  Forall (fun q => 0 < Piece.length q) (pieces t) ->
  0 < so < Piece.length p1 -> 0 < eo < Piece.length p2 ->
  delete (sum_lengths pre + so) (Piece.length p1 - so + sum_lengths gone + eo) t
  = (Ok tt,
     mk (original_buffer t) (add_buffer t)
        (pre ++ Piece.mk (Piece.buffer_type p1) (Piece.start p1) so (Piece.line_start p1)
             :: Piece.mk (Piece.buffer_type p2) (Piece.start p2 + eo)
                         (Piece.length p2 - eo) false :: post)
        (map (on_style (moved_style (len pre + 1)
                          (- (Piece.length p1 - so + sum_lengths gone + eo)))) (styles t))
        (map (on_line (moved_line (len pre + 1)
                         (- (Piece.length p1 - so + sum_lengths gone + eo)))) (lines t))).
Proof.
  intros Ht Hps Hpos Hso Heo.
  assert (Hgone : 0 <= sum_lengths gone).
  { apply sum_lengths_positive. rewrite Hps in Hpos.
    apply Forall_app in Hpos as [_ Hpos]. inversion Hpos as [|? ? _ Hpos']; subst.
    apply Forall_app in Hpos' as [Hpos' _]. exact Hpos'. }
  assert (Hstart : _find_piece_at_position t (sum_lengths pre + so) = (len pre, so)).
  { apply (find_at t pre p1 (gone ++ p2 :: post)); [exact Hps|exact Hpos|lia]. }
  assert (Hend : _find_piece_at_position t
                   (sum_lengths pre + so + (Piece.length p1 - so + sum_lengths gone + eo))
                 = (len (pre ++ p1 :: gone), eo)).
  { replace (sum_lengths pre + so + (Piece.length p1 - so + sum_lengths gone + eo))
      with (sum_lengths (pre ++ p1 :: gone) + eo)
      by (rewrite sum_lengths_app; simpl; lia).
    apply (find_at t (pre ++ p1 :: gone) p2 post); [|exact Hpos|lia].
    rewrite Hps, <- app_assoc. reflexivity. }
  assert (Hn : 0 < Piece.length p1 - so + sum_lengths gone + eo) by lia.
  rewrite (delete_unfold t _ _ _ _ _ _ Hn Hstart Hend).
  unfold bindM at 1.
  rewrite (handle_start_piece_inside t pre p1 (gone ++ p2 :: post) so Hps Hso).
  unfold bindM at 1.
  set (f1 := Piece.mk _ _ so _).
  replace (len (pre ++ p1 :: gone)) with (len (pre ++ f1 :: gone))
    by (rewrite !len_app, !len_cons; reflexivity).
  rewrite (handle_end_piece_inside _ (pre ++ f1 :: gone) p2 post eo)
    by (simpl; rewrite <- ?app_assoc; auto).
  unfold bindM at 1. unfold modify at 1. cbn [pieces set_pieces].
  replace ((pre ++ f1 :: gone) ++ _ :: post)
    with ((pre ++ [f1]) ++ gone ++
          Piece.mk (Piece.buffer_type p2) (Piece.start p2 + eo) (Piece.length p2 - eo) false
          :: post)
    by (rewrite <- !app_assoc; reflexivity).
  replace (len pre + 1) with (len (pre ++ [f1])) by (rewrite len_app; reflexivity).
  replace (len (pre ++ f1 :: gone)) with (len (pre ++ [f1]) + len gone)
    by (rewrite !len_app, !len_cons; unfold len; simpl; lia).
  rewrite del_slice_middle.
  unfold bindM. rewrite update_markers_typed by exact Ht.
  rewrite <- app_assoc. reflexivity.
Qed.

(** And when the range lies inside one piece without starting at its
    beginning: the piece is cut at the start of the range and its tail
    after the range is lost with it. *)
Lemma delete_run_one_piece t pre p post so eo :
  typed t -> pieces t = pre ++ p :: post ->
  Forall (fun q => 0 < Piece.length q) (pieces t) ->
  0 < so -> so < eo -> eo < Piece.length p ->
  delete (sum_lengths pre + so) (eo - so) t
  = (Ok tt,
     mk (original_buffer t) (add_buffer t)
        (pre ++ Piece.mk (Piece.buffer_type p) (Piece.start p) so (Piece.line_start p)
             :: post)
        (map (on_style (moved_style (len pre + 1) (- (eo - so)))) (styles t))
        (map (on_line (moved_line (len pre + 1) (- (eo - so)))) (lines t))).
Proof.
  intros Ht Hps Hpos Hso Hlt Heo.
  assert (Hstart : _find_piece_at_position t (sum_lengths pre + so) = (len pre, so)).
  { apply (find_at t pre p post); [exact Hps|exact Hpos|lia]. }
  assert (Hend : _find_piece_at_position t (sum_lengths pre + so + (eo - so))
                 = (len pre, eo)).
  { replace (sum_lengths pre + so + (eo - so)) with (sum_lengths pre + eo) by lia.
    apply (find_at t pre p post); [exact Hps|exact Hpos|lia]. }
  assert (Hn : 0 < eo - so) by lia.
  rewrite (delete_unfold t _ _ _ _ _ _ Hn Hstart Hend).
  unfold bindM at 1.
  rewrite (handle_start_piece_inside t pre p post so Hps) by lia.
  unfold bindM at 1.
  rewrite (handle_end_piece_past _ pre (Piece.mk (Piece.buffer_type p) (Piece.start p) so
                                          (Piece.line_start p)) post eo)
    by (simpl; auto; lia).
  unfold bindM at 1. unfold modify at 1. cbn [pieces set_pieces].
  rewrite del_slice_empty.
  unfold bindM. rewrite update_markers_typed by exact Ht. reflexivity.
Qed.

End DeleteRuns.

Section DeleteCorrect.

Import PieceTable.

Implicit Types t s : PieceTable.t.
Implicit Types p : Piece.t.
Implicit Types ps pre post mid : list Piece.t.

Lemma text_of_same_buffers t t' ps :
  original_buffer t' = original_buffer t -> add_buffer t' = add_buffer t ->
  text_of t' ps = text_of t ps.
Proof.
  intros Ho Ha. unfold text_of. f_equal. apply map_ext. intros p.
  unfold piece_text, buffer_of. rewrite Ho, Ha. reflexivity.
Qed.

Lemma cut_middle (a r b : list ascii) pos n :
  pos = len a -> n = len r -> cut (a ++ r ++ b) pos n = a ++ b.
Proof.
  intros -> ->. unfold cut. rewrite len_take_app.
  replace (Z.to_nat (len a + len r)) with (length (a ++ r))
    by (rewrite length_app; unfold len; lia).
  rewrite app_assoc, drop_app_length. reflexivity.
Qed.

Lemma piece_text_halves t p o :
  piece_ok t p -> 0 < o < Piece.length p ->
  piece_text t (Piece.mk (Piece.buffer_type p) (Piece.start p) o (Piece.line_start p)) ++
  piece_text t (Piece.mk (Piece.buffer_type p) (Piece.start p + o) (Piece.length p - o) false)
  = piece_text t p /\
  len (piece_text t (Piece.mk (Piece.buffer_type p) (Piece.start p) o (Piece.line_start p)))
  = o /\
  len (piece_text t (Piece.mk (Piece.buffer_type p) (Piece.start p + o)
                              (Piece.length p - o) false))
  = Piece.length p - o.
Proof.
  intros Hp Ho.
  destruct (split_ok t p o _ _ (split_inside p o Ho) Hp) as (Hf & Hs & _ & _ & _ & Htxt).
  split; [exact Htxt|].
  split; [rewrite (piece_text_length t _ Hf)|rewrite (piece_text_length t _ Hs)]; reflexivity.
Qed.

(** The three shapes a range with its end inside a piece can have. *)
Lemma range_shapes t pos n si so ei eo :
  wf t -> 0 <= pos -> 0 < n ->
  _find_piece_at_position t pos = (si, so) ->
  _find_piece_at_position t (pos + n) = (ei, eo) -> 0 < eo ->
  exists pre p1 gone p2 post,
    0 <= so < Piece.length p1 /\ eo < Piece.length p2 /\
    si = len pre /\ pos = sum_lengths pre + so /\
    ((si = ei /\ p1 = p2 /\ gone = [] /\ pieces t = pre ++ p2 :: post /\ n = eo - so) \/
     (si <> ei /\ pieces t = pre ++ p1 :: gone ++ p2 :: post /\
      n = Piece.length p1 - so + sum_lengths gone + eo)).
Proof.
  intros Hwf Hpos Hn Hstart Hend Heo.
  pose proof (wf_positive t Hwf) as Hall.
  unfold _find_piece_at_position in Hstart, Hend.
  destruct (find_loop (pieces t) (pos + n) 0 0) as [[ei' eo']|] eqn:Hf2;
    [|injection Hend as _ <-; lia].
  injection Hend as -> ->.
  apply find_loop_Some in Hf2 as (pre2 & p2 & post2 & Hps2 & -> & Hat2 & Hoff2).
  assert (Hpre2 : 0 <= sum_lengths pre2 /\ 0 <= sum_lengths post2).
  { rewrite Hps2 in Hall. apply Forall_app in Hall as [H1 H2].
    inversion H2; subst. split; apply sum_lengths_positive; assumption. }
  destruct (find_loop (pieces t) pos 0 0) as [[si' so']|] eqn:Hf1.
  2: { apply find_loop_None in Hf1. rewrite Hps2, sum_lengths_app in Hf1.
       simpl in Hf1. lia. }
  injection Hstart as -> ->.
  apply find_loop_Some in Hf1 as (pre1 & p1 & post1 & Hps1 & -> & Hat1 & Hoff1).
  rewrite !Z.add_0_l in *.
  destruct (Nat.lt_trichotomy (length pre1) (length pre2)) as [Hlt|[Heq|Hgt]].
  - destruct (decompositions_nest _ _ _ _ _ _ _ Hps1 Hps2 Hlt) as (gone & -> & ->).
    exists pre1, p1, gone, p2, post2. split_and!; try lia; try reflexivity.
    right. split_and!.
    + rewrite len_app, len_cons. pose proof (len_nonneg gone). lia.
    + exact Hps1.
    + rewrite sum_lengths_app in Hat2. simpl in Hat2. lia.
  - destruct (decompositions_agree _ _ _ _ _ _ _ Hps1 Hps2 Heq) as (-> & -> & ->).
    exists pre2, p2, [], p2, post2. split_and!; try lia; try reflexivity.
    left. split_and!; try reflexivity; try assumption. lia.
  - exfalso.
    destruct (decompositions_nest _ _ _ _ _ _ _ Hps2 Hps1 Hgt) as (gone & -> & ->).
    rewrite sum_lengths_app in Hat1. simpl in Hat1.
    assert (0 <= sum_lengths gone).
    { apply sum_lengths_positive. rewrite Hps1 in Hall.
      apply Forall_app in Hall as [H1 _]. apply Forall_app in H1 as [_ H1].
      inversion H1; subst. assumption. }
    lia.
Qed.

(** X3. When the range starts on a piece boundary, or starts and ends in
    different pieces, and ends strictly inside a piece, [delete] returns
    and removes exactly the [n] characters from [pos] on. *)
Theorem delete_removes_range (t : PieceTable.t) (pos n si so ei eo : Z) :
  wf t -> 0 <= pos -> 0 < n ->
  _find_piece_at_position t pos = (si, so) ->
  _find_piece_at_position t (pos + n) = (ei, eo) ->
  0 < eo -> so = 0 \/ si <> ei ->
  fst (delete pos n t) = Ok tt /\
  get_text (snd (delete pos n t)) = cut (get_text t) pos n.
Proof.
  intros Hwf Hpos Hn Hstart Hend Heo Hshape.
  pose proof (wf_positive t Hwf) as Hall. pose proof Hwf as [Hok Ht].
  destruct (range_shapes t pos n si so ei eo Hwf Hpos Hn Hstart Hend Heo)
    as (pre & p1 & gone & p2 & post & Hso & Heo' & -> & -> &
        [(Hsame & -> & -> & Hps & ->)|(Hne & Hps & ->)]).
  - (* one piece, from its beginning *)
    assert (so = 0) as -> by (destruct Hshape; [assumption|contradiction]).
    replace (sum_lengths pre + 0) with (sum_lengths pre) by lia.
    replace (eo - 0) with (sum_lengths [] + eo) by (simpl; lia).
    rewrite (delete_run_from_boundary t pre [] p2 post eo Ht Hps Hall) by lia.
    split; [reflexivity|]. cbn [snd]. rewrite !get_text_text_of. cbn [pieces].
    set (t' := mk _ _ _ _ _). rewrite (text_of_same_buffers t t') by reflexivity.
    rewrite Hps in *. apply Forall_app in Hok as [Hpre Hpost].
    inversion Hpost as [|? ? Hp2 Hpost']; subst.
    destruct (piece_text_halves t p2 eo Hp2) as (Htxt & Hl1 & Hl2); [lia|].
    rewrite !text_of_app, !text_of_cons, <- Htxt, <- app_assoc.
    symmetry. apply cut_middle; [rewrite text_of_length by assumption; reflexivity|].
    simpl. rewrite Hl1. reflexivity.
  - destruct (decide (so = 0)) as [->|Hso0].
    + (* from a boundary into a later piece *)
      replace (sum_lengths pre + 0) with (sum_lengths pre) by lia.
      replace (Piece.length p1 - 0 + sum_lengths gone + eo)
        with (sum_lengths (p1 :: gone) + eo) by (simpl; lia).
      rewrite (delete_run_from_boundary t pre (p1 :: gone) p2 post eo Ht Hps Hall) by lia.
      split; [reflexivity|]. cbn [snd]. rewrite !get_text_text_of. cbn [pieces].
      set (t' := mk _ _ _ _ _). rewrite (text_of_same_buffers t t') by reflexivity.
      rewrite Hps in *. apply Forall_app in Hok as [Hpre Hpost].
      inversion Hpost as [|? ? Hp1 Hpost']; subst.
      apply Forall_app in Hpost' as [Hgone Hpost'].
      inversion Hpost' as [|? ? Hp2 Hpost'']; subst.
      destruct (piece_text_halves t p2 eo Hp2) as (Htxt & Hl1 & Hl2); [lia|].
      rewrite !text_of_app, !text_of_cons, !text_of_app, !text_of_cons, <- Htxt.
      replace (text_of t pre ++ piece_text t p1 ++ text_of t gone ++
               (piece_text t (Piece.mk (Piece.buffer_type p2) (Piece.start p2) eo
                                       (Piece.line_start p2)) ++
                piece_text t (Piece.mk (Piece.buffer_type p2) (Piece.start p2 + eo)
                                       (Piece.length p2 - eo) false)) ++ text_of t post)
        with (text_of t pre ++
              (piece_text t p1 ++ text_of t gone ++
               piece_text t (Piece.mk (Piece.buffer_type p2) (Piece.start p2) eo
                                      (Piece.line_start p2))) ++
              piece_text t (Piece.mk (Piece.buffer_type p2) (Piece.start p2 + eo)
                                     (Piece.length p2 - eo) false) ++ text_of t post)
        by (rewrite <- !app_assoc; reflexivity).
      symmetry. apply cut_middle; [rewrite text_of_length by assumption; reflexivity|].
      rewrite !len_app, piece_text_length, text_of_length, Hl1 by assumption.
      simpl. lia.
    + (* from inside a piece into a later one *)
      rewrite (delete_run_from_inside t pre p1 gone p2 post so eo Ht Hps Hall) by lia.
      split; [reflexivity|]. cbn [snd]. rewrite !get_text_text_of. cbn [pieces].
      set (t' := mk _ _ _ _ _). rewrite (text_of_same_buffers t t') by reflexivity.
      rewrite Hps in *. apply Forall_app in Hok as [Hpre Hpost].
      inversion Hpost as [|? ? Hp1 Hpost']; subst.
      apply Forall_app in Hpost' as [Hgone Hpost'].
      inversion Hpost' as [|? ? Hp2 Hpost'']; subst.
      destruct (piece_text_halves t p1 so Hp1) as (Htxt1 & Hl11 & Hl12); [lia|].
      destruct (piece_text_halves t p2 eo Hp2) as (Htxt2 & Hl21 & Hl22); [lia|].
      rewrite !text_of_app, !text_of_cons, !text_of_app, !text_of_cons.
      rewrite <- Htxt1, <- Htxt2.
      set (f1 := piece_text t (Piece.mk _ (Piece.start p1) so _)) in *.
      set (s1 := piece_text t (Piece.mk _ (Piece.start p1 + so) _ _)) in *.
      set (f2 := piece_text t (Piece.mk _ (Piece.start p2) eo _)) in *.
      set (s2 := piece_text t (Piece.mk _ (Piece.start p2 + eo) _ _)) in *.
      replace (text_of t pre ++ (f1 ++ s1) ++ text_of t gone ++ (f2 ++ s2) ++ text_of t post)
        with ((text_of t pre ++ f1) ++ (s1 ++ text_of t gone ++ f2) ++ s2 ++ text_of t post)
        by (rewrite <- !app_assoc; reflexivity).
      rewrite (cut_middle (text_of t pre ++ f1) (s1 ++ text_of t gone ++ f2)).
      * rewrite <- app_assoc. reflexivity.
      * rewrite len_app, text_of_length, Hl11 by assumption. reflexivity.
      * rewrite !len_app, text_of_length, Hl12, Hl21 by assumption. lia.
Qed.

(** X4. When the range starts inside a piece, not at its beginning, and
    ends inside the same piece, [delete] returns but removes everything
    from [pos] to the end of that piece. *)
Theorem delete_inside_one_piece_drops_tail
  (t : PieceTable.t) (pos n i so eo : Z) (p : Piece.t) :
  wf t -> 0 <= pos -> 0 < n ->
  _find_piece_at_position t pos = (i, so) ->
  _find_piece_at_position t (pos + n) = (i, eo) ->
  0 < so -> index (pieces t) i = Ok p ->
  fst (delete pos n t) = Ok tt /\
  get_text (snd (delete pos n t)) = cut (get_text t) pos (Piece.length p - so).
Proof.
  intros Hwf Hpos Hn Hstart Hend Hso Hp.
  pose proof (wf_positive t Hwf) as Hall. pose proof Hwf as [Hok Ht].
  unfold _find_piece_at_position in Hstart, Hend.
  destruct (find_loop (pieces t) pos 0 0) as [[si' so']|] eqn:Hf1;
    [|injection Hstart as _ <-; lia].
  injection Hstart as -> ->.
  apply find_loop_Some in Hf1 as (pre & p1 & post & Hps & -> & Hat1 & Hoff1).
  rewrite Z.add_0_l in *.
  rewrite Hps, index_middle in Hp. injection Hp as ->.
  destruct (find_loop (pieces t) (pos + n) 0 0) as [[ei' eo']|] eqn:Hf2.
  2: { injection Hend as Hlen _. rewrite Hps, len_app, len_cons in Hlen.
       pose proof (len_nonneg post). lia. }
  injection Hend as -> ->.
  apply find_loop_Some in Hf2 as (pre2 & p2 & post2 & Hps2 & Hlen & Hat2 & Hoff2).
  rewrite Z.add_0_l in *.
  destruct (decompositions_agree _ _ _ _ _ _ _ Hps Hps2) as (<- & <- & <-);
    [unfold len in Hlen; lia|].
  assert (eo = so + n) as -> by lia.
  subst pos. replace n with (so + n - so) at 1 2 by lia.
  rewrite (delete_run_one_piece t pre p post so (so + n) Ht Hps Hall) by lia.
  split; [reflexivity|]. cbn [snd]. rewrite !get_text_text_of. cbn [pieces].
  set (t' := mk _ _ _ _ _). rewrite (text_of_same_buffers t t') by reflexivity.
  rewrite Hps in *. apply Forall_app in Hok as [Hpre Hpost].
  inversion Hpost as [|? ? Hp1 Hpost']; subst.
  destruct (piece_text_halves t p so Hp1) as (Htxt & Hl1 & Hl2); [lia|].
  rewrite !text_of_app, !text_of_cons, <- Htxt.
  set (f := piece_text t (Piece.mk _ (Piece.start p) so _)) in *.
  set (s := piece_text t (Piece.mk _ (Piece.start p + so) _ _)) in *.
  replace (text_of t pre ++ (f ++ s) ++ text_of t post)
    with ((text_of t pre ++ f) ++ s ++ text_of t post)
    by (rewrite <- !app_assoc; reflexivity).
  rewrite (cut_middle (text_of t pre ++ f) s).
  - rewrite <- app_assoc. reflexivity.
  - rewrite len_app, text_of_length, Hl1 by assumption. reflexivity.
  - rewrite Hl2. reflexivity.
Qed.

End DeleteCorrect.

Section EdgeBehaviour.

Import PieceTable.

#[local] Arguments index : simpl never.
#[local] Arguments setitem : simpl never.
#[local] Arguments list_insert : simpl never.
#[local] Arguments Piece.split : simpl never.
#[local] Arguments _update_markers : simpl never.

Implicit Types t s : PieceTable.t.
Implicit Types p : Piece.t.
Implicit Types ps pre post mid : list Piece.t.

(** X5. Outside the document, that is for a negative position or one
    beyond the length, [insert] does not fail and appends the text at the
    end. *)
Theorem insert_outside_appends (t : PieceTable.t) (pos : Z) (text : list ascii) :
  wf t -> pos < 0 \/ doc_length t < pos ->
  fst (insert pos text t) = Ok tt /\
  get_text (snd (insert pos text t)) = get_text t ++ text.
Proof.
  intros Hwf Hpos. split.
  - apply insert_ok, Hwf.
  - apply insert_text_outside; assumption.
Qed.

Lemma insert_outside_appends_witness :
  wf (table_of "abc") /\ (-4 < 0 \/ doc_length (table_of "abc") < -4) /\
  get_text (snd (insert (-4) (str "X") (table_of "abc"))) = str "abcX".
Proof.
  assert (Hwf : wf (table_of "abc")) by wf_by_evaluation.
  assert (Hpos : -4 < 0 \/ doc_length (table_of "abc") < -4) by (left; lia).
  split; [exact Hwf|]. split; [exact Hpos|].
  destruct (insert_outside_appends (table_of "abc") (-4) (str "X") Hwf Hpos) as [_ ->].
  reflexivity.
Defined.

Lemma delete_removes_range_witness :
  let t := snd (insert 3 (str "XY") (table_of "abcdef")) in
  wf t /\ _find_piece_at_position t 0 = (0, 0) /\ _find_piece_at_position t (0 + 4) = (1, 1) /\
  get_text t = str "abcXYdef" /\
  fst (delete 0 4 t) = Ok tt /\ get_text (snd (delete 0 4 t)) = str "Ydef".
Proof.
  set (t := snd (insert 3 (str "XY") (table_of "abcdef"))). cbv zeta.
  assert (Hwf : wf t) by wf_by_evaluation.
  split; [exact Hwf|]. split; [reflexivity|]. split; [reflexivity|]. split; [reflexivity|].
  destruct (delete_removes_range t 0 4 0 0 1 1 Hwf) as [Hok Htext];
    [lia|lia|reflexivity|reflexivity|lia|left; reflexivity|].
  split; [exact Hok|]. rewrite Htext. reflexivity.
Defined.

Lemma delete_inside_one_piece_drops_tail_witness :
  wf (table_of "abcdef") /\
  _find_piece_at_position (table_of "abcdef") 1 = (0, 1) /\
  _find_piece_at_position (table_of "abcdef") (1 + 2) = (0, 3) /\
  fst (delete 1 2 (table_of "abcdef")) = Ok tt /\
  get_text (snd (delete 1 2 (table_of "abcdef"))) = str "a".
Proof.
  assert (Hwf : wf (table_of "abcdef")) by wf_by_evaluation.
  split; [exact Hwf|]. split; [reflexivity|]. split; [reflexivity|].
  destruct (delete_inside_one_piece_drops_tail (table_of "abcdef") 1 2 0 1 3
              (Piece.mk Add 0 6 false) Hwf) as [Hok Htext];
    [lia|lia|reflexivity|reflexivity|lia|reflexivity|].
  split; [exact Hok|]. rewrite Htext. reflexivity.
Defined.

(** X6. When the end of the range lies at or after the end of the
    document, or on the boundary between two pieces, [delete] raises; the
    table it leaves behind still satisfies the invariant. *)
Theorem delete_raises_when_range_ends_on_boundary (t : PieceTable.t) (pos n : Z) :
  wf t -> 0 < n ->
  (doc_length t <= pos + n \/
   exists pre post, pieces t = pre ++ post /\ pos + n = sum_lengths pre) ->
  raises (delete pos n t) /\ wf (snd (delete pos n t)).
Proof.
  intros Hwf Hn Hend. split; [|apply delete_wf; exact Hwf].
  apply delete_end_at_boundary_raises; [assumption..|].
  pose proof (wf_positive t Hwf) as Hall.
  destruct Hend as [Hout|(pre & post & Hps & Hat)].
  - rewrite find_outside by assumption. reflexivity.
  - destruct post as [|q post].
    + rewrite find_outside; [reflexivity|assumption|].
      unfold doc_length. rewrite Hps, app_nil_r. lia.
    + rewrite Hat. replace (sum_lengths pre) with (sum_lengths pre + 0) by lia.
      rewrite (find_at t pre q post); [reflexivity|exact Hps|exact Hall|].
      rewrite Hps in Hall. apply Forall_app in Hall as [_ Hall]. inversion Hall; subst. lia.
Qed.

Lemma delete_raises_when_range_ends_on_boundary_witness :
  let t := snd (insert 3 (str "XY") (table_of "abcdef")) in
  wf t /\
  pieces t = [Piece.mk Add 0 3 false; Piece.mk Add 6 2 false] ++ [Piece.mk Add 3 3 false] /\
  1 + 4 = sum_lengths [Piece.mk Add 0 3 false; Piece.mk Add 6 2 false] /\
  raises (delete 1 4 t).
Proof.
  set (t := snd (insert 3 (str "XY") (table_of "abcdef"))). cbv zeta.
  assert (Hwf : wf t) by wf_by_evaluation.
  split; [exact Hwf|]. split; [reflexivity|]. split; [reflexivity|].
  apply (delete_raises_when_range_ends_on_boundary t 1 4 Hwf); [lia|].
  right. exists [Piece.mk Add 0 3 false; Piece.mk Add 6 2 false], [Piece.mk Add 3 3 false].
  split; reflexivity.
Defined.

(** X7. Inserting a non-empty text at a valid position and then deleting
    that many characters at the same position always raises in [delete],
    and the table keeps the text with the insertion in it. *)
Theorem insert_then_delete_always_raises (t : PieceTable.t) (pos : Z) (text : list ascii) :
  wf t -> 0 <= pos <= doc_length t -> text <> [] ->
  let r := (insert pos text ;;; delete pos (len text)) t in
  (fst r = Raise IndexError \/ fst r = Raise ValueError) /\
  get_text (snd r) = splice (get_text t) pos text.
Proof.
  intros Hwf Hpos Hne. cbv zeta. unfold bindM.
  pose proof (insert_ok t pos text (proj2 Hwf)) as Hok.
  pose proof (insert_text t pos text Hwf Hpos) as Htext.
  destruct (delete_after_insert_raises t pos text Hwf Hpos Hne) as (e & Hdel & He).
  destruct (insert pos text t) as [r t1]. simpl in Hok, Htext, Hdel. subst r.
  rewrite !Hdel. simpl. split; [|exact Htext].
  destruct He as [->| ->]; auto.
Qed.

Lemma insert_then_delete_always_raises_witness :
  wf (table_of "abc") /\ 0 <= 1 <= doc_length (table_of "abc") /\ str "X" <> [] /\
  fst ((insert 1 (str "X") ;;; delete 1 (len (str "X"))) (table_of "abc")) = Raise ValueError /\
  get_text (snd ((insert 1 (str "X") ;;; delete 1 (len (str "X"))) (table_of "abc")))
  = str "aXbc".
Proof.
  assert (Hwf : wf (table_of "abc")) by wf_by_evaluation.
  assert (Hpos : 0 <= 1 <= doc_length (table_of "abc")) by (vm_compute; intuition discriminate).
  assert (Hne : str "X" <> []) by discriminate.
  split; [exact Hwf|]. split; [exact Hpos|]. split; [exact Hne|].
  destruct (insert_then_delete_always_raises (table_of "abc") 1 (str "X") Hwf Hpos Hne)
    as [_ Htext].
  split; [reflexivity|]. rewrite Htext. reflexivity.
Defined.

(** ** Serialisation *)

Lemma vars_styles_objects l : vars_styles (map StyleObj l) = Ok l.
Proof. induction l as [|s l IH]; simpl; [reflexivity|]. rewrite IH. reflexivity. Qed.

Lemma vars_lines_objects l : vars_lines (map LineObj l) = Ok l.
Proof. induction l as [|s l IH]; simpl; [reflexivity|]. rewrite IH. reflexivity. Qed.

Lemma vars_styles_typed ss :
  Forall is_style_obj ss -> exists l, vars_styles ss = Ok l /\ ss = map StyleObj l.
Proof.
  induction 1 as [|[s|d] ss Hs Hss (l & IH & ->)]; [exists []; split; reflexivity| |contradiction].
  exists (s :: l). simpl. rewrite IH. split; reflexivity.
Qed.

Lemma vars_lines_typed ls :
  Forall is_line_obj ls -> exists l, vars_lines ls = Ok l /\ ls = map LineObj l.
Proof.
  induction 1 as [|[s|d] ls Hs Hls (l & IH & ->)]; [exists []; split; reflexivity| |contradiction].
  exists (s :: l). simpl. rewrite IH. split; reflexivity.
Qed.

(** X8. [from_json] and [to_json] are inverse to each other: a stored
    snapshot loads into a table that serialises to the same snapshot, and
    a table whose style and line lists hold objects serialises to a
    snapshot that loads back to the same table. *)
Theorem json_round_trip :
  (forall data : Json.t, to_json (from_json data) = Ok data) /\
  (forall t : PieceTable.t, typed t ->
     exists data, to_json t = Ok data /\ from_json data = t).
Proof.
  split.
  - intros [ob ab ps ss ls]. unfold to_json, from_json. simpl.
    rewrite vars_styles_objects, vars_lines_objects. reflexivity.
  - intros [ob ab ps ss ls] [Hs Hl]. simpl in Hs, Hl.
    destruct (vars_styles_typed ss Hs) as (l1 & H1 & ->).
    destruct (vars_lines_typed ls Hl) as (l2 & H2 & ->).
    exists (Json.mk ob ab ps l1 l2). unfold to_json, from_json. simpl.
    rewrite H1, H2. split; reflexivity.
Qed.

Lemma json_round_trip_witness :
  typed styled_abc /\
  exists data, to_json styled_abc = Ok data /\ from_json data = styled_abc.
Proof.
  assert (Ht : typed styled_abc) by (split; (constructor; [exact I|constructor])).
  split; [exact Ht|]. apply (proj2 json_round_trip styled_abc Ht).
Defined.

End EdgeBehaviour.

Section DictionaryEntries.

Import PieceTable DiffCalculator.

#[local] Arguments index : simpl never.
#[local] Arguments setitem : simpl never.
#[local] Arguments list_insert : simpl never.
#[local] Arguments Piece.split : simpl never.
#[local] Arguments _update_markers : simpl never.

Implicit Types t s : PieceTable.t.
Implicit Types p : Piece.t.
Implicit Types ps pre post mid : list Piece.t.

Lemma style_objects_or_not ss : Forall is_style_obj ss \/ ~ Forall is_style_obj ss.
Proof.
  induction ss as [|[s|d] ss [IH|IH]].
  - left. constructor.
  - left. constructor; [exact I|exact IH].
  - right. intros H. inversion H; subst. contradiction.
  - right. intros H. inversion H; subst. contradiction.
  - right. intros H. inversion H; subst. contradiction.
Qed.

Lemma vars_styles_dict ss : ~ Forall is_style_obj ss -> vars_styles ss = Raise TypeError.
Proof.
  induction ss as [|[s|d] ss IH]; intros Hn.
  - exfalso. apply Hn. constructor.
  - simpl. rewrite IH; [reflexivity|]. intros H. apply Hn. constructor; [exact I|exact H].
  - reflexivity.
Qed.

Lemma vars_lines_dict ls : ~ Forall is_line_obj ls -> vars_lines ls = Raise TypeError.
Proof.
  induction ls as [|[s|d] ls IH]; intros Hn.
  - exfalso. apply Hn. constructor.
  - simpl. rewrite IH; [reflexivity|]. intros H. apply Hn. constructor; [exact I|exact H].
  - reflexivity.
Qed.

Lemma update_styles_dict ss piece_index delta :
  ~ Forall is_style_obj ss -> fst (update_styles ss piece_index delta) = Raise AttributeError.
Proof.
  induction ss as [|[s|d] ss IH]; intros Hn.
  - exfalso. apply Hn. constructor.
  - simpl. destruct (update_styles ss piece_index delta) as [r ss'] eqn:E. simpl.
    simpl in IH. apply IH. intros H. apply Hn. constructor; [exact I|exact H].
  - reflexivity.
Qed.

Lemma update_lines_dict ls piece_index delta :
  ~ Forall is_line_obj ls -> fst (update_lines ls piece_index delta) = Raise AttributeError.
Proof.
  induction ls as [|[s|d] ls IH]; intros Hn.
  - exfalso. apply Hn. constructor.
  - simpl. destruct (update_lines ls piece_index delta) as [r ls'] eqn:E. simpl.
    simpl in IH. apply IH. intros H. apply Hn. constructor; [exact I|exact H].
  - reflexivity.
Qed.

(** [_update_markers] touches neither the buffers nor the pieces, and it
    raises as soon as one of the two lists holds a dictionary. *)
Lemma update_markers_frame t piece_index delta :
  let t' := snd (_update_markers piece_index delta t) in
  original_buffer t' = original_buffer t /\ add_buffer t' = add_buffer t /\
  pieces t' = pieces t.
Proof.
  unfold _update_markers, bindM.
  destruct (update_styles (styles t) piece_index delta) as [[[]|e] ss]; simpl.
  - destruct (update_lines (lines t) piece_index delta) as [r ls]. simpl. auto.
  - auto.
Qed.

Lemma update_markers_untyped t piece_index delta :
  ~ typed t -> fst (_update_markers piece_index delta t) = Raise AttributeError.
Proof.
  intros Hn. unfold _update_markers, bindM.
  destruct (style_objects_or_not (styles t)) as [Hs|Hs].
  - rewrite update_styles_typed by assumption. simpl.
    pose proof (update_lines_dict (lines t) piece_index delta) as Hl.
    destruct (update_lines (lines t) piece_index delta) as [r ls]. simpl in *.
    apply Hl. intros H. apply Hn. split; assumption.
  - pose proof (update_styles_dict (styles t) piece_index delta Hs) as H.
    destruct (update_styles (styles t) piece_index delta) as [r ss]. simpl in *.
    subst r. reflexivity.
Qed.

(** The pieces part of [insert] on any table. *)
Lemma insert_then_markers t pos text :
  text <> [] ->
  exists ps',
    insert pos text t
    = _update_markers (fst (_find_piece_at_position t pos)) (len text)
        (mk (original_buffer t) (add_buffer t ++ text) ps' (styles t) (lines t)) /\
    insert_shape t pos text ps'.
Proof.
  intros Hne. unfold insert_shape.
  destruct text as [|c text]; [contradiction|]. set (txt := c :: text) in *.
  destruct (_find_piece_at_position t pos) as [k off] eqn:Hfind.
  pose proof Hfind as Hfind'. unfold _find_piece_at_position in Hfind'.
  assert (Hboundary : off = 0 ->
            insert pos txt t
            = _update_markers k (len txt)
                (mk (original_buffer t) (add_buffer t ++ txt)
                    (list_insert (pieces t) k (new_piece t txt)) (styles t) (lines t))).
  { intros ->. unfold insert, txt, bindM, get, modify, lift. rewrite Hfind. reflexivity. }
  destruct (find_loop (pieces t) pos 0 0) as [[k' off']|] eqn:Hf.
  - injection Hfind' as -> ->.
    apply find_loop_Some in Hf as (pre & p & post & Hps & -> & Hpos & Hoff).
    rewrite Z.add_0_l in *. simpl fst.
    destruct (Z.ltb_spec 0 off) as [Hpos'|Hzero].
    + eexists. split.
      * unfold insert, txt, bindM, get, modify, lift. rewrite Hfind.
        destruct (Z.ltb_spec 0 off); [|lia].
        rewrite Hps, index_middle, split_inside by lia. cbn [fst snd].
        rewrite setitem_middle.
        rewrite (list_insert_after pre _ _ post) by reflexivity.
        rewrite list_insert_after2 by reflexivity. reflexivity.
      * right. exists pre, p, post, off. do 2 eexists.
        split_and!; [assumption|lia|reflexivity|apply split_inside; lia|reflexivity].
    + assert (off = 0) as -> by lia.
      eexists. split; [apply Hboundary; reflexivity|].
      left. exists pre, (p :: post).
      split_and!; [assumption| |reflexivity|left; lia].
      rewrite Hps. apply list_insert_at.
  - injection Hfind' as <- <-. simpl fst.
    apply find_loop_None in Hf.
    eexists. split; [apply Hboundary; reflexivity|].
    left. exists (pieces t), [].
    split_and!; [rewrite app_nil_r; reflexivity| |reflexivity|].
    + rewrite <- (app_nil_r (pieces t)) at 1. apply list_insert_at.
    + right. split; [unfold doc_length; lia|reflexivity].
Qed.

(** The text of the pieces [insert] leaves, read against the grown add
    buffer. *)
Lemma insert_shape_text t t' pos text ps' :
  Forall (piece_ok t) (pieces t) -> 0 <= pos <= doc_length t ->
  insert_shape t pos text ps' ->
  original_buffer t' = original_buffer t -> add_buffer t' = add_buffer t ++ text ->
  text_of t' ps' = splice (get_text t) pos text.
Proof.
  intros Hps Hpos Hshape Ho Ha. rewrite get_text_text_of.
  assert (Hsame : forall qs, Forall (piece_ok t) qs -> text_of t' qs = text_of t qs).
  { intros qs. apply (text_of_grow t t' text); assumption. }
  assert (Hnew : piece_text t' (new_piece t text) = text).
  { apply new_piece_text. exact Ha. }
  destruct Hshape as [(pre & post & Hsplit & -> & _ & Hwhere)
                     |(pre & p & post & off & first & second & Hsplit & Hat & _ & Hs & ->)];
    rewrite Hsplit in *.
  - apply Forall_app in Hps as [Hpre Hpost].
    rewrite !text_of_app, text_of_cons, Hnew, !Hsame by assumption.
    symmetry. apply splice_at.
    rewrite text_of_length by assumption.
    destruct Hwhere as [->|[Hout ->]]; [reflexivity|].
    unfold doc_length in *. rewrite Hsplit, app_nil_r in *. lia.
  - apply Forall_app in Hps as [Hpre Hpost]. inversion Hpost as [|? ? Hp Hpost']; subst.
    destruct (split_ok t _ _ _ _ Hs Hp) as (Hf & Hsnd & Hoff & Hlf & Hls & Htxt).
    rewrite !text_of_app, !text_of_cons, Hnew, !Hsame by assumption.
    rewrite (piece_text_grow t t' text first), (piece_text_grow t t' text second)
      by assumption.
    rewrite <- Htxt.
    replace (text_of t pre ++ (piece_text t first ++ piece_text t second) ++ text_of t post)
      with ((text_of t pre ++ piece_text t first) ++ piece_text t second ++ text_of t post)
      by (rewrite <- !app_assoc; reflexivity).
    rewrite splice_at.
    + rewrite <- !app_assoc. reflexivity.
    + rewrite len_app, text_of_length, piece_text_length by assumption. lia.
Qed.

(** X9. Once the style or line list of a table holds a plain dictionary,
    [to_json] raises, and every [insert] of a non-empty text raises in
    [_update_markers]: only after the text has gone into the pieces, so
    at a valid position of a table with its pieces in order the text is
    in the table although the call failed. *)
Theorem dictionary_entry_breaks_insert_and_to_json (t : PieceTable.t) :
  ~ typed t ->
  to_json t = Raise TypeError /\
  forall pos text, text <> [] ->
    fst (insert pos text t) = Raise AttributeError /\
    (Forall (piece_ok t) (pieces t) -> 0 <= pos <= doc_length t ->
     get_text (snd (insert pos text t)) = splice (get_text t) pos text).
Proof.
  intros Hn. split.
  - unfold to_json. destruct (style_objects_or_not (styles t)) as [Hs|Hs].
    + destruct (vars_styles_typed _ Hs) as (l & -> & _). simpl.
      rewrite vars_lines_dict; [reflexivity|]. intros Hl. apply Hn. split; assumption.
    + rewrite vars_styles_dict by assumption. reflexivity.
  - intros pos text Hne.
    destruct (insert_then_markers t pos text Hne) as (ps' & Hrun & Hshape).
    rewrite Hrun. set (t1 := mk _ _ ps' _ _). split.
    + apply update_markers_untyped. exact Hn.
    + intros Hps Hpos.
      destruct (update_markers_frame t1 (fst (_find_piece_at_position t pos)) (len text))
        as (Ho & Ha & Hp).
      rewrite get_text_text_of, Hp. cbn [pieces t1].
      apply (insert_shape_text t _ pos text ps' Hps Hpos Hshape).
      * rewrite Ho. reflexivity.
      * rewrite Ha. reflexivity.
Qed.

(** The table "abc" after [apply_diff] has appended a style operation. *)
Lemma dictionary_entry_breaks_insert_and_to_json_witness :
  let t := snd (apply_diff [style_op 0 2 {[ "bold" := JBool true ]}] (table_of "abc")) in
  ~ typed t /\ get_text t = str "abc" /\
  to_json t = Raise TypeError /\
  fst (insert 1 (str "X") t) = Raise AttributeError /\
  get_text (snd (insert 1 (str "X") t)) = str "aXbc".
Proof.
  set (t := snd (apply_diff _ _)). cbv zeta.
  assert (Hn : ~ typed t).
  { intros [Hs _]. vm_compute in Hs. inversion Hs as [|? ? Hd _]. exact Hd. }
  destruct (dictionary_entry_breaks_insert_and_to_json t Hn) as [Hjson Hins].
  destruct (Hins 1 (str "X")) as [Hraise Htext]; [discriminate|].
  split; [exact Hn|]. split; [reflexivity|]. split; [exact Hjson|]. split; [exact Hraise|].
  rewrite Htext; [reflexivity| |vm_compute; intuition discriminate].
  repeat (constructor; [vm_compute; intuition discriminate|]); constructor.
Defined.

End DictionaryEntries.

(* ===================================================================== *)
(** * Properties of the formatting overlay *)
(* ===================================================================== *)

Section StableSort.

Context {A : Type} (key : A -> Z * Z).

Let le (a b : A) : bool := key_le (key a) (key b).

Lemma key_le_total a b : key_le a b = false -> key_le b a = true.
Proof.
  unfold key_le. destruct a as [a1 a2], b as [b1 b2]. simpl.
  destruct (Z.ltb_spec a1 b1), (Z.eqb_spec a1 b1), (Z.leb_spec a2 b2),
    (Z.ltb_spec b1 a1), (Z.eqb_spec b1 a1), (Z.leb_spec b2 a2);
    simpl; try reflexivity; try discriminate; lia.
Qed.

Lemma key_le_trans a b c : key_le a b = true -> key_le b c = true -> key_le a c = true.
Proof.
  unfold key_le. destruct a as [a1 a2], b as [b1 b2], c as [c1 c2]. simpl.
  destruct (Z.ltb_spec a1 b1), (Z.eqb_spec a1 b1), (Z.leb_spec a2 b2),
    (Z.ltb_spec b1 c1), (Z.eqb_spec b1 c1), (Z.leb_spec b2 c2),
    (Z.ltb_spec a1 c1), (Z.eqb_spec a1 c1), (Z.leb_spec a2 c2);
    simpl; try reflexivity; try discriminate; lia.
Qed.

Lemma key_le_refl a : key_le a a = true.
Proof.
  unfold key_le. destruct (Z.ltb_spec (fst a) (fst a)); [lia|].
  rewrite Z.eqb_refl, Z.leb_refl. reflexivity.
Qed.

Lemma insert_by_perm x (l : list A) : insert_by le x l ≡ₚ x :: l.
Proof.
  induction l as [|y l IH]; simpl; [reflexivity|].
  destruct (le x y); [reflexivity|]. rewrite IH. apply Permutation_swap.
Qed.

Lemma stable_sort_perm (l : list A) : stable_sort le l ≡ₚ l.
Proof.
  induction l as [|x l IH]; simpl; [reflexivity|].
  rewrite insert_by_perm, IH. reflexivity.
Qed.

Lemma insert_by_sorted x (l : list A) :
  sorted_by key l -> sorted_by key (insert_by le x l).
Proof.
  unfold sorted_by. induction 1 as [|y l Hl IH Hy]; simpl.
  - repeat constructor.
  - destruct (le x y) eqn:Hxy.
    + constructor; [constructor; assumption|].
      constructor; [exact Hxy|].
      eapply Forall_impl; [exact Hy|]. intros z Hz. eapply key_le_trans; eauto.
    + constructor; [exact IH|].
      rewrite (insert_by_perm x l). constructor; [|exact Hy].
      apply key_le_total. exact Hxy.
Qed.

Lemma stable_sort_sorted (l : list A) : sorted_by key (stable_sort le l).
Proof.
  induction l as [|x l IH]; simpl; [constructor|]. apply insert_by_sorted. exact IH.
Qed.

(** Elements with one key keep their order. *)
Lemma insert_by_stable x (l : list A) k :
  filter (fun y => key y = k) (insert_by le x l)
  = filter (fun y => key y = k) (x :: l).
Proof.
  induction l as [|y l IH]; simpl; [reflexivity|].
  destruct (le x y) eqn:Hxy; [reflexivity|].
  rewrite filter_cons, IH, !filter_cons.
  destruct (decide (key y = k)) as [Hy|Hy]; destruct (decide (key x = k)) as [Hx|Hx];
    try reflexivity.
  exfalso. unfold le in Hxy. rewrite Hx, Hy, key_le_refl in Hxy. discriminate.
Qed.

Lemma stable_sort_stable (l : list A) k :
  filter (fun y => key y = k) (stable_sort le l) = filter (fun y => key y = k) l.
Proof.
  induction l as [|x l IH]; simpl; [reflexivity|].
  rewrite insert_by_stable, !filter_cons, IH. reflexivity.
Qed.

End StableSort.

Lemma Forall_filter_keep {A} (Q P : A -> Prop) `{!forall x, Decision (P x)} (l : list A) :
  Forall Q l -> Forall Q (filter P l).
Proof.
  rewrite !Forall_forall. intros HQ x Hx. apply list_elem_of_filter in Hx as [_ Hx]. auto.
Qed.

Lemma filter_none {A} (P : A -> Prop) `{!forall x, Decision (P x)} (l : list A) :
  Forall (fun x => ~ P x) l -> filter P l = [].
Proof.
  induction 1 as [|x l Hx _ IH]; [reflexivity|].
  rewrite filter_cons, decide_False by exact Hx. exact IH.
Qed.

Section Pairwise.

Context {A : Type} (R : A -> A -> Prop).
Hypothesis R_sym : forall a b, R a b -> R b a.

Lemma pairwise_perm (l l' : list A) : l ≡ₚ l' -> pairwise R l -> pairwise R l'.
Proof.
  induction 1 as [|x l l' Hp IH|x y l|l1 l2 l3 _ IH1 _ IH2]; simpl.
  - auto.
  - intros [Hx Hl]. split; [rewrite <- Hp; exact Hx|apply IH; exact Hl].
  - intros [Hy [Hx Hl]]. inversion Hy as [|? ? Hyx Hyl]; subst.
    split; [constructor; [apply R_sym; exact Hyx|exact Hx]|].
    split; assumption.
  - auto.
Qed.

Lemma pairwise_filter (P : A -> Prop) `{!forall x, Decision (P x)} (l : list A) :
  pairwise R l -> pairwise R (filter P l).
Proof.
  induction l as [|x l IH]; simpl; [auto|]. intros [Hx Hl].
  rewrite filter_cons. destruct (decide (P x)).
  - simpl. split; [apply Forall_filter_keep; exact Hx|apply IH; exact Hl].
  - apply IH. exact Hl.
Qed.

Lemma pairwise_snoc (l : list A) x :
  pairwise R l -> Forall (fun y => R y x) l -> pairwise R (l ++ [x]).
Proof.
  induction l as [|y l IH]; simpl; [auto|].
  intros [Hy Hl] Hx. inversion Hx as [|? ? Hyx Hlx]; subst.
  split; [apply Forall_app; split; [exact Hy|constructor; [exact Hyx|constructor]]|].
  apply IH; assumption.
Qed.

End Pairwise.

Lemma pairwise_strengthen {A} (R R' : A -> A -> Prop) (P : A -> Prop) (l : list A) :
  (forall a b, P a -> P b -> R a b -> R' a b) ->
  Forall P l -> pairwise R l -> pairwise R' l.
Proof.
  intros Himp. induction l as [|x l IH]; simpl; [auto|].
  intros HP [Hx Hl]. inversion HP as [|? ? HPx HPl]; subst. split; [|auto].
  rewrite Forall_forall in Hx, HPl. apply Forall_forall. intros y Hy.
  apply Himp; auto.
Qed.

Section Overlay.

Import Formatting FormattingManager.

Implicit Types s a b style : StyleRange.
Implicit Types fm : Formatting.t.

Lemma overlaps_of_common_offset a b x :
  s_pieceIndex a = s_pieceIndex b -> covers a x -> covers b x -> overlaps a b = true.
Proof.
  unfold overlaps, covers. intros Hpi Ha Hb.
  destruct (Z.eqb_spec (s_pieceIndex a) (s_pieceIndex b)); [|contradiction]. simpl.
  destruct (Z.leb_spec (s_offsetInPiece a + s_length a) (s_offsetInPiece b)); [lia|].
  destruct (Z.leb_spec (s_offsetInPiece b + s_length b) (s_offsetInPiece a)); [lia|].
  reflexivity.
Qed.

(** X10. [StyleRange.overlaps] does not depend on the order of its two
    ranges, and for two ranges of positive length it holds exactly when
    they are in the same piece and some offset lies in both. *)
Theorem overlaps_iff_common_offset (a b : StyleRange) :
  0 < s_length a -> 0 < s_length b ->
  overlaps a b = overlaps b a /\
  (overlaps a b = true <->
   s_pieceIndex a = s_pieceIndex b /\ exists x, covers a x /\ covers b x).
Proof.
  intros Ha Hb. split.
  - unfold overlaps.
    destruct (Z.eqb_spec (s_pieceIndex a) (s_pieceIndex b));
      destruct (Z.eqb_spec (s_pieceIndex b) (s_pieceIndex a)); try congruence; simpl;
      try reflexivity.
    rewrite orb_comm. reflexivity.
  - unfold overlaps, covers.
    destruct (Z.eqb_spec (s_pieceIndex a) (s_pieceIndex b)) as [Hpi|Hpi]; simpl.
    + destruct (Z.leb_spec (s_offsetInPiece a + s_length a) (s_offsetInPiece b));
        destruct (Z.leb_spec (s_offsetInPiece b + s_length b) (s_offsetInPiece a)); simpl.
      * split; [discriminate|]. intros (_ & x & H1 & H2). lia.
      * split; [discriminate|]. intros (_ & x & H1 & H2). lia.
      * split; [discriminate|]. intros (_ & x & H1 & H2). lia.
      * split; [|reflexivity]. intros _. split; [assumption|].
        exists (Z.max (s_offsetInPiece a) (s_offsetInPiece b)). lia.
    + split; [discriminate|]. intros (Heq & _). contradiction.
Qed.

Lemma overlaps_iff_common_offset_witness :
  let a := mkStyle 0 2 3 0 {[ "bold" := JBool true ]} in
  let b := mkStyle 0 4 5 0 {[ "italic" := JBool true ]} in
  0 < s_length a /\ 0 < s_length b /\ overlaps a b = true /\ overlaps b a = true /\
  exists x, covers a x /\ covers b x.
Proof.
  cbv zeta.
  destruct (overlaps_iff_common_offset
              (mkStyle 0 2 3 0 {[ "bold" := JBool true ]})
              (mkStyle 0 4 5 0 {[ "italic" := JBool true ]})) as [Hsym Hiff];
    [reflexivity|reflexivity|].
  split; [reflexivity|]. split; [reflexivity|]. split; [reflexivity|].
  split; [reflexivity|]. apply Hiff. reflexivity.
Defined.

Lemma overlaps_sym a b : overlaps a b = overlaps b a.
Proof.
  unfold overlaps.
  destruct (Z.eqb_spec (s_pieceIndex a) (s_pieceIndex b));
    destruct (Z.eqb_spec (s_pieceIndex b) (s_pieceIndex a)); try congruence; simpl;
    try reflexivity.
  rewrite orb_comm. reflexivity.
Qed.

Lemma shares_key_sym (m1 m2 : gmap string jval) : shares_key m1 m2 = shares_key m2 m1.
Proof. unfold shares_key. rewrite (comm_L (∩) (dom m1)). reflexivity. Qed.

Lemma styles_apart_sym a b : styles_apart a b -> styles_apart b a.
Proof. unfold styles_apart. rewrite (overlaps_sym b a), (shares_key_sym _ (s_styles a)). auto. Qed.

(** X11. [StyleRange.split]: an offset of at most 0 gives no first part,
    an offset of at least the length no second part; an offset in between
    gives two ranges that abut, whose lengths add up to the length of the
    range and which together cover exactly the offsets it covered, each
    offset once. *)
Theorem split_style_range (s : StyleRange) (offset : Z) :
  (offset <= 0 -> split s offset = (None, Some s)) /\
  (0 < offset -> s_length s <= offset -> split s offset = (Some s, None)) /\
  (0 < offset < s_length s ->
   exists first second,
     split s offset = (Some first, Some second) /\
     s_length first = offset /\
     s_length first + s_length second = s_length s /\
     s_offsetInPiece first = s_offsetInPiece s /\
     s_offsetInPiece second = s_offsetInPiece first + s_length first /\
     s_pieceIndex first = s_pieceIndex s /\ s_pieceIndex second = s_pieceIndex s /\
     s_styles first = s_styles s /\ s_styles second = s_styles s /\
     (forall x, covers s x <-> covers first x \/ covers second x) /\
     (forall x, ~ (covers first x /\ covers second x))).
Proof.
  unfold split. split_and!.
  - intros H. destruct (Z.leb_spec offset 0); [reflexivity|lia].
  - intros H1 H2. destruct (Z.leb_spec offset 0); [lia|].
    destruct (Z.leb_spec (s_length s) offset); [reflexivity|lia].
  - intros H. destruct (Z.leb_spec offset 0); [lia|].
    destruct (Z.leb_spec (s_length s) offset); [lia|].
    do 2 eexists. split; [reflexivity|]. unfold covers. simpl.
    split_and!; try reflexivity; try lia; intros x; lia.
Qed.

Lemma split_style_range_witness :
  let s := mkStyle 1 10 6 0 {[ "bold" := JBool true ]} in
  0 < 2 < s_length s /\
  split s 2 = (Some (mkStyle 1 10 2 0 {[ "bold" := JBool true ]}),
               Some (mkStyle 1 12 4 0 {[ "bold" := JBool true ]})) /\
  split s 0 = (None, Some s) /\ split s 6 = (Some s, None).
Proof.
  cbv zeta. set (s := mkStyle 1 10 6 0 _).
  destruct (split_style_range s 2) as (_ & _ & H). 
  destruct (split_style_range s 0) as (H0 & _ & _).
  destruct (split_style_range s 6) as (_ & H6 & _).
  split; [split; reflexivity|]. split; [reflexivity|].
  split; [apply H0; lia|apply H6; [lia|apply Z.le_refl]].
Defined.

(** ** [add_style] *)

Lemma sorted_styles_of_sort (l : list StyleRange) :
  sorted_by style_key (stable_sort (fun a b => key_le (style_key a) (style_key b)) l).
Proof. apply stable_sort_sorted. Qed.

(** X12. After [add_style(style)] the list of styles is sorted by
    (piece, offset) and holds the new style and exactly those of the old
    ones that do not both overlap it and share an attribute name with it;
    lines and blocks are untouched. If before the call no two styles
    overlapped while sharing an attribute name, the same holds after it. *)
Theorem add_style_keeps_styles_apart (style : StyleRange) (fm : Formatting.t) :
  let fm' := add_style style fm in
  sorted_by style_key (styles fm') /\
  styles fm' ≡ₚ filter (fun s => negb (displaced_by style s)) (styles fm) ++ [style] /\
  (forall s, s ∈ styles fm' <->
             s = style \/ (s ∈ styles fm /\ displaced_by style s = false)) /\
  lines fm' = lines fm /\ blocks fm' = blocks fm /\
  (pairwise styles_apart (styles fm) -> pairwise styles_apart (styles fm')).
Proof.
  cbv zeta. unfold add_style, _sort_styles. cbn [styles lines blocks].
  set (kept := filter (fun s => negb (displaced_by style s)) (styles fm)).
  pose proof (stable_sort_perm style_key (kept ++ [style])) as Hperm.
  split_and!; try reflexivity.
  - apply stable_sort_sorted.
  - exact Hperm.
  - intros s. rewrite Hperm, elem_of_app, list_elem_of_singleton.
    unfold kept. rewrite list_elem_of_filter.
    destruct (displaced_by style s); simpl; intuition (try discriminate; auto).
  - intros Hinv. eapply pairwise_perm; [exact styles_apart_sym|symmetry; exact Hperm|].
    apply pairwise_snoc.
    + apply pairwise_filter. exact Hinv.
    + unfold kept. apply Forall_forall. intros s Hs.
      apply list_elem_of_filter in Hs as [Hkeep _].
      unfold styles_apart. intros Hov. unfold displaced_by in Hkeep.
      rewrite Hov in Hkeep. simpl in Hkeep.
      destruct (shares_key (s_styles s) (s_styles style)); [contradiction|reflexivity].
Qed.

(** ** [add_line_marker] *)

Lemma lines_apart_sym (x y : LineMarker) : lines_apart x y -> lines_apart y x.
Proof. unfold lines_apart. auto. Qed.

Lemma same_coordinate_key (marker l : LineMarker) :
  same_coordinate marker l = true <-> line_key l = line_key marker.
Proof.
  unfold same_coordinate, line_key.
  destruct (Z.eqb_spec (l_pieceIndex l) (l_pieceIndex marker));
    destruct (Z.eqb_spec (l_offsetInPiece l) (l_offsetInPiece marker)); simpl;
    split; intros H; try discriminate; try reflexivity; try congruence.
Qed.

(** X13. After [add_line_marker(marker)] the new marker is the only one at
    its coordinate, every marker at another coordinate is there exactly if
    it was there before, and the list is sorted by (piece, offset); styles
    and blocks are untouched. If the markers sat at pairwise different
    coordinates before the call, they still do after it. *)
Theorem add_line_marker_replaces_coordinate (marker : LineMarker) (fm : Formatting.t) :
  let fm' := add_line_marker marker fm in
  filter (fun l => line_key l = line_key marker) (lines fm') = [marker] /\
  (forall l, line_key l <> line_key marker -> (l ∈ lines fm' <-> l ∈ lines fm)) /\
  sorted_by line_key (lines fm') /\
  styles fm' = styles fm /\ blocks fm' = blocks fm /\
  (pairwise lines_apart (lines fm) -> pairwise lines_apart (lines fm')).
Proof.
  cbv zeta. unfold add_line_marker, _sort_lines. cbn [styles lines blocks].
  set (kept := filter (fun l => negb (same_coordinate marker l)) (lines fm)).
  pose proof (stable_sort_perm line_key (kept ++ [marker])) as Hperm.
  assert (Hkept : forall l, l ∈ kept <-> l ∈ lines fm /\ line_key l <> line_key marker).
  { intros l. unfold kept. rewrite list_elem_of_filter.
    pose proof (same_coordinate_key marker l) as Hk.
    destruct (same_coordinate marker l); simpl; split.
    - intros [[] _].
    - intros [_ Hne]. exfalso. apply Hne, Hk. reflexivity.
    - intros [_ Hl]. split; [exact Hl|]. intros Heq. apply Hk in Heq. discriminate.
    - intros [Hl _]. split; [exact I|exact Hl]. }
  split_and!; try reflexivity.
  - rewrite (stable_sort_stable line_key). rewrite filter_app.
    rewrite (filter_none _ kept).
    + rewrite filter_cons, decide_True by reflexivity. reflexivity.
    + apply Forall_forall. intros l Hl. apply Hkept in Hl as [_ Hne]. exact Hne.
  - intros l Hne. rewrite Hperm, elem_of_app, list_elem_of_singleton, Hkept.
    split.
    + intros [[Hl _]|Heq]; [exact Hl|]. subst l. contradiction.
    + auto.
  - apply stable_sort_sorted.
  - intros Hinv. eapply pairwise_perm; [exact lines_apart_sym|symmetry; exact Hperm|].
    apply pairwise_snoc.
    + apply pairwise_filter. exact Hinv.
    + apply Forall_forall. intros l Hl. apply Hkept in Hl as [_ Hne]. exact Hne.
Qed.

(** ** [add_block] *)

Lemma blocks_overlap_sym (b1 b2 : BlockDescriptor) :
  _blocks_overlap b1 b2 = _blocks_overlap b2 b1.
Proof.
  unfold _blocks_overlap.
  destruct (Z.ltb_spec (endPieceIndex b2) (startPieceIndex b1));
    destruct (Z.ltb_spec (endPieceIndex b1) (startPieceIndex b2)); simpl; try reflexivity.
  destruct (Z.eqb_spec (startPieceIndex b1) (endPieceIndex b2));
    destruct (Z.eqb_spec (startPieceIndex b2) (endPieceIndex b1));
    destruct (Z.leb_spec (endOffset b2) (startOffset b1));
    destruct (Z.leb_spec (endOffset b1) (startOffset b2)); simpl; reflexivity.
Qed.

Lemma blocks_apart_sym (x y : BlockDescriptor) : blocks_apart x y -> blocks_apart y x.
Proof.
  unfold blocks_apart. intros H Heq. rewrite blocks_overlap_sym. apply H. symmetry. exact Heq.
Qed.

(** X14. [_blocks_overlap] does not depend on the order of its two blocks.
    After [add_block(block)] the list of blocks is sorted by start
    position and holds the new block and exactly those of the old ones
    that are of another type or do not overlap it; if before the call no
    two blocks of one type overlapped, the same holds after it. *)
Theorem add_block_keeps_blocks_apart (block : BlockDescriptor) (fm : Formatting.t) :
  let fm' := add_block block fm in
  (forall x y : BlockDescriptor, _blocks_overlap x y = _blocks_overlap y x) /\
  sorted_by block_key (blocks fm') /\
  (forall x : BlockDescriptor,
      x ∈ blocks fm' <->
      x = block \/ (x ∈ blocks fm /\ block_displaced_by block x = false)) /\
  styles fm' = styles fm /\ lines fm' = lines fm /\
  (pairwise blocks_apart (blocks fm) -> pairwise blocks_apart (blocks fm')).
Proof.
  cbv zeta. unfold add_block, _sort_blocks. cbn [styles lines blocks].
  set (kept := filter (fun x : BlockDescriptor => negb (block_displaced_by block x)) (blocks fm)).
  pose proof (stable_sort_perm block_key (kept ++ [block])) as Hperm.
  split_and!; try reflexivity.
  - exact blocks_overlap_sym.
  - apply stable_sort_sorted.
  - intros x. rewrite Hperm, elem_of_app, list_elem_of_singleton.
    unfold kept. rewrite list_elem_of_filter.
    destruct (block_displaced_by block x); simpl; intuition (try discriminate; auto).
  - intros Hinv. eapply pairwise_perm; [exact blocks_apart_sym|symmetry; exact Hperm|].
    apply pairwise_snoc.
    + apply pairwise_filter. exact Hinv.
    + unfold kept. apply Forall_forall. intros x Hx.
      apply list_elem_of_filter in Hx as [Hkeep _].
      unfold blocks_apart. intros Hty. unfold block_displaced_by in Hkeep.
      rewrite bool_decide_eq_true_2 in Hkeep by exact Hty. simpl in Hkeep.
      destruct (_blocks_overlap x block); [contradiction|reflexivity].
Qed.

(** ** [update_positions] *)

Lemma shift_style_compose pi off d1 d2 (x : Formatting.StyleRange) :
  0 <= d1 -> shift_style pi off d2 (shift_style pi off d1 x) = shift_style pi off (d1 + d2) x.
Proof.
  intros Hd. destruct x as [p o l pr st]. unfold shift_style.
  cbn [s_pieceIndex s_offsetInPiece s_length s_priority s_styles].
  destruct (Z.eqb_spec p pi) as [Hp|Hp]; destruct (Z.leb_spec off o) as [Ho|Ho];
    cbn [andb s_pieceIndex s_offsetInPiece s_length s_priority s_styles].
  - destruct (Z.eqb_spec p pi); [|contradiction].
    destruct (Z.leb_spec off (o + d1)); [|lia]. cbn [andb]. f_equal. lia.
  - destruct (Z.eqb_spec p pi); [|contradiction].
    destruct (Z.leb_spec off o); [lia|]. reflexivity.
  - destruct (Z.eqb_spec p pi); [contradiction|]. reflexivity.
  - destruct (Z.eqb_spec p pi); [contradiction|]. reflexivity.
Qed.

Lemma shift_line_compose pi off d1 d2 (x : LineMarker) :
  0 <= d1 -> shift_line pi off d2 (shift_line pi off d1 x) = shift_line pi off (d1 + d2) x.
Proof.
  intros Hd. destruct x as [p o ty pr]. unfold shift_line.
  cbn [l_pieceIndex l_offsetInPiece l_type l_properties].
  destruct (Z.eqb_spec p pi) as [Hp|Hp]; destruct (Z.leb_spec off o) as [Ho|Ho];
    cbn [andb l_pieceIndex l_offsetInPiece l_type l_properties].
  - destruct (Z.eqb_spec p pi); [|contradiction].
    destruct (Z.leb_spec off (o + d1)); [|lia]. cbn [andb]. f_equal. lia.
  - destruct (Z.eqb_spec p pi); [|contradiction].
    destruct (Z.leb_spec off o); [lia|]. reflexivity.
  - destruct (Z.eqb_spec p pi); [contradiction|]. reflexivity.
  - destruct (Z.eqb_spec p pi); [contradiction|]. reflexivity.
Qed.

Lemma shift_offset_compose (same : bool) off d1 d2 o :
  0 <= d1 ->
  (let o1 := if same && (off <=? o) then o + d1 else o in
   if same && (off <=? o1) then o1 + d2 else o1)
  = if same && (off <=? o) then o + (d1 + d2) else o.
Proof.
  intros Hd. cbv zeta. destruct same; cbn [andb]; [|reflexivity].
  destruct (Z.leb_spec off o).
  - destruct (Z.leb_spec off (o + d1)); lia.
  - destruct (Z.leb_spec off o); [lia|reflexivity].
Qed.

Lemma shift_block_compose pi off d1 d2 (x : BlockDescriptor) :
  0 <= d1 -> shift_block pi off d2 (shift_block pi off d1 x) = shift_block pi off (d1 + d2) x.
Proof.
  intros Hd. destruct x as [sp so ep eo ty pr]. unfold shift_block.
  cbn [startPieceIndex startOffset endPieceIndex endOffset b_type b_properties].
  pose proof (shift_offset_compose (sp =? pi) off d1 d2 so Hd) as Hs.
  pose proof (shift_offset_compose (ep =? pi) off d1 d2 eo Hd) as He.
  cbv zeta in Hs, He. rewrite Hs, He. reflexivity.
Qed.

(** X15. Two calls of [update_positions] at the same piece and offset
    amount to one call with the sum of the two deltas, provided the first
    delta is not negative; in particular undoing a shift by [delta >= 0]
    with [-delta] gives back the overlay as it was. *)
Theorem update_positions_compose (fm : Formatting.t) (piece_index offset d1 d2 : Z) :
  0 <= d1 ->
  update_positions piece_index offset d2 (update_positions piece_index offset d1 fm)
  = update_positions piece_index offset (d1 + d2) fm /\
  update_positions piece_index offset (- d1) (update_positions piece_index offset d1 fm)
  = fm.
Proof.
  intros Hd.
  assert (Hcomp : forall d, update_positions piece_index offset d
                              (update_positions piece_index offset d1 fm)
                            = update_positions piece_index offset (d1 + d) fm).
  { intros d. unfold update_positions. cbn [styles lines blocks].
    rewrite <- !list_fmap_compose. f_equal; apply list_fmap_ext; intros i x _; simpl.
    - apply shift_style_compose; exact Hd.
    - apply shift_line_compose; exact Hd.
    - apply shift_block_compose; exact Hd. }
  split; [apply Hcomp|]. rewrite Hcomp, Z.add_opp_diag_r.
  destruct fm as [ss ls bs]. unfold update_positions. cbn [styles lines blocks]. f_equal.
  - rewrite <- (list_fmap_id ss) at 2. apply list_fmap_ext. intros i [p o l pr st] _.
    unfold shift_style. simpl. destruct (_ && _); [f_equal; lia|reflexivity].
  - rewrite <- (list_fmap_id ls) at 2. apply list_fmap_ext. intros i [p o ty pr] _.
    unfold shift_line. simpl. destruct (_ && _); [f_equal; lia|reflexivity].
  - rewrite <- (list_fmap_id bs) at 2. apply list_fmap_ext. intros i [sp so ep eo ty pr] _.
    unfold shift_block. simpl. f_equal; destruct (_ && _); lia.
Qed.

Lemma update_positions_compose_witness :
  let fm := mk [mkStyle 0 4 2 0 {[ "bold" := JBool true ]}] [mkLine 0 1 "bullet" ∅]
               [mkBlock 0 3 1 7 "quote" ∅] in
  0 <= 5 /\
  update_positions 0 2 (-5) (update_positions 0 2 5 fm) = fm /\
  update_positions 0 2 5 (update_positions 0 2 (-5) fm) <> fm.
Proof.
  cbv zeta. set (fm := mk _ _ _).
  split; [lia|]. split.
  - apply (update_positions_compose fm 0 2 5 0). lia.
  - vm_compute. discriminate.
Defined.

(** ** The lookups *)

(** X16. On a list of markers sorted by (piece, offset), as
    [add_line_marker] leaves it, [get_line_at_position] returns the marker
    with the greatest coordinate that is not after the given position, and
    [None] exactly when every marker lies after the position. *)
Theorem get_line_at_position_greatest (fm : Formatting.t) (piece_index offset : Z) :
  sorted_by line_key (lines fm) ->
  match get_line_at_position piece_index offset fm with
  | Some line =>
      line ∈ lines fm /\ key_le (line_key line) (piece_index, offset) = true /\
      forall x : LineMarker,
        x ∈ lines fm -> key_le (line_key x) (piece_index, offset) = true ->
        key_le (line_key x) (line_key line) = true
  | None =>
      forall x : LineMarker, x ∈ lines fm -> key_le (line_key x) (piece_index, offset) = false
  end.
Proof.
  unfold get_line_at_position, sorted_by.
  induction (lines fm) as [|x l IH] using rev_ind; intros Hsorted.
  - simpl. intros x Hx. inversion Hx.
  - rewrite reverse_app. simpl.
    apply StronglySorted_app in Hsorted as (Hlx & Hl & _).
    change (line_not_after piece_index offset x)
      with (key_le (line_key x) (piece_index, offset)).
    destruct (key_le (line_key x) (piece_index, offset)) eqn:Hx.
    + split_and!; [set_solver|first [reflexivity|exact Hx]|].
      intros y Hy _. apply elem_of_app in Hy as [Hy|Hy].
      * apply Hlx; [exact Hy|set_solver].
      * apply list_elem_of_singleton in Hy. subst y. apply key_le_refl.
    + specialize (IH Hl). destruct (find _ (reverse l)) as [line|].
      * destruct IH as (Hin & Hle & Hmax). split_and!; [set_solver|exact Hle|].
        intros y Hy Hyle. apply elem_of_app in Hy as [Hy|Hy]; [auto|].
        apply list_elem_of_singleton in Hy. subst y. congruence.
      * intros y Hy. apply elem_of_app in Hy as [Hy|Hy]; [auto|].
        apply list_elem_of_singleton in Hy. subst y. exact Hx.
Qed.

Lemma get_line_at_position_greatest_witness :
  let fm := add_line_marker (mkLine 0 0 "heading" ∅)
              (add_line_marker (mkLine 2 1 "bullet" ∅)
                 (add_line_marker (mkLine 1 4 "paragraph" ∅) (mk [] [] []))) in
  sorted_by line_key (lines fm) /\
  get_line_at_position 2 0 fm = Some (mkLine 1 4 "paragraph" ∅) /\
  forall x : LineMarker,
    x ∈ lines fm -> key_le (line_key x) (2, 0) = true ->
    key_le (line_key x) (1, 4) = true.
Proof.
  cbv zeta. set (fm := add_line_marker _ _).
  assert (Hs : sorted_by line_key (lines fm)).
  { unfold fm, add_line_marker, _sort_lines. cbn [lines]. apply stable_sort_sorted. }
  split; [exact Hs|].
  pose proof (get_line_at_position_greatest fm 2 0 Hs) as H.
  assert (Hget : get_line_at_position 2 0 fm = Some (mkLine 1 4 "paragraph" ∅))
    by (vm_compute; reflexivity).
  rewrite Hget in H. destruct H as (_ & _ & Hmax). split; [reflexivity|exact Hmax].
Defined.

(** X17. [get_styles_at_position] returns exactly the style ranges of the
    given piece that cover the offset. If no two overlapping ranges of the
    overlay name a common attribute, as [add_style] keeps it, no two of
    the returned ranges name a common attribute: every attribute at the
    position is set by at most one range. *)
Theorem get_styles_at_position_no_conflict (fm : Formatting.t) (piece_index offset : Z) :
  let found := get_styles_at_position piece_index offset fm in
  (forall s, s ∈ found <-> s ∈ styles fm /\ s_pieceIndex s = piece_index /\ covers s offset) /\
  (pairwise styles_apart (styles fm) ->
   pairwise (fun a b => dom (s_styles a) ∩ dom (s_styles b) = ∅) found).
Proof.
  cbv zeta. unfold get_styles_at_position.
  assert (Hin : forall s,
             s ∈ filter (fun style =>
                           (s_pieceIndex style =? piece_index) &&
                           ((s_offsetInPiece style <=? offset) &&
                            (offset <? s_offsetInPiece style + s_length style)))
                        (styles fm)
             <-> s ∈ styles fm /\ s_pieceIndex s = piece_index /\ covers s offset).
  { intros s. rewrite list_elem_of_filter. unfold covers.
    destruct (Z.eqb_spec (s_pieceIndex s) piece_index);
      destruct (Z.leb_spec (s_offsetInPiece s) offset);
      destruct (Z.ltb_spec offset (s_offsetInPiece s + s_length s)); simpl;
      intuition lia. }
  split; [exact Hin|].
  intros Hinv.
  assert (Himp : forall a b,
             (s_pieceIndex a = piece_index /\ covers a offset) ->
             (s_pieceIndex b = piece_index /\ covers b offset) ->
             styles_apart a b -> dom (s_styles a) ∩ dom (s_styles b) = ∅).
  { intros a b [Ha Hca] [Hb Hcb] Hab.
    assert (Hov : overlaps a b = true).
    { apply (overlaps_of_common_offset a b offset); [congruence|assumption|assumption]. }
    specialize (Hab Hov). unfold shares_key in Hab.
    apply bool_decide_eq_false in Hab.
    destruct (decide (dom (s_styles a) ∩ dom (s_styles b) = ∅)); [assumption|contradiction]. }
  refine (pairwise_strengthen _ _ _ _ Himp _ _).
  - apply Forall_forall. intros s Hs. apply Hin in Hs. tauto.
  - apply pairwise_filter. exact Hinv.
Qed.

End Overlay.

(* ===================================================================== *)
(** * The merge of two operations *)
(* ===================================================================== *)

Section Merging.

Import PieceTable DiffCalculator MergeService.

#[local] Arguments insert : simpl never.
#[local] Arguments len : simpl never.

Lemma str_inj (a b : string) : str a = str b -> a = b.
Proof.
  unfold str. intros H.
  rewrite <- (string_of_list_ascii_of_string a), <- (string_of_list_ascii_of_string b).
  rewrite H. reflexivity.
Qed.

Lemma is_type_str (a b : string) : is_type (VStr (str a)) b = bool_decide (a = b).
Proof.
  unfold is_type. apply bool_decide_ext. split.
  - intros H. apply str_inj. congruence.
  - intros ->. reflexivity.
Qed.

Lemma insert_op_moved p q c : <["position" := VInt q]> (insert_op p c) = insert_op q c.
Proof.
  unfold insert_op. rewrite (insert_insert_ne _ "type" "position") by discriminate.
  rewrite insert_insert_eq. reflexivity.
Qed.

Lemma combine_inserts (p1 p2 : Z) (c1 c2 : list ascii) :
  _combine_non_overlapping_diffs (PDict (insert_op p1 c1)) (PDict (insert_op p2 c2))
  = Ok (if p2 <? p1
        then Compound [PDict (insert_op p2 c2); PDict (insert_op (p1 + len c2) c1)]
        else Compound [PDict (insert_op p1 c1); PDict (insert_op (p2 + len c1) c2)]).
Proof.
  unfold _combine_non_overlapping_diffs, obj_getitem.
  change (getitem (insert_op p1 c1) "position") with (Ok (A := pyval) (VInt p1)).
  change (getitem (insert_op p2 c2) "position") with (Ok (A := pyval) (VInt p2)).
  cbn [Py.bind py_lt].
  destruct (p2 <? p1); unfold obj_getitem, obj_setitem.
  - change (getitem (insert_op p2 c2) "type") with (Ok (A := pyval) (VStr (str "insert"))).
    change (getitem (insert_op p2 c2) "content") with (Ok (A := pyval) (VStr c2)).
    change (getitem (insert_op p1 c1) "position") with (Ok (A := pyval) (VInt p1)).
    cbn [Py.bind py_len py_add]. rewrite is_type_refl. cbn [Py.bind py_len py_add].
    rewrite insert_op_moved. reflexivity.
  - change (getitem (insert_op p1 c1) "type") with (Ok (A := pyval) (VStr (str "insert"))).
    change (getitem (insert_op p1 c1) "content") with (Ok (A := pyval) (VStr c1)).
    change (getitem (insert_op p2 c2) "position") with (Ok (A := pyval) (VInt p2)).
    cbn [Py.bind py_len py_add]. rewrite is_type_refl. cbn [Py.bind py_len py_add].
    rewrite insert_op_moved. reflexivity.
Qed.

(** The merge of two insert operations: apart, both are kept, the one at
    the smaller position first and the other moved by its length;
    otherwise only the second one is left. *)
Lemma merge_diffs_inserts (p1 p2 : Z) (c1 c2 : list ascii) :
  _merge_diffs (PDict (insert_op p1 c1)) (PDict (insert_op p2 c2))
  = Ok (if (p1 + len c1 <=? p2) || (p2 + len c2 <=? p1)
        then if p2 <? p1
             then Compound [PDict (insert_op p2 c2); PDict (insert_op (p1 + len c2) c1)]
             else Compound [PDict (insert_op p1 c1); PDict (insert_op (p2 + len c1) c2)]
        else Single (PDict (insert_op p2 c2))).
Proof.
  unfold _merge_diffs, _changes_overlap, affected_len, obj_getitem, obj_get.
  change (getitem (insert_op p1 c1) "position") with (Ok (A := pyval) (VInt p1)).
  change (getitem (insert_op p2 c2) "position") with (Ok (A := pyval) (VInt p2)).
  change (getitem (insert_op p1 c1) "type") with (Ok (A := pyval) (VStr (str "insert"))).
  change (getitem (insert_op p2 c2) "type") with (Ok (A := pyval) (VStr (str "insert"))).
  cbn [Py.bind]. rewrite !is_type_refl.
  change (dict_get (insert_op p1 c1) "content" (VStr [])) with (VStr c1).
  change (dict_get (insert_op p2 c2) "content" (VStr [])) with (VStr c2).
  cbn [Py.bind py_len py_add py_le].
  destruct (p1 + len c1 <=? p2) eqn:H1; cbn [Py.bind orb negb].
  - apply combine_inserts.
  - destruct (p2 + len c2 <=? p1) eqn:H2; cbn [Py.bind orb negb].
    + apply combine_inserts.
    + unfold _resolve_conflict, obj_getitem.
      change (getitem (insert_op p1 c1) "type") with (Ok (A := pyval) (VStr (str "insert"))).
      cbn [Py.bind]. rewrite is_type_str.
      rewrite bool_decide_eq_false_2 by discriminate. reflexivity.
Qed.

End Merging.

Section MergingEffects.

Import PieceTable DiffCalculator MergeService.

#[local] Arguments insert : simpl never.
#[local] Arguments len : simpl never.

Lemma splice_nil (old : list ascii) pos : splice old pos [] = old.
Proof. unfold splice. simpl. apply take_drop. Qed.

Lemma len_splice (old text : list ascii) pos : len (splice old pos text) = len old + len text.
Proof.
  unfold splice. rewrite !len_app. rewrite <- (take_drop (Z.to_nat pos) old) at 3.
  rewrite len_app. lia.
Qed.

(** Two insertions at [a <= b] commute once the later one is moved by the
    length of the earlier one. *)
Lemma splice_splice (old x y : list ascii) (a b : Z) :
  0 <= a <= b -> b <= len old ->
  splice (splice old a x) (b + len x) y = splice (splice old b y) a x.
Proof.
  intros Hab Hb.
  rewrite <- (take_drop (Z.to_nat a) old).
  set (pre := take (Z.to_nat a) old). set (rest := drop (Z.to_nat a) old).
  assert (Hpre : len pre = a).
  { unfold pre, len in *. rewrite length_take. lia. }
  assert (Hrest : b - a <= len rest).
  { unfold rest, len in *. rewrite length_drop. lia. }
  rewrite <- (take_drop (Z.to_nat (b - a)) rest).
  set (mid := take (Z.to_nat (b - a)) rest). set (post := drop (Z.to_nat (b - a)) rest).
  assert (Hmid : len mid = b - a).
  { unfold mid, len in *. rewrite length_take. lia. }
  rewrite (splice_at pre (mid ++ post) x a) by lia.
  replace (pre ++ x ++ mid ++ post) with ((pre ++ x ++ mid) ++ post)
    by (rewrite <- !app_assoc; reflexivity).
  rewrite (splice_at (pre ++ x ++ mid) post y) by (rewrite !len_app; lia).
  replace (pre ++ mid ++ post) with ((pre ++ mid) ++ post)
    by (rewrite <- !app_assoc; reflexivity).
  rewrite (splice_at (pre ++ mid) post y b) by (rewrite len_app; lia).
  rewrite <- !app_assoc.
  rewrite (splice_at pre (mid ++ y ++ post) x a) by lia.
  reflexivity.
Qed.

Lemma insert_values_insert (p : Z) (s : list ascii) (t : PieceTable.t) :
  insert_values (VInt p) (VStr s) t = insert p s t.
Proof.
  unfold insert_values. destruct s as [|c s]; [reflexivity|].
  unfold bindM, get. destruct (pieces t) as [|q qs] eqn:Hps; [|reflexivity].
  unfold insert, bindM, get, _find_piece_at_position. rewrite Hps. reflexivity.
Qed.

Lemma apply_insert_op (p : Z) (c : list ascii) (t : PieceTable.t) :
  _apply_single_operation (PDict (insert_op p c)) t = insert p c t.
Proof.
  unfold _apply_single_operation, obj_getitem, bindM, lift.
  change (getitem (insert_op p c) "type") with (Ok (A := pyval) (VStr (str "insert"))).
  change (getitem (insert_op p c) "position") with (Ok (A := pyval) (VInt p)).
  cbv iota beta. rewrite is_type_refl.
  change (getitem (insert_op p c) "content") with (Ok (A := pyval) (VStr c)).
  cbv iota beta. apply insert_values_insert.
Qed.

Lemma doc_length_text t : wf t -> len (get_text t) = doc_length t.
Proof. intros [Hps _]. rewrite get_text_text_of. apply text_of_length. exact Hps. Qed.

Lemma apply_each_cons op rest t t1 :
  _apply_single_operation op t = (Ok tt, t1) ->
  apply_each (op :: rest) t = apply_each rest t1.
Proof. intros H. simpl. unfold bindM. rewrite H. reflexivity. Qed.

Lemma insert_returns t pos text :
  wf t -> insert pos text t = (Ok tt, snd (insert pos text t)).
Proof.
  intros Hwf. pose proof (insert_ok t pos text (proj2 Hwf)) as Hok.
  destruct (insert pos text t) as [r t1]. simpl in *. subst r. reflexivity.
Qed.

(** Two inserts one after the other. *)
Lemma insert_twice t (a b : Z) (x y : list ascii) :
  wf t -> 0 <= a <= doc_length t -> 0 <= b <= doc_length t + len x ->
  let r := apply_each [PDict (insert_op a x); PDict (insert_op b y)] t in
  fst r = Ok tt /\ get_text (snd r) = splice (splice (get_text t) a x) b y.
Proof.
  intros Hwf Ha Hb. cbv zeta.
  pose proof (insert_wf t a x Hwf) as Hwf1.
  pose proof (insert_text t a x Hwf Ha) as Htext1.
  set (t1 := snd (insert a x t)) in *.
  assert (Hlen1 : doc_length t1 = doc_length t + len x).
  { rewrite <- (doc_length_text t1 Hwf1), Htext1, len_splice, (doc_length_text t Hwf).
    reflexivity. }
  assert (Hb1 : 0 <= b <= doc_length t1) by lia.
  pose proof (insert_text t1 b y Hwf1 Hb1) as Htext2.
  rewrite (apply_each_cons _ _ t t1)
    by (rewrite apply_insert_op; apply insert_returns; exact Hwf).
  rewrite (apply_each_cons _ _ t1 (snd (insert b y t1)))
    by (rewrite apply_insert_op; apply insert_returns; exact Hwf1).
  simpl. split; [reflexivity|]. rewrite Htext2, Htext1. reflexivity.
Qed.

(** X18. Two insert operations whose ranges [(position, position +
    len(content))] do not overlap are merged into a compound of both, and
    applying the compound to a table as [_apply_merged_changes] does puts
    both texts at the positions they named in the original text; the
    result is the same whichever of the two is passed first. *)
Theorem merged_inserts_keep_both (t : PieceTable.t) (p1 p2 : Z) (c1 c2 : list ascii) :
  wf t -> 0 <= p1 -> p1 + len c1 <= p2 -> p2 <= doc_length t ->
  forall d1 d2,
    (d1 = insert_op p1 c1 /\ d2 = insert_op p2 c2) \/
    (d1 = insert_op p2 c2 /\ d2 = insert_op p1 c1) ->
    exists operations,
      _merge_diffs (PDict d1) (PDict d2) = Ok (Compound operations) /\
      fst (apply_each operations t) = Ok tt /\
      get_text (snd (apply_each operations t))
      = splice (splice (get_text t) p2 c2) p1 c1.
Proof.
  intros Hwf Hp1 Hapart Hp2 d1 d2 Hd.
  pose proof (len_nonneg c1) as Hc1. pose proof (len_nonneg c2) as Hc2.
  pose proof (doc_length_text t Hwf) as Hlen.
  assert (Hfirst : let r := apply_each [PDict (insert_op p1 c1);
                                        PDict (insert_op (p2 + len c1) c2)] t in
                   fst r = Ok tt /\
                   get_text (snd r) = splice (splice (get_text t) p2 c2) p1 c1).
  { destruct (insert_twice t p1 (p2 + len c1) c1 c2 Hwf) as [Hok Htext]; [lia|lia|].
    cbv zeta. split; [exact Hok|]. rewrite Htext. apply splice_splice; lia. }
  destruct Hd as [[-> ->]|[-> ->]]; rewrite merge_diffs_inserts.
  - destruct (Z.leb_spec (p1 + len c1) p2); [|lia]. cbn [orb].
    destruct (Z.ltb_spec p2 p1); [lia|].
    eexists. split; [reflexivity|]. exact Hfirst.
  - destruct (Z.leb_spec (p1 + len c1) p2); [|lia]. rewrite orb_true_r.
    destruct (Z.ltb_spec p1 p2).
    + eexists. split; [reflexivity|]. exact Hfirst.
    + assert (p1 = p2) by lia. assert (Hnil : c1 = []).
      { destruct c1; [reflexivity|]. rewrite len_cons in *. pose proof (len_nonneg c1). lia. }
      subst p2 c1. eexists. split; [reflexivity|].
      destruct (insert_twice t p1 (p1 + len c2) c2 [] Hwf) as [Hok Htext]; [lia|lia|].
      split; [exact Hok|]. rewrite Htext, !splice_nil. reflexivity.
Qed.

Lemma merged_inserts_keep_both_witness :
  let t := table_of "abcdef" in
  wf t /\ 0 <= 1 /\ 1 + len (str "X") <= 4 /\ 4 <= doc_length t /\
  exists operations,
    _merge_diffs (PDict (insert_op 4 (str "Y"))) (PDict (insert_op 1 (str "X")))
    = Ok (Compound operations) /\
    fst (apply_each operations t) = Ok tt /\
    get_text (snd (apply_each operations t)) = str "aXbcdYef".
Proof.
  cbv zeta.
  assert (Hwf : wf (table_of "abcdef")) by wf_by_evaluation.
  split; [exact Hwf|]. split; [lia|]. split; [vm_compute; discriminate|].
  split; [vm_compute; discriminate|].
  destruct (merged_inserts_keep_both (table_of "abcdef") 1 4 (str "X") (str "Y") Hwf
              ltac:(lia) ltac:(vm_compute; discriminate) ltac:(vm_compute; discriminate)
              (insert_op 4 (str "Y")) (insert_op 1 (str "X"))
              (or_intror (conj eq_refl eq_refl)))
    as (operations & Hmerge & Hok & Htext).
  exists operations. split; [exact Hmerge|]. split; [exact Hok|].
  rewrite Htext. vm_compute. reflexivity.
Defined.

(** X19. Two insert operations whose ranges overlap - two non-empty
    inserts at the same position, for one - are merged into the second
    operation alone: applying the result inserts the second text and the
    first text is not in the document. *)
Theorem overlapping_inserts_keep_only_the_change
  (t : PieceTable.t) (p1 p2 : Z) (c1 c2 : list ascii) :
  wf t -> p1 < p2 + len c2 -> p2 < p1 + len c1 -> 0 <= p2 <= doc_length t ->
  _merge_diffs (PDict (insert_op p1 c1)) (PDict (insert_op p2 c2))
  = Ok (Single (PDict (insert_op p2 c2))) /\
  merged_truthy (Single (PDict (insert_op p2 c2))) = true /\
  let r := _apply_single_operation (PDict (insert_op p2 c2)) t in
  fst r = Ok tt /\ get_text (snd r) = splice (get_text t) p2 c2.
Proof.
  intros Hwf H1 H2 Hp2. split_and!.
  - rewrite merge_diffs_inserts.
    destruct (Z.leb_spec (p1 + len c1) p2); [lia|].
    destruct (Z.leb_spec (p2 + len c2) p1); [lia|]. reflexivity.
  - unfold merged_truthy. rewrite bool_decide_eq_false_2; [reflexivity|].
    intros Hempty. assert (Hty : insert_op p2 c2 !! "type" = None)
      by (rewrite Hempty; apply lookup_empty).
    discriminate Hty.
  - cbv zeta. rewrite apply_insert_op. split.
    + apply insert_ok. apply Hwf.
    + apply insert_text; assumption.
Qed.

Lemma overlapping_inserts_keep_only_the_change_witness :
  let t := table_of "abcdef" in
  wf t /\ 2 < 2 + len (str "Y") /\ 2 < 2 + len (str "X") /\ 0 <= 2 <= doc_length t /\
  _merge_diffs (PDict (insert_op 2 (str "X"))) (PDict (insert_op 2 (str "Y")))
  = Ok (Single (PDict (insert_op 2 (str "Y")))) /\
  get_text (snd (_apply_single_operation (PDict (insert_op 2 (str "Y"))) t))
  = str "abYcdef".
Proof.
  cbv zeta.
  assert (Hwf : wf (table_of "abcdef")) by wf_by_evaluation.
  assert (H1 : 2 < 2 + len (str "Y")) by (vm_compute; reflexivity).
  assert (H2 : 2 < 2 + len (str "X")) by (vm_compute; reflexivity).
  assert (H3 : 0 <= 2 <= doc_length (table_of "abcdef"))
    by (split; vm_compute; discriminate).
  destruct (overlapping_inserts_keep_only_the_change (table_of "abcdef") 2 2
              (str "X") (str "Y") Hwf H1 H2 H3) as (Hmerge & _ & Hrun).
  cbv zeta in Hrun. destruct Hrun as [_ Htext].
  split_and!; try assumption; try apply H3.
Defined.

(** X20. A recorded [Change], turned into a dictionary by
    [_change_to_diff], is applied by [_apply_single_operation] only if it is
    an insert: the dictionary has no ['length'], so a delete raises
    [KeyError]; a style change raises [NameError]; any other type does
    nothing. An insert whose content is [None] does nothing either. *)
Theorem change_is_applied_only_as_insert (change : Change.t) (t : PieceTable.t) :
  let r := _apply_single_operation (PDict (_change_to_diff change)) t in
  let type := Change.operation_type change in
  (type = "insert" ->
   r = insert (Change.position change) (default [] (Change.content change)) t) /\
  (type = "delete" -> r = (Raise KeyError, t)) /\
  (type = "style" -> r = (Raise NameError, t)) /\
  (type <> "insert" -> type <> "delete" -> type <> "style" -> r = (Ok tt, t)).
Proof.
  cbv zeta. destruct change as [v ty pos content attrs]. cbn [Change.operation_type
    Change.position Change.content].
  unfold _apply_single_operation, obj_getitem, bindM, lift, _change_to_diff.
  cbn [Change.operation_type Change.position Change.content Change.attributes].
  set (d := {[ "type" := VStr (str ty); "position" := VInt pos;
               "content" := match content with Some s => VStr s | None => VNone end;
               "attributes" := match attrs with Some a => VDict a | None => VNone end ]}
            : pydict).
  change (getitem d "type") with (Ok (A := pyval) (VStr (str ty))).
  change (getitem d "position") with (Ok (A := pyval) (VInt pos)).
  change (getitem d "content")
    with (Ok (A := pyval) (match content with Some s => VStr s | None => VNone end)).
  change (getitem d "length") with (Raise (A := pyval) KeyError).
  cbv iota beta. rewrite !is_type_str. split_and!.
  - intros ->. rewrite bool_decide_eq_true_2 by reflexivity.
    destruct content as [s|]; [apply insert_values_insert|reflexivity].
  - intros ->. rewrite bool_decide_eq_false_2 by discriminate.
    rewrite bool_decide_eq_true_2 by reflexivity. reflexivity.
  - intros ->. rewrite !bool_decide_eq_false_2 by discriminate.
    rewrite bool_decide_eq_true_2 by reflexivity.
    unfold _apply_style, obj_getitem, bindM, lift, get, raise.
    change (getitem d "position") with (Ok (A := pyval) (VInt pos)). cbv iota beta.
    destruct (pieces t); reflexivity.
  - intros H1 H2 H3. rewrite !bool_decide_eq_false_2 by assumption. reflexivity.
Qed.

End MergingEffects.

Section Session.

Import MergeService DocumentConsumer.

Lemma apply_change_result (change : Change.t) (st : store) :
  apply_change change st = (Ok false, st) \/ apply_change change st = (Raise NameError, st).
Proof.
  unfold apply_change, bindM, get.
  destruct (Db.first_version (Change.source_version change) (snd st)); [right|left];
    reflexivity.
Qed.

(** X21. [handle_operation] never sends a [document_change] event to the
    group and never changes the document or its stored versions. A stale
    operation gets a [sync_required] frame; an operation on the current
    version is recorded as a [Change] row, and then [apply_change] either
    returns [False] for want of the base version or raises [NameError]
    when it asks the document for its piece table. *)
Theorem handle_operation_never_broadcasts (user_id : string) (data : data_t) (w : world) :
  let r := handle_operation user_id data w in
  let w' := snd r in
  group_sent w' = group_sent w /\
  Db.document (db w') = Db.document (db w) /\
  Db.versions (db w') = Db.versions (db w) /\
  ((fst r = Ok tt /\ Db.changes (db w') = Db.changes (db w) /\
    sent w' = sent w ++ [sync_required (Document.current_version (Db.document (db w)))]) \/
   ((fst r = Ok tt \/ fst r = Raise NameError) /\
    Db.changes (db w') = Db.changes (db w) ++ [create_change data] /\
    sent w' = sent w)).
Proof.
  cbv zeta. unfold handle_operation, bindM, get.
  destruct (negb (PrimFloat.eqb (sourceVersion data)
                    (Document.current_version (Db.document (db w))))).
  - simpl. split_and!; try reflexivity. left. split_and!; reflexivity.
  - destruct (apply_change_result (create_change data)
                (Db.document (db w), Db.create_change (create_change data) (db w)))
      as [H|H]; rewrite H; simpl; split_and!; try reflexivity; right;
      split_and!; auto.
Qed.

End Session.

(* ===================================================================== *)
(** * The diff of two texts *)
(* ===================================================================== *)

Section Lcs.

Import DiffCalculator.

Context (seq1 seq2 : list ascii) (dp : list (list Z)).

Lemma backtrack_spec (fuel : nat) : forall (i j : nat) (acc : list (nat * nat)),
  (i <= length seq1)%nat -> (j <= length seq2)%nat ->
  exists found,
    backtrack fuel seq1 seq2 dp i j acc = acc ++ found /\
    Forall (fun p => (fst p < i)%nat /\ (snd p < j)%nat /\
                     seq1 !! fst p = seq2 !! snd p) found /\
    StronglySorted descending found.
Proof.
  induction fuel as [|fuel IH]; intros i j acc Hi Hj.
  { exists []. simpl. rewrite app_nil_r. split_and!; constructor. }
  simpl. destruct (Nat.ltb_spec 0 i) as [Hi0|Hi0]; cycle 1.
  { exists []. simpl. rewrite app_nil_r. split_and!; constructor. }
  destruct (Nat.ltb_spec 0 j) as [Hj0|Hj0]; cycle 1.
  { exists []. simpl. rewrite app_nil_r. split_and!; constructor. }
  simpl. destruct (same_at seq1 seq2 i j) eqn:Hsame.
  - destruct (IH (i - 1)%nat (j - 1)%nat (acc ++ [((i - 1)%nat, (j - 1)%nat)]))
      as (found & Heq & Hall & Hsorted); [lia|lia|].
    exists (((i - 1)%nat, (j - 1)%nat) :: found). split_and!.
    + rewrite Heq, <- app_assoc. reflexivity.
    + constructor.
      * simpl. split_and!; [lia|lia|]. unfold same_at in Hsame.
        apply bool_decide_eq_true in Hsame. exact Hsame.
      * eapply Forall_impl; [exact Hall|]. intros p (H1 & H2 & H3).
        split_and!; [lia|lia|exact H3].
    + constructor; [exact Hsorted|].
      eapply Forall_impl; [exact Hall|]. intros p (H1 & H2 & _).
      unfold descending. simpl. lia.
  - destruct (dp_get dp i (j - 1) <? dp_get dp (i - 1) j).
    + destruct (IH (i - 1)%nat j acc) as (found & Heq & Hall & Hsorted); [lia|lia|].
      exists found. split_and!; [exact Heq| |exact Hsorted].
      eapply Forall_impl; [exact Hall|]. intros p (H1 & H2 & H3).
      split_and!; [lia|lia|exact H3].
    + destruct (IH i (j - 1)%nat acc) as (found & Heq & Hall & Hsorted); [lia|lia|].
      exists found. split_and!; [exact Heq| |exact Hsorted].
      eapply Forall_impl; [exact Hall|]. intros p (H1 & H2 & H3).
      split_and!; [lia|lia|exact H3].
Qed.

(** The loop has ended after [i + j] iterations. *)
Lemma backtrack_fuel (fuel : nat) : forall (i j extra : nat) (acc : list (nat * nat)),
  (i + j <= fuel)%nat ->
  backtrack (fuel + extra) seq1 seq2 dp i j acc = backtrack fuel seq1 seq2 dp i j acc.
Proof.
  induction fuel as [|fuel IH]; intros i j extra acc Hfuel.
  - assert (i = 0%nat) by lia. subst i. destruct extra; reflexivity.
  - simpl. destruct (Nat.ltb_spec 0 i) as [Hi0|Hi0]; [|reflexivity].
    destruct (Nat.ltb_spec 0 j) as [Hj0|Hj0]; [|reflexivity]. simpl.
    destruct (same_at seq1 seq2 i j).
    + apply IH. lia.
    + destruct (dp_get dp i (j - 1) <? dp_get dp (i - 1) j); apply IH; lia.
Qed.

End Lcs.

Lemma sorted_reverse {A} (R : A -> A -> Prop) (l : list A) :
  StronglySorted R l -> StronglySorted (fun x y => R y x) (reverse l).
Proof.
  induction 1 as [|x l Hl IH Hx]; [constructor|].
  rewrite reverse_cons. apply StronglySorted_app. split_and!.
  - intros a b Ha Hb. apply list_elem_of_singleton in Hb. subst b.
    rewrite elem_of_reverse in Ha. rewrite Forall_forall in Hx. apply Hx. exact Ha.
  - exact IH.
  - repeat constructor.
Qed.

Section LcsSound.

Import DiffCalculator.

Lemma get_lcs_sound (seq1 seq2 : list ascii) :
  common_subsequence seq1 seq2 (_get_lcs seq1 seq2).
Proof.
  unfold _get_lcs, common_subsequence.
  destruct (backtrack_spec seq1 seq2 (fill_table seq1 seq2)
              (length seq1 + length seq2) (length seq1) (length seq2) [])
    as (found & Heq & Hall & Hsorted); [lia|lia|].
  cbv zeta. rewrite Heq. simpl. split.
  - apply Forall_reverse. eapply Forall_impl; [exact Hall|].
    intros [a b] (Ha & Hb & Hsame). simpl in *.
    destruct (lookup_lt_is_Some_2 seq1 a ltac:(lia)) as [c Hc].
    exists c. split; [exact Hc|]. rewrite <- Hsame. exact Hc.
  - apply (sorted_reverse _ _ Hsorted).
Qed.

(** X22. [_get_lcs] returns index pairs of equal characters, in range of
    both sequences and strictly increasing in both components: a common
    subsequence. The backtracking loop ends within [len(seq1) + len(seq2)]
    iterations. *)
Theorem get_lcs_common_subsequence (seq1 seq2 : list ascii) :
  common_subsequence seq1 seq2 (_get_lcs seq1 seq2) /\
  forall extra : nat,
    backtrack (length seq1 + length seq2 + extra) seq1 seq2 (fill_table seq1 seq2)
              (length seq1) (length seq2) []
    = reverse (_get_lcs seq1 seq2).
Proof.
  split; [apply get_lcs_sound|].
  intros extra. unfold _get_lcs. cbv zeta.
  rewrite backtrack_fuel by lia. rewrite reverse_involutive. reflexivity.
Qed.

End LcsSound.

Section Optimizing.

Import DiffCalculator.

#[local] Arguments len : simpl never.

Lemma delete_run_one p : delete_run p 1 = delete_op p.
Proof. unfold delete_run, delete_op. vm_compute. reflexivity. Qed.

Lemma abuts_deletes q m p n :
  abuts (delete_run q m) (delete_run p n) = Ok (bool_decide (q = p + n)).
Proof.
  unfold abuts, extent.
  change (getitem (delete_run q m) "type") with (Ok (A := pyval) (VStr (str "delete"))).
  change (getitem (delete_run p n) "type") with (Ok (A := pyval) (VStr (str "delete"))).
  change (getitem (delete_run q m) "position") with (Ok (A := pyval) (VInt q)).
  change (getitem (delete_run p n) "position") with (Ok (A := pyval) (VInt p)).
  change (dict_get (delete_run p n) "content" (VStr [])) with (VStr []).
  cbn [Py.bind py_len]. rewrite bool_decide_eq_true_2 by reflexivity.
  change (dict_get (delete_run p n) "length" (VInt (len (@nil ascii)))) with (VInt n).
  cbn [Py.bind py_add]. f_equal. apply bool_decide_ext. split; congruence.
Qed.

Lemma abuts_inserts q s' p s :
  abuts (insert_op q s') (insert_op p s) = Ok (bool_decide (q = p + len s)).
Proof.
  unfold abuts, extent.
  change (getitem (insert_op q s') "type") with (Ok (A := pyval) (VStr (str "insert"))).
  change (getitem (insert_op p s) "type") with (Ok (A := pyval) (VStr (str "insert"))).
  change (getitem (insert_op q s') "position") with (Ok (A := pyval) (VInt q)).
  change (getitem (insert_op p s) "position") with (Ok (A := pyval) (VInt p)).
  change (dict_get (insert_op p s) "content" (VStr [])) with (VStr s).
  cbn [Py.bind py_len]. rewrite bool_decide_eq_true_2 by reflexivity.
  change (dict_get (insert_op p s) "length" (VInt (len s))) with (VInt (len s)).
  cbn [Py.bind py_add]. f_equal. apply bool_decide_ext. split; congruence.
Qed.

Lemma abuts_delete_insert q m p s : abuts (delete_run q m) (insert_op p s) = Ok false.
Proof. reflexivity. Qed.

Lemma abuts_insert_delete q s p n : abuts (insert_op q s) (delete_run p n) = Ok false.
Proof. reflexivity. Qed.

Lemma absorb_deletes q m p n :
  absorb (delete_run q m) (delete_run p n) = Ok (delete_run p (n + m)).
Proof.
  unfold absorb.
  change (getitem (delete_run q m) "type") with (Ok (A := pyval) (VStr (str "delete"))).
  cbn [Py.bind]. rewrite is_type_refl.
  change (getitem (delete_run p n) "length") with (Ok (A := pyval) (VInt n)).
  change (getitem (delete_run q m) "length") with (Ok (A := pyval) (VInt m)).
  cbn [Py.bind py_add]. unfold delete_run. rewrite insert_insert_eq. reflexivity.
Qed.

Lemma absorb_inserts q s' p s :
  absorb (insert_op q s') (insert_op p s) = Ok (insert_op p (s ++ s')).
Proof.
  unfold absorb.
  change (getitem (insert_op q s') "type") with (Ok (A := pyval) (VStr (str "insert"))).
  cbn [Py.bind].
  change (is_type (VStr (str "insert")) "delete") with false. cbv iota.
  change (getitem (insert_op p s) "content") with (Ok (A := pyval) (VStr s)).
  change (getitem (insert_op q s') "content") with (Ok (A := pyval) (VStr s')).
  cbn [Py.bind py_add]. reflexivity.
Qed.

(** On text operations the loop of [_optimize_operations] does not raise. *)
Lemma optimize_loop_text_ops (ops : list pydict) :
  Forall is_text_op ops ->
  forall optimized current_op,
    Forall is_text_op optimized -> is_text_op current_op ->
    exists r, optimize_loop ops optimized current_op = Ok r /\ Forall is_text_op r.
Proof.
  induction 1 as [|op ops Hop Hops IH]; intros optimized cur Hacc Hcur.
  { simpl. eexists. split; [reflexivity|]. apply Forall_app. split; [assumption|].
    constructor; [assumption|constructor]. }
  assert (Hstep : (abuts op cur = Ok false) \/
                  (abuts op cur = Ok true /\ exists c, absorb op cur = Ok c /\ is_text_op c)).
  { destruct Hop as [(q & m & ->)|(q & s' & ->)];
      destruct Hcur as [(p & n & ->)|(p & s & ->)].
    - rewrite abuts_deletes. destruct (bool_decide (q = p + n)); [right|left; reflexivity].
      split; [reflexivity|]. rewrite absorb_deletes. eexists. split; [reflexivity|].
      left. eauto.
    - left. reflexivity.
    - left. reflexivity.
    - rewrite abuts_inserts. destruct (bool_decide (q = p + len s)); [right|left; reflexivity].
      split; [reflexivity|]. rewrite absorb_inserts. eexists. split; [reflexivity|].
      right. eauto. }
  simpl. destruct Hstep as [Hab|(Hab & c & Hc & Htc)]; rewrite Hab; cbn [Py.bind].
  - apply IH; [|exact Hop]. apply Forall_app. split; [assumption|].
    constructor; [assumption|constructor].
  - rewrite Hc. cbn [Py.bind]. apply IH; assumption.
Qed.

Lemma optimize_text_ops (ops : list pydict) :
  Forall is_text_op ops ->
  exists r, _optimize_operations ops = Ok r /\ Forall is_text_op r.
Proof.
  intros Hops. destruct Hops as [|op ops Hop Hops].
  - exists []. split; [reflexivity|constructor].
  - simpl. apply optimize_loop_text_ops; [assumption|constructor|assumption].
Qed.

(** A run of single deletes at consecutive positions becomes one delete. *)
Lemma optimize_loop_delete_run (count : nat) : forall (a : nat) (p n : Z) optimized,
  p + n = Z.of_nat a ->
  optimize_loop (map (fun k => delete_op (Z.of_nat k)) (seq a count)) optimized
                (delete_run p n)
  = Ok (optimized ++ [delete_run p (n + Z.of_nat count)]).
Proof.
  induction count as [|count IH]; intros a p n optimized Ha.
  { simpl. rewrite Z.add_0_r. reflexivity. }
  cbn [seq map optimize_loop]. rewrite <- (delete_run_one (Z.of_nat a)).
  rewrite abuts_deletes, bool_decide_eq_true_2 by lia. cbn [Py.bind].
  rewrite absorb_deletes. cbn [Py.bind]. rewrite (IH (S a)) by lia.
  replace (n + 1 + Z.of_nat count) with (n + Z.of_nat (S count)) by lia. reflexivity.
Qed.

(** A run of single-character inserts at consecutive positions becomes
    one insert of the whole text. *)
Lemma optimize_loop_insert_run (chars : list ascii) : forall (a : nat) (p : Z) s optimized,
  p + len s = Z.of_nat a ->
  optimize_loop (imap (fun k ch => insert_op (Z.of_nat (a + k)) [ch]) chars) optimized
                (insert_op p s)
  = Ok (optimized ++ [insert_op p (s ++ chars)]).
Proof.
  induction chars as [|ch chars IH]; intros a p s optimized Ha.
  { simpl. rewrite app_nil_r. reflexivity. }
  rewrite imap_cons. cbn [optimize_loop]. rewrite Nat.add_0_r.
  rewrite abuts_inserts, bool_decide_eq_true_2 by lia. cbn [Py.bind].
  rewrite absorb_inserts. cbn [Py.bind].
  rewrite (imap_ext _ (fun k ch => insert_op (Z.of_nat (S a + k)) [ch]))
    by (intros k x _; simpl; do 2 f_equal; lia).
  assert (Hlen : len (s ++ [ch]) = len s + 1)
    by (unfold len; rewrite length_app, Nat2Z.inj_add; reflexivity).
  rewrite (IH (S a)) by lia.
  rewrite <- app_assoc. reflexivity.
Qed.

End Optimizing.

Section Generating.

Import PieceTable DiffCalculator.

#[local] Arguments len : simpl never.
#[local] Arguments index : simpl never.

Lemma emit_inserts_run (chars : list ascii) : forall (pre post : list ascii),
  emit_inserts (pre ++ chars ++ post) (length pre) (length chars)
  = Ok (imap (fun k ch => insert_op (Z.of_nat (length pre + k)) [ch]) chars).
Proof.
  induction chars as [|ch chars IH]; intros pre post; [reflexivity|].
  change ((ch :: chars) ++ post) with (ch :: (chars ++ post)).
  cbn [length emit_inserts].
  rewrite index_in_range
    by (unfold len; rewrite length_app; simpl; lia).
  rewrite Nat2Z.id, lookup_app_r, Nat.sub_diag by lia. cbn [lookup list_lookup Py.bind].
  specialize (IH (pre ++ [ch]) post). rewrite <- app_assoc in IH. simpl in IH.
  rewrite length_app in IH. simpl in IH. rewrite Nat.add_1_r in IH. rewrite IH.
  cbn [Py.bind]. rewrite imap_cons, Nat.add_0_r. do 2 f_equal.
  apply imap_ext. intros k x _. simpl. do 2 f_equal. lia.
Qed.

Lemma emit_inserts_text_ops (target : list ascii) (target_pos count : nat) :
  (target_pos + count <= length target)%nat ->
  exists ins, emit_inserts target target_pos count = Ok ins /\ Forall is_text_op ins.
Proof.
  intros Hrange.
  rewrite <- (take_drop target_pos target).
  rewrite <- (take_drop count (drop target_pos target)).
  set (pre := take target_pos target) in *.
  set (chars := take count (drop target_pos target)) in *.
  assert (Hpre : length pre = target_pos) by (unfold pre; rewrite length_take; lia).
  assert (Hchars : length chars = count)
    by (unfold chars; rewrite length_take, length_drop; lia).
  pose proof (emit_inserts_run chars pre (drop count (drop target_pos target))) as Hrun.
  rewrite Hpre, Hchars in Hrun. rewrite Hrun.
  eexists. split; [reflexivity|].
  apply Forall_forall. intros d Hd. apply elem_of_lookup_imap in Hd as (k & ch & -> & _).
  right. eauto.
Qed.

Lemma emit_deletes_text_ops (source_pos upto : nat) :
  Forall is_text_op (emit_deletes source_pos upto).
Proof.
  unfold emit_deletes. apply Forall_forall. intros d Hd.
  apply list_elem_of_fmap in Hd as (k & -> & _). left. exists (Z.of_nat k), 1.
  symmetry. apply delete_run_one.
Qed.

Lemma generate_loop_text_ops (target : list ascii) (lcs : list (nat * nat)) :
  StronglySorted (fun x y => (fst x < fst y)%nat /\ (snd x < snd y)%nat) lcs ->
  forall operations (source_pos target_pos : nat),
    Forall (fun p => (target_pos <= snd p < length target)%nat) lcs ->
    (target_pos <= length target)%nat ->
    Forall is_text_op operations ->
    exists operations' source_pos' target_pos',
      generate_loop target lcs operations source_pos target_pos
      = Ok (operations', source_pos', target_pos') /\
      Forall is_text_op operations' /\ (target_pos' <= length target)%nat.
Proof.
  induction 1 as [|[ls lt] lcs Hsorted IH Hfirst];
    intros operations sp tp Hrange Htp Hops.
  { simpl. eauto 6. }
  inversion Hrange as [|? ? [Hlo Hhi] Hrest]; subst. simpl in Hlo, Hhi.
  cbn [generate_loop].
  destruct (emit_inserts_text_ops target tp (lt - tp)) as (ins & Hins & Hins_ok); [lia|].
  rewrite Hins. cbn [Py.bind]. apply IH.
  - rewrite Forall_forall in Hfirst, Hrest. apply Forall_forall. intros p Hp.
    specialize (Hfirst p Hp). specialize (Hrest p Hp). simpl in Hfirst. lia.
  - lia.
  - apply Forall_app. split; [assumption|]. apply Forall_app. split; [|assumption].
    apply emit_deletes_text_ops.
Qed.

Lemma generate_operations_text_ops (source target : list ascii) :
  exists operations,
    _generate_operations source target (_get_lcs source target) = Ok operations /\
    Forall is_text_op operations.
Proof.
  destruct (get_lcs_sound source target) as [Hall Hsorted].
  unfold _generate_operations.
  destruct (generate_loop_text_ops target (_get_lcs source target) Hsorted [] 0 0)
    as (ops & sp & tp & Hloop & Hops & Htp); [|lia|constructor|].
  { eapply Forall_impl; [exact Hall|]. intros p (c & _ & Hc).
    apply lookup_lt_Some in Hc. lia. }
  rewrite Hloop. cbn [Py.bind].
  destruct (emit_inserts_text_ops target tp (length target - tp)) as (ins & Hins & Hins_ok);
    [lia|].
  rewrite Hins. cbn [Py.bind]. apply optimize_text_ops.
  apply Forall_app. split; [assumption|]. apply Forall_app. split; [|assumption].
  apply emit_deletes_text_ops.
Qed.

Lemma compare_styles_result (source target : PieceTable.t) :
  _compare_styles source target
  = match styles source, styles target with
    | [], [] => Ok []
    | _, _ => Raise AttributeError
    end.
Proof.
  unfold _compare_styles.
  destruct (styles target) as [|ts trest]; destruct (styles source) as [|s rest];
    reflexivity.
Qed.

Lemma compare_lines_result (source target : PieceTable.t) :
  _compare_lines source target
  = match lines source, lines target with
    | [], [] => Ok []
    | _, _ => Raise AttributeError
    end.
Proof.
  unfold _compare_lines.
  destruct (lines target) as [|ts trest]; destruct (lines source) as [|s rest];
    reflexivity.
Qed.

(** X23. [create_diff] never reports a style or line change. Between two
    tables without style and line entries it returns the text operations
    computed from the two texts, each a delete or an insert; as soon as
    either table holds a style or a line entry it raises [AttributeError],
    because the comparison reads attributes the entries do not have. *)
Theorem create_diff_text_only (source target : PieceTable.t) :
  exists operations,
    _generate_operations (get_text source) (get_text target)
                         (_get_lcs (get_text source) (get_text target)) = Ok operations /\
    Forall is_text_op operations /\
    create_diff source target
    = match styles source, styles target, lines source, lines target with
      | [], [], [], [] => Ok operations
      | _, _, _, _ => Raise AttributeError
      end.
Proof.
  destruct (generate_operations_text_ops (get_text source) (get_text target))
    as (operations & Hgen & Hops).
  exists operations. split; [exact Hgen|]. split; [exact Hops|].
  unfold create_diff. cbv zeta. rewrite Hgen. cbn [Py.bind].
  rewrite compare_styles_result, compare_lines_result.
  destruct (styles source), (styles target), (lines source), (lines target);
    cbn [Py.bind]; rewrite ?app_nil_r; reflexivity.
Qed.

End Generating.

Section DiffEdges.

Import PieceTable DiffCalculator.

#[local] Arguments len : simpl never.

Lemma backtrack_same (s : list ascii) (dp : list (list Z)) (i : nat) :
  forall (fuel : nat) (acc : list (nat * nat)),
    (i <= fuel)%nat ->
    backtrack fuel s s dp i i acc = acc ++ map (fun k => (k, k)) (reverse (seq 0 i)).
Proof.
  induction i as [|i IH]; intros fuel acc Hfuel.
  { destruct fuel; simpl; rewrite app_nil_r; reflexivity. }
  destruct fuel as [|fuel]; [lia|].
  cbn [backtrack]. change (0 <? S i)%nat with true. cbn [andb].
  unfold same_at at 1. rewrite bool_decide_eq_true_2 by reflexivity.
  replace (S i - 1)%nat with i by lia. rewrite IH by lia.
  rewrite seq_S, reverse_app. simpl. rewrite <- app_assoc. reflexivity.
Qed.

Lemma get_lcs_same (s : list ascii) :
  _get_lcs s s = map (fun k => (k, k)) (seq 0 (length s)).
Proof.
  unfold _get_lcs. cbv zeta. rewrite backtrack_same by lia. simpl.
  rewrite <- fmap_reverse, reverse_involutive. reflexivity.
Qed.

Lemma get_lcs_nil_l (s : list ascii) : _get_lcs [] s = [].
Proof. unfold _get_lcs. simpl. destruct (length s); reflexivity. Qed.

Lemma get_lcs_nil_r (s : list ascii) : _get_lcs s [] = [].
Proof.
  unfold _get_lcs. simpl. destruct (length s + 0)%nat eqn:Hfuel; [reflexivity|].
  simpl. rewrite andb_false_r. reflexivity.
Qed.

Lemma generate_loop_diagonal (target : list ascii) (count : nat) :
  forall (a : nat) operations,
    generate_loop target (map (fun k => (k, k)) (seq a count)) operations a a
    = Ok (operations, (a + count)%nat, (a + count)%nat).
Proof.
  induction count as [|count IH]; intros a operations.
  { simpl. rewrite Nat.add_0_r. reflexivity. }
  cbn [seq map generate_loop]. unfold emit_deletes. rewrite Nat.sub_diag.
  cbn [seq map emit_inserts Py.bind]. rewrite !app_nil_r, Nat.max_id, IH.
  replace (S a + count)%nat with (a + S count)%nat by lia. reflexivity.
Qed.

Lemma generate_same (s : list ascii) : _generate_operations s s (_get_lcs s s) = Ok [].
Proof.
  unfold _generate_operations. rewrite get_lcs_same, generate_loop_diagonal.
  cbn [Py.bind Nat.add]. unfold emit_deletes. rewrite Nat.sub_diag. reflexivity.
Qed.

Lemma generate_from_empty (s : list ascii) :
  s <> [] -> _generate_operations [] s (_get_lcs [] s) = Ok [insert_op 0 s].
Proof.
  intros Hne. unfold _generate_operations. rewrite get_lcs_nil_l.
  cbn [generate_loop Py.bind length]. unfold emit_deletes. cbn [Nat.sub seq map app].
  rewrite Nat.sub_0_r.
  pose proof (emit_inserts_run s [] []) as Hrun. rewrite app_nil_r in Hrun.
  cbn [app length Nat.add] in Hrun. rewrite Hrun. cbn [Py.bind].
  destruct s as [|ch s]; [contradiction|].
  rewrite imap_cons. cbn [_optimize_operations].
  rewrite (imap_ext _ (fun k c => insert_op (Z.of_nat (1 + k)) [c]))
    by (intros k x _; reflexivity).
  rewrite (optimize_loop_insert_run s 1 0 [ch]) by reflexivity. reflexivity.
Qed.

Lemma generate_to_empty (s : list ascii) :
  s <> [] -> _generate_operations s [] (_get_lcs s []) = Ok [delete_run 0 (len s)].
Proof.
  intros Hne. unfold _generate_operations. rewrite get_lcs_nil_r.
  cbn [generate_loop Py.bind length emit_inserts Nat.sub]. rewrite app_nil_r.
  unfold emit_deletes. rewrite Nat.sub_0_r. cbn [app].
  destruct s as [|ch s]; [contradiction|]. cbn [length seq map _optimize_operations].
  rewrite <- delete_run_one.
  rewrite (optimize_loop_delete_run (length s) 1 0 1) by reflexivity.
  unfold len. cbn [length]. rewrite Nat2Z.inj_succ. cbn [app].
  replace (1 + Z.of_nat (length s)) with (Z.succ (Z.of_nat (length s))) by lia.
  reflexivity.
Qed.

Lemma create_diff_plain (source target : PieceTable.t) :
  styles source = [] -> lines source = [] -> styles target = [] -> lines target = [] ->
  create_diff source target
  = _generate_operations (get_text source) (get_text target)
                         (_get_lcs (get_text source) (get_text target)).
Proof.
  intros Hss Hls Hst Hlt. unfold create_diff. cbv zeta.
  rewrite compare_styles_result, compare_lines_result, Hss, Hls, Hst, Hlt.
  destruct (_generate_operations _ _ _); cbn [Py.bind]; rewrite ?app_nil_r; reflexivity.
Qed.

Lemma apply_delete_run (n : Z) (t : PieceTable.t) :
  raises (delete 0 n t) -> raises (apply_diff [delete_run 0 n] t).
Proof.
  intros [e He]. exists e. unfold apply_diff, apply_loop, apply_op, bindM, lift.
  change (getitem (delete_run 0 n) "type") with (Ok (A := pyval) (VStr (str "delete"))).
  change (getitem (delete_run 0 n) "position") with (Ok (A := pyval) (VInt 0)).
  cbv iota beta. cbn [int_of].
  change (is_type (VStr (str "delete")) "insert") with false.
  change (is_type (VStr (str "delete")) "delete") with true. cbv iota.
  change (getitem (delete_run 0 n) "length") with (Ok (A := pyval) (VInt n)).
  cbv iota beta. cbn [int_of]. cbv iota beta. rewrite Z.add_0_l.
  destruct (delete 0 n t) as [r t']. simpl in He. subst r. reflexivity.
Qed.

(** X24. Between two tables without style and line entries: equal texts
    give the empty diff; from the empty text the diff is one insert of
    the whole target text at 0; to the empty text it is one delete of the
    whole source text at 0 - and that is a diff [apply_diff] cannot apply
    to the source: the delete reaches the end of the document and raises. *)
Theorem create_diff_edge_cases (source target : PieceTable.t) :
  styles source = [] -> lines source = [] -> styles target = [] -> lines target = [] ->
  (get_text source = get_text target -> create_diff source target = Ok []) /\
  (get_text source = [] -> get_text target <> [] ->
   create_diff source target = Ok [insert_op 0 (get_text target)]) /\
  (get_text target = [] -> get_text source <> [] ->
   create_diff source target = Ok [delete_run 0 (len (get_text source))] /\
   (wf source -> raises (apply_diff [delete_run 0 (len (get_text source))] source))).
Proof.
  intros Hss Hls Hst Hlt. rewrite (create_diff_plain source target Hss Hls Hst Hlt).
  split_and!.
  - intros ->. apply generate_same.
  - intros -> Hne. apply generate_from_empty. exact Hne.
  - intros -> Hne. split; [apply generate_to_empty; exact Hne|].
    intros Hwf. apply apply_delete_run. apply delete_reaching_end_raises.
    + exact Hwf.
    + destruct (get_text source); [contradiction|]. rewrite len_cons.
      pose proof (len_nonneg l). lia.
    + rewrite Z.add_0_l. apply doc_length_text. exact Hwf.
Qed.

Lemma create_diff_edge_cases_witness :
  let source := table_of "abc" in
  styles source = [] /\ lines source = [] /\ styles init = [] /\ lines init = [] /\
  create_diff source source = Ok [] /\
  create_diff init source = Ok [insert_op 0 (str "abc")] /\
  create_diff source init = Ok [delete_run 0 3] /\
  raises (apply_diff [delete_run 0 3] source).
Proof.
  cbv zeta.
  destruct (create_diff_edge_cases (table_of "abc") (table_of "abc")
              eq_refl eq_refl eq_refl eq_refl) as (Hsame & _ & _).
  destruct (create_diff_edge_cases init (table_of "abc")
              eq_refl eq_refl eq_refl eq_refl) as (_ & Hfrom & _).
  destruct (create_diff_edge_cases (table_of "abc") init
              eq_refl eq_refl eq_refl eq_refl) as (_ & _ & Hto).
  destruct (Hto eq_refl ltac:(discriminate)) as [Hdiff Hraises].
  do 4 (split; [reflexivity|]).
  split; [apply Hsame; reflexivity|].
  split; [apply (Hfrom eq_refl); discriminate|].
  split; [exact Hdiff|].
  apply Hraises. wf_by_evaluation.
Defined.

End DiffEdges.

(* ===================================================================== *)
(** * The table of [_get_lcs] *)
(* ===================================================================== *)

Section Table.

Import DiffCalculator.

Lemma dp_get_set_ne (dp : list (list Z)) (i j a b : nat) (v : Z) :
  (a, b) <> (i, j) -> dp_get (dp_set dp i j v) a b = dp_get dp a b.
Proof.
  intros Hne. unfold dp_get, dp_set.
  destruct (decide (a = i)) as [->|Hai].
  - assert (Hbj : b <> j) by congruence.
    rewrite list_lookup_alter_eq. destruct (dp !! i) as [row|]; [|reflexivity]. simpl.
    rewrite list_lookup_insert_ne by congruence. reflexivity.
  - rewrite list_lookup_alter_ne by congruence. reflexivity.
Qed.

Lemma dp_get_set_eq (dp : list (list Z)) (i j : nat) (v : Z) (row : list Z) :
  dp !! i = Some row -> (j < length row)%nat -> dp_get (dp_set dp i j v) i j = v.
Proof.
  intros Hrow Hj. unfold dp_get, dp_set.
  rewrite list_lookup_alter_eq, Hrow. simpl.
  rewrite list_lookup_insert_eq by exact Hj. reflexivity.
Qed.

Context (seq1 seq2 : list ascii).


Lemma fill_cell_step (dp : list (list Z)) (i j : nat) :
  (1 <= i <= length seq1)%nat -> (1 <= j <= length seq2)%nat ->
  table_inv seq1 seq2 dp i j -> table_inv seq1 seq2 (fill_cell seq1 seq2 i dp j) i (S j).
Proof.
  intros Hi Hj (Hdims & Hzero & Hfilled).
  set (v := cell_value seq1 seq2 dp i j).
  assert (Hstep : fill_cell seq1 seq2 i dp j = dp_set dp i j v).
  { unfold fill_cell, v, cell_value. destruct (same_at seq1 seq2 i j); reflexivity. }
  rewrite Hstep. clear Hstep.
  assert (Hrec : forall a b, (a < i \/ (a = i /\ b <= j))%nat -> (1 <= a)%nat -> (1 <= b)%nat ->
                             cell_value seq1 seq2 (dp_set dp i j v) a b = cell_value seq1 seq2 dp a b).
  { intros a b Hab Ha Hb. unfold cell_value.
    rewrite !dp_get_set_ne by (intros Heq; inversion Heq; lia). reflexivity. }
  destruct Hdims as [Hrows Hcols].
  destruct (lookup_lt_is_Some_2 dp i ltac:(lia)) as [row Hrow].
  assert (Hlen : length row = S (length seq2)).
  { rewrite Forall_forall in Hcols. apply Hcols. eapply list_elem_of_lookup_2. exact Hrow. }
  split_and!.
  - split.
    + unfold dp_set. rewrite length_alter. exact Hrows.
    + unfold dp_set. apply Forall_alter; [exact Hcols|].
      intros r _ Hr. rewrite length_insert. exact Hr.
  - intros a b Hab. rewrite dp_get_set_ne by (intros Heq; inversion Heq; lia).
    apply Hzero. exact Hab.
  - intros a b (Ha & Hb & Hab).
    destruct (decide ((a, b) = (i, j))) as [Heq|Hne].
    + inversion Heq; subst a b.
      rewrite (dp_get_set_eq dp i j v row Hrow) by lia.
      rewrite Hrec by lia. reflexivity.
    + rewrite dp_get_set_ne by exact Hne.
      rewrite Hrec by lia. apply Hfilled. unfold cell_filled.
      split_and!; [lia|lia|lia|].
      destruct Hab as [Hlt|[-> Hlt]]; [left; exact Hlt|right].
      split; [reflexivity|]. assert (b <> j) by congruence. lia.
Qed.

Lemma fill_row (count : nat) : forall (dp : list (list Z)) (i j : nat),
  (1 <= i <= length seq1)%nat -> (1 <= j)%nat -> (j + count = S (length seq2))%nat ->
  table_inv seq1 seq2 dp i j ->
  table_inv seq1 seq2 (foldl (fill_cell seq1 seq2 i) dp (seq j count)) i (S (length seq2)).
Proof.
  induction count as [|count IH]; intros dp i j Hi Hj Hcount Hinv.
  { simpl. replace (S (length seq2)) with j by lia. exact Hinv. }
  cbn [seq foldl]. apply IH; [lia|lia|lia|].
  apply fill_cell_step; [lia|lia|exact Hinv].
Qed.

Lemma next_row (dp : list (list Z)) (i : nat) :
  table_inv seq1 seq2 dp i (S (length seq2)) -> table_inv seq1 seq2 dp (S i) 1.
Proof.
  intros (Hdims & Hzero & Hfilled). split_and!; [exact Hdims|exact Hzero|].
  intros a b (Ha & Hb & Hab). apply Hfilled. unfold cell_filled. split_and!; [lia|lia|lia|].
  lia.
Qed.

Lemma fill_rows (count : nat) : forall (dp : list (list Z)) (i : nat),
  (1 <= i)%nat -> (i + count = S (length seq1))%nat ->
  table_inv seq1 seq2 dp i 1 ->
  table_inv seq1 seq2 (foldl (fun dp i => foldl (fill_cell seq1 seq2 i) dp (seq 1 (length seq2))) dp
             (seq i count))
      (S (length seq1)) 1.
Proof.
  induction count as [|count IH]; intros dp i Hi Hcount Hinv.
  { simpl. replace (S (length seq1)) with i by lia. exact Hinv. }
  cbn [seq foldl]. apply IH; [lia|lia|].
  apply next_row. apply fill_row; [lia|lia|lia|exact Hinv].
Qed.

Lemma dp_get_zeros (rows cols a b : nat) :
  dp_get (replicate rows (replicate cols 0)) a b = 0.
Proof.
  unfold dp_get. destruct (replicate rows (replicate cols 0) !! a) as [row|] eqn:Hrow;
    [|reflexivity].
  apply lookup_replicate in Hrow as [-> _]. simpl.
  destruct (replicate cols 0 !! b) as [x|] eqn:Hx; [|reflexivity].
  apply lookup_replicate in Hx as [-> _]. reflexivity.
Qed.

(** The finished table: zero on the border, and every inner cell holds the
    value computed from its three neighbours. *)
Lemma fill_table_cells :
  let T := fill_table seq1 seq2 in
  (forall a b, a = 0%nat \/ b = 0%nat -> dp_get T a b = 0) /\
  (forall a b, (1 <= a <= length seq1)%nat -> (1 <= b <= length seq2)%nat ->
               dp_get T a b
               = if same_at seq1 seq2 a b
                 then dp_get T (a - 1) (b - 1) + 1
                 else Z.max (dp_get T (a - 1) b) (dp_get T a (b - 1))).
Proof.
  cbv zeta. unfold fill_table.
  assert (Hinit : table_inv seq1 seq2 (replicate (S (length seq1)) (replicate (S (length seq2)) 0)) 1 1).
  { split_and!.
    - split; [apply length_replicate|]. apply Forall_replicate. apply length_replicate.
    - intros a b _. apply dp_get_zeros.
    - intros a b (Ha & Hb & Hab). lia. }
  pose proof (fill_rows (length seq1) _ 1 ltac:(lia) ltac:(lia) Hinit)
    as (_ & Hzero & Hfilled).
  split; [exact Hzero|]. intros a b Ha Hb. apply Hfilled. unfold cell_filled. lia.
Qed.

End Table.

Section Longest.

Import DiffCalculator.

Context (seq1 seq2 : list ascii).

(** The backtracking collects as many pairs as the cell it starts from
    says. *)
Lemma backtrack_length (fuel : nat) : forall (i j : nat) (acc : list (nat * nat)),
  (i <= length seq1)%nat -> (j <= length seq2)%nat -> (i + j <= fuel)%nat ->
  Z.of_nat (length (backtrack fuel seq1 seq2 (fill_table seq1 seq2) i j acc))
  = Z.of_nat (length acc) + dp_get (fill_table seq1 seq2) i j.
Proof.
  destruct (fill_table_cells seq1 seq2) as [Hzero Hcell]. cbv zeta in Hzero, Hcell.
  induction fuel as [|fuel IH]; intros i j acc Hi Hj Hfuel.
  { simpl. rewrite Hzero by lia. lia. }
  simpl. destruct (Nat.ltb_spec 0 i) as [Hi0|Hi0]; cycle 1.
  { simpl. rewrite Hzero by lia. lia. }
  destruct (Nat.ltb_spec 0 j) as [Hj0|Hj0]; cycle 1.
  { simpl. rewrite Hzero by lia. lia. }
  simpl. rewrite (Hcell i j) by lia.
  destruct (same_at seq1 seq2 i j).
  - rewrite IH by lia. rewrite length_app. simpl. lia.
  - destruct (Z.ltb_spec (dp_get (fill_table seq1 seq2) i (j - 1))
                         (dp_get (fill_table seq1 seq2) (i - 1) j)).
    + rewrite IH by lia. lia.
    + rewrite IH by lia. lia.
Qed.

(** No common subsequence of the prefixes of lengths [i] and [j] is longer
    than the cell [(i, j)] says. *)
Lemma table_bounds (k : nat) : forall (i j : nat) (l : list (nat * nat)),
  (i + j <= k)%nat -> (i <= length seq1)%nat -> (j <= length seq2)%nat ->
  common_subsequence seq1 seq2 l ->
  Forall (fun p => (fst p < i)%nat /\ (snd p < j)%nat) l ->
  Z.of_nat (length l) <= dp_get (fill_table seq1 seq2) i j.
Proof.
  destruct (fill_table_cells seq1 seq2) as [Hzero Hcell]. cbv zeta in Hzero, Hcell.
  induction k as [|k IH]; intros i j l Hk Hi Hj Hcs Hin.
  { destruct l as [|[a b] l]; [simpl; rewrite Hzero by lia; lia|].
    inversion Hin as [|? ? [Ha _] _]; subst. simpl in Ha. lia. }
  destruct (decide (i = 0%nat \/ j = 0%nat)) as [Hborder|Hinner].
  { destruct l as [|[a b] l]; [simpl; rewrite Hzero by lia; lia|].
    inversion Hin as [|? ? [Ha Hb] _]; subst. simpl in Ha, Hb. lia. }
  rewrite (Hcell i j) by lia.
  destruct l as [|p l'] using rev_ind.
  { (* the empty subsequence *)
    assert (H0 : 0 <= dp_get (fill_table seq1 seq2) (i - 1) (j - 1)).
    { apply (IH (i - 1)%nat (j - 1)%nat []); [lia|lia|lia| |constructor].
      split; constructor. }
    assert (H1 : 0 <= dp_get (fill_table seq1 seq2) (i - 1) j).
    { apply (IH (i - 1)%nat j []); [lia|lia|lia| |constructor]. split; constructor. }
    simpl. destruct (same_at seq1 seq2 i j); lia. }
  clear IHl'. destruct p as [a b]. destruct Hcs as [Hmatch Hsorted].
  apply Forall_app in Hmatch as [Hmatch' Hlast].
  apply StronglySorted_app in Hsorted as (Hbefore & Hsorted' & _).
  apply Forall_app in Hin as [Hin' Hlast_in].
  inversion Hlast as [|? ? (c & Hc1 & Hc2) _]; subst. simpl in Hc1, Hc2.
  inversion Hlast_in as [|? ? [Ha Hb] _]; subst. simpl in Ha, Hb.
  assert (Hbelow : Forall (fun p => (fst p < a)%nat /\ (snd p < b)%nat) l').
  { apply Forall_forall. intros p Hp.
    apply (Hbefore p (a, b)); [exact Hp|]. apply list_elem_of_singleton. reflexivity. }
  rewrite length_app. simpl.
  destruct (same_at seq1 seq2 i j) eqn:Hsame.
  - assert (Hl' : Z.of_nat (length l') <= dp_get (fill_table seq1 seq2) (i - 1) (j - 1)).
    { apply (IH (i - 1)%nat (j - 1)%nat l'); [lia|lia|lia|split; assumption|].
      eapply Forall_impl; [exact Hbelow|]. intros p [H1 H2]. lia. }
    lia.
  - assert (Hnot : ~ (a = (i - 1)%nat /\ b = (j - 1)%nat)).
    { intros [-> ->]. unfold same_at in Hsame. apply bool_decide_eq_false in Hsame.
      apply Hsame. congruence. }
    assert (Hwhole : common_subsequence seq1 seq2 (l' ++ [(a, b)])).
    { split.
      - apply Forall_app. split; [exact Hmatch'|exact Hlast].
      - apply StronglySorted_app. split_and!; [exact Hbefore|exact Hsorted'|].
        repeat constructor. }
    destruct (decide (a = (i - 1)%nat)) as [Ha'|Ha'].
    + assert (Hb' : (b < j - 1)%nat) by lia.
      assert (Hall : Z.of_nat (length (l' ++ [(a, b)]))
                     <= dp_get (fill_table seq1 seq2) i (j - 1)).
      { apply (IH i (j - 1)%nat); [lia|lia|lia|exact Hwhole|].
        apply Forall_app. split.
        - eapply Forall_impl; [exact Hbelow|]. intros p [H1 H2]. lia.
        - constructor; [simpl; lia|constructor]. }
      rewrite length_app in Hall. simpl in Hall. lia.
    + assert (Hall : Z.of_nat (length (l' ++ [(a, b)]))
                     <= dp_get (fill_table seq1 seq2) (i - 1) j).
      { apply (IH (i - 1)%nat j); [lia|lia|lia|exact Hwhole|].
        apply Forall_app. split.
        - eapply Forall_impl; [exact Hbelow|]. intros p [H1 H2]. lia.
        - constructor; [simpl; lia|constructor]. }
      rewrite length_app in Hall. simpl in Hall. lia.
Qed.

(** X25. No common subsequence of the two sequences is longer than the one
    [_get_lcs] returns. *)
Theorem get_lcs_longest (l : list (nat * nat)) :
  common_subsequence seq1 seq2 l ->
  (length l <= length (_get_lcs seq1 seq2))%nat.
Proof.
  intros Hcs.
  assert (Hlen : Z.of_nat (length (_get_lcs seq1 seq2))
                 = dp_get (fill_table seq1 seq2) (length seq1) (length seq2)).
  { unfold _get_lcs. cbv zeta. rewrite length_reverse, backtrack_length by lia.
    simpl. lia. }
  pose proof (table_bounds (length seq1 + length seq2) (length seq1) (length seq2) l
                ltac:(lia) ltac:(lia) ltac:(lia) Hcs) as Hbound.
  assert (Hin : Forall (fun p => (fst p < length seq1)%nat /\ (snd p < length seq2)%nat) l).
  { destruct Hcs as [Hmatch _]. eapply Forall_impl; [exact Hmatch|].
    intros p (c & H1 & H2). apply lookup_lt_Some in H1, H2. lia. }
  specialize (Hbound Hin). lia.
Qed.

End Longest.

Lemma get_lcs_longest_witness :
  common_subsequence (str "abcbdab") (str "bdcaba") [(1, 0); (2, 2); (3, 4); (5, 5)]%nat /\
  (4 <= length (DiffCalculator._get_lcs (str "abcbdab") (str "bdcaba")))%nat.
Proof.
  assert (Hcs : common_subsequence (str "abcbdab") (str "bdcaba")
                  [(1, 0); (2, 2); (3, 4); (5, 5)]%nat).
  { split.
    - repeat (constructor; [eexists; split; reflexivity|]). constructor.
    - repeat first [ apply SSorted_nil | apply SSorted_cons | apply List.Forall_nil
                   | apply List.Forall_cons | split; simpl; lia ]. }
  split; [exact Hcs|].
  exact (get_lcs_longest (str "abcbdab") (str "bdcaba") _ Hcs).
Defined.

(* ===================================================================== *)
(** * The merge of two diffs in version control *)
(* ===================================================================== *)

Section SortAny.

Context {A : Type} (le : A -> A -> bool).

Lemma insert_by_permutation x (l : list A) : insert_by le x l ≡ₚ x :: l.
Proof.
  induction l as [|y l IH]; simpl; [reflexivity|].
  destruct (le x y); [reflexivity|]. rewrite IH. apply Permutation_swap.
Qed.

Lemma stable_sort_permutation (l : list A) : stable_sort le l ≡ₚ l.
Proof.
  induction l as [|x l IH]; simpl; [reflexivity|].
  rewrite insert_by_permutation, IH. reflexivity.
Qed.

Hypothesis le_total : forall a b, le a b = false -> le b a = true.
Hypothesis le_trans : forall a b c, le a b = true -> le b c = true -> le a c = true.

Lemma insert_by_ordered x (l : list A) :
  StronglySorted (fun a b => le a b = true) l ->
  StronglySorted (fun a b => le a b = true) (insert_by le x l).
Proof.
  induction 1 as [|y l Hl IH Hy]; simpl.
  - repeat constructor.
  - destruct (le x y) eqn:Hxy.
    + constructor; [constructor; assumption|].
      constructor; [exact Hxy|].
      eapply Forall_impl; [exact Hy|]. intros z Hz. eapply le_trans; eauto.
    + constructor; [exact IH|].
      rewrite (insert_by_permutation x l). constructor; [|exact Hy].
      apply le_total. exact Hxy.
Qed.

Lemma stable_sort_ordered (l : list A) :
  StronglySorted (fun a b => le a b = true) (stable_sort le l).
Proof.
  induction l as [|x l IH]; simpl; [constructor|]. apply insert_by_ordered. exact IH.
Qed.

End SortAny.

Lemma sorted_weaken {A} (R R' : A -> A -> Prop) (l : list A) :
  (forall a b, R a b -> R' a b) -> StronglySorted R l -> StronglySorted R' l.
Proof.
  intros Himp. induction 1 as [|x l _ IH Hx]; constructor; [exact IH|].
  eapply Forall_impl; [exact Hx|]. intros y. apply Himp.
Qed.

Section VersionMerge.

Import DiffCalculator VersionControl.

Lemma position_keys_int (diff : list pydict) :
  Forall has_int_position diff ->
  exists keys, position_keys diff = Ok keys /\ forallb is_int keys = true /\
               length keys = length diff.
Proof.
  induction 1 as [|x diff [p Hp] _ (keys & Hkeys & Hint & Hlen)].
  - exists []. split_and!; reflexivity.
  - exists (VInt p :: keys). simpl. unfold getitem. rewrite Hp. cbn [Py.bind].
    rewrite Hkeys. cbn [Py.bind]. split_and!; [reflexivity|exact Hint|simpl; lia].
Qed.

(** Sorting operations with integer positions: the same operations, in
    the order of their positions. *)
Lemma sorted_by_position_int (diff : list pydict) :
  Forall has_int_position diff ->
  exists sorted,
    sorted_by_position diff = Ok sorted /\ sorted ≡ₚ diff /\
    StronglySorted (fun a b => int_position a <= int_position b) sorted.
Proof.
  intros Hdiff.
  destruct (position_keys_int diff Hdiff) as (keys & Hkeys & Hint & Hlen).
  unfold sorted_by_position. rewrite Hkeys. cbn [Py.bind].
  destruct keys as [|k1 [|k2 keys]].
  - destruct diff; [|discriminate]. exists []. split_and!; [reflexivity|reflexivity|constructor].
  - destruct diff as [|x [|y diff]]; try discriminate.
    exists [x]. split_and!; [reflexivity|reflexivity|repeat constructor].
  - rewrite Hint. eexists. split_and!; [reflexivity|apply stable_sort_permutation|].
    eapply sorted_weaken; [|apply stable_sort_ordered].
    + intros a b Hab. apply Z.leb_le. exact Hab.
    + intros a b Hab. apply Z.leb_gt in Hab. apply Z.leb_le. lia.
    + intros a b c H1 H2. apply Z.leb_le in H1, H2. apply Z.leb_le. lia.
Qed.

Lemma adjust_by_zero (op : pydict) :
  has_int_position op -> _adjust_operation op 0 = Ok op.
Proof.
  intros [p Hp]. unfold _adjust_operation, getitem. rewrite Hp. cbn [Py.bind py_add].
  rewrite Z.add_0_r, insert_id by exact Hp. reflexivity.
Qed.

Lemma adjust_all_by_zero (ops : list pydict) :
  Forall has_int_position ops -> adjust_all ops 0 = Ok ops.
Proof.
  induction 1 as [|op ops Hop _ IH]; [reflexivity|].
  simpl. rewrite adjust_by_zero by exact Hop. cbn [Py.bind]. rewrite IH. reflexivity.
Qed.

Lemma merge_loop_nil_r (ops : list pydict) pos_offset merged :
  merge_loop ops [] pos_offset merged
  = (rest1 <- adjust_all ops pos_offset ;; Ok (merged ++ rest1 ++ [])).
Proof. destruct ops; reflexivity. Qed.

Lemma merge_loop_nil_l (ops : list pydict) pos_offset merged :
  merge_loop [] ops pos_offset merged
  = (rest2 <- adjust_all ops pos_offset ;; Ok (merged ++ rest2)).
Proof. destruct ops; reflexivity. Qed.

(** X26. Merging a diff whose operations have integer positions with the
    empty diff, on either side, changes no operation: the result is the
    same operations sorted by position. *)
Theorem merge_with_empty_diff_sorts (diff : list pydict) :
  Forall has_int_position diff ->
  exists sorted,
    VersionControl._merge_diffs diff [] = Ok sorted /\
    VersionControl._merge_diffs [] diff = Ok sorted /\
    sorted ≡ₚ diff /\
    StronglySorted (fun a b => int_position a <= int_position b) sorted.
Proof.
  intros Hdiff.
  destruct (sorted_by_position_int diff Hdiff) as (sorted & Hsort & Hperm & Hsorted).
  assert (Hints : Forall has_int_position sorted).
  { rewrite Hperm. exact Hdiff. }
  exists sorted. unfold VersionControl._merge_diffs. rewrite Hsort.
  change (sorted_by_position []) with (Ok (A := list pydict) []). cbn [Py.bind].
  rewrite merge_loop_nil_r, merge_loop_nil_l, adjust_all_by_zero by exact Hints.
  cbn [Py.bind app]. rewrite app_nil_r. split_and!; [reflexivity|reflexivity|exact Hperm|exact Hsorted].
Qed.

Lemma merge_loop_cons op1 rest1 op2 rest2 pos_offset merged :
  merge_loop (op1 :: rest1) (op2 :: rest2) pos_offset merged
  = (p1 <- getitem op1 "position" ;;
     adj_pos1 <- py_add p1 (VInt pos_offset) ;;
     p2 <- getitem op2 "position" ;;
     adj_pos2 <- py_add p2 (VInt pos_offset) ;;
     lt <- py_lt adj_pos1 adj_pos2 ;;
     if lt : bool then
       adjusted <- _adjust_operation op1 pos_offset ;;
       off <- _get_position_offset op1 ;;
       merge_loop rest1 (op2 :: rest2) (pos_offset + off) (merged ++ [adjusted])
     else
       adjusted <- _adjust_operation op2 pos_offset ;;
       off <- _get_position_offset op2 ;;
       merge_loop (op1 :: rest1) rest2 (pos_offset + off) (merged ++ [adjusted])).
Proof. reflexivity. Qed.

Lemma merge_with_empty_diff_sorts_witness :
  let diff := [insert_op 3 (str "a"); delete_op 1] in
  Forall has_int_position diff /\
  VersionControl._merge_diffs diff [] = Ok [delete_op 1; insert_op 3 (str "a")] /\
  VersionControl._merge_diffs [] diff = Ok [delete_op 1; insert_op 3 (str "a")].
Proof.
  cbv zeta.
  assert (H : Forall has_int_position [insert_op 3 (str "a"); delete_op 1]).
  { constructor; [exists 3; reflexivity|]. constructor; [exists 1; reflexivity|constructor]. }
  split; [exact H|].
  destruct (merge_with_empty_diff_sorts _ H) as (sorted & H1 & H2 & _).
  assert (Hsorted : sorted = [delete_op 1; insert_op 3 (str "a")]).
  { assert (Hrun : VersionControl._merge_diffs [insert_op 3 (str "a"); delete_op 1] []
                   = Ok [delete_op 1; insert_op 3 (str "a")]) by (vm_compute; reflexivity).
    congruence. }
  subst sorted. split; assumption.
Defined.

Lemma text_op_position (x : pydict) :
  is_text_op x ->
  exists p, x !! "position" = Some (VInt p) /\
            forall offset,
              _adjust_operation x offset = Ok (<["position" := VInt (p + offset)]> x) /\
              is_text_op (<["position" := VInt (p + offset)]> x).
Proof.
  intros [(p & n & ->)|(p & s & ->)]; exists p; (split; [reflexivity|]); intros offset;
    (split; [reflexivity|]).
  - left. exists (p + offset), n. reflexivity.
  - right. exists (p + offset), s. apply insert_op_moved.
Qed.

Lemma text_op_offset (x : pydict) :
  is_text_op x -> exists off, _get_position_offset x = Ok off.
Proof. intros [(p & n & ->)|(p & s & ->)]; eexists; reflexivity. Qed.

Lemma unpositioned_moved (x : pydict) (v : pyval) :
  unpositioned (<["position" := v]> x) = unpositioned x.
Proof. unfold unpositioned. apply delete_insert_eq. Qed.

Lemma adjust_all_text_ops (ops : list pydict) (pos_offset : Z) :
  Forall is_text_op ops ->
  exists r, adjust_all ops pos_offset = Ok r /\ Forall is_text_op r /\
            map unpositioned r = map unpositioned ops.
Proof.
  induction 1 as [|x ops Hx _ (r & Hr & Htext & Hmap)].
  - exists []. split_and!; [reflexivity|constructor|reflexivity].
  - destruct (text_op_position x Hx) as (p & _ & Hadj).
    destruct (Hadj pos_offset) as [Heq Hmoved].
    simpl. rewrite Heq. cbn [Py.bind]. rewrite Hr. cbn [Py.bind].
    eexists. split_and!; [reflexivity|constructor; assumption|].
    simpl. rewrite unpositioned_moved, Hmap. reflexivity.
Qed.

Lemma merge_loop_text_ops (sorted_diff1 : list pydict) :
  Forall is_text_op sorted_diff1 ->
  forall sorted_diff2, Forall is_text_op sorted_diff2 ->
  forall pos_offset merged,
  exists r,
    merge_loop sorted_diff1 sorted_diff2 pos_offset merged = Ok (merged ++ r) /\
    Forall is_text_op r /\
    map unpositioned r ≡ₚ map unpositioned (sorted_diff1 ++ sorted_diff2).
Proof.
  induction 1 as [|op1 rest1 Hop1 Hrest1 IH1].
  { intros s2 Hs2 off merged. rewrite merge_loop_nil_l.
    destruct (adjust_all_text_ops s2 off Hs2) as (r & Hr & Htext & Hmap).
    rewrite Hr. cbn [Py.bind]. exists r. split_and!; [reflexivity|exact Htext|].
    rewrite Hmap. reflexivity. }
  induction 1 as [|op2 rest2 Hop2 Hrest2 IH2]; intros off merged.
  { rewrite merge_loop_nil_r.
    destruct (adjust_all_text_ops (op1 :: rest1) off) as (r & Hr & Htext & Hmap);
      [constructor; assumption|].
    rewrite Hr. cbn [Py.bind]. exists r. rewrite !app_nil_r.
    split_and!; [reflexivity|exact Htext|]. rewrite Hmap. reflexivity. }
  destruct (text_op_position op1 Hop1) as (p1 & Hp1 & Hadj1).
  destruct (text_op_position op2 Hop2) as (p2 & Hp2 & Hadj2).
  destruct (Hadj1 off) as [Heq1 Hmoved1]. destruct (Hadj2 off) as [Heq2 Hmoved2].
  destruct (text_op_offset op1 Hop1) as [off1 Hoff1].
  destruct (text_op_offset op2 Hop2) as [off2 Hoff2].
  rewrite merge_loop_cons. unfold getitem. rewrite Hp1, Hp2. cbn [Py.bind py_add py_lt].
  destruct (p1 + off <? p2 + off).
  - rewrite Heq1, Hoff1. cbn [Py.bind].
    destruct (IH1 (op2 :: rest2) ltac:(constructor; assumption) (off + off1)
                  (merged ++ [<["position" := VInt (p1 + off)]> op1]))
      as (r & Hr & Htext & Hperm).
    rewrite Hr. eexists. split; [rewrite <- app_assoc; reflexivity|].
    split; [constructor; assumption|].
    simpl. rewrite unpositioned_moved, Hperm. reflexivity.
  - rewrite Heq2, Hoff2. cbn [Py.bind].
    destruct (IH2 (off + off2) (merged ++ [<["position" := VInt (p2 + off)]> op2]))
      as (r & Hr & Htext & Hperm).
    rewrite Hr. eexists. split; [rewrite <- app_assoc; reflexivity|].
    * split; [constructor; assumption|].
      simpl. rewrite unpositioned_moved. simpl in Hperm. rewrite Hperm.
      rewrite !map_app. simpl.
      exact (Permutation_middle (unpositioned op1 :: map unpositioned rest1)
               (map unpositioned rest2) (unpositioned op2)).
Qed.

(** X27. On two diffs of text operations, as [create_diff] returns them,
    [_merge_diffs] of version control does not raise, and its result holds
    every operation of both diffs and no other: apart from the positions
    the operations are those of the two diffs. *)
Theorem merge_diffs_keeps_every_operation (diff1 diff2 : list pydict) :
  Forall is_text_op diff1 -> Forall is_text_op diff2 ->
  exists merged,
    VersionControl._merge_diffs diff1 diff2 = Ok merged /\
    Forall is_text_op merged /\
    map unpositioned merged ≡ₚ map unpositioned (diff1 ++ diff2).
Proof.
  intros H1 H2.
  assert (Hint : forall diff, Forall is_text_op diff -> Forall has_int_position diff).
  { intros diff Hd. eapply Forall_impl; [exact Hd|]. intros x Hx.
    destruct (text_op_position x Hx) as (p & Hp & _). exists p. exact Hp. }
  destruct (sorted_by_position_int diff1 (Hint _ H1)) as (s1 & Hs1 & Hperm1 & _).
  destruct (sorted_by_position_int diff2 (Hint _ H2)) as (s2 & Hs2 & Hperm2 & _).
  unfold VersionControl._merge_diffs. rewrite Hs1, Hs2. cbn [Py.bind].
  destruct (merge_loop_text_ops s1 ltac:(rewrite Hperm1; exact H1)
              s2 ltac:(rewrite Hperm2; exact H2) 0 [])
    as (r & Hr & Htext & Hperm).
  exists r. split; [exact Hr|]. split; [exact Htext|].
  rewrite Hperm, Hperm1, Hperm2. reflexivity.
Qed.

Lemma merge_diffs_keeps_every_operation_witness :
  let diff1 := [delete_op 0; insert_op 0 (str "x")] in
  let diff2 := [insert_op 2 (str "yz")] in
  Forall is_text_op diff1 /\ Forall is_text_op diff2 /\
  exists merged,
    VersionControl._merge_diffs diff1 diff2 = Ok merged /\
    map unpositioned merged ≡ₚ map unpositioned (diff1 ++ diff2).
Proof.
  cbv zeta.
  assert (H1 : Forall is_text_op [delete_op 0; insert_op 0 (str "x")]).
  { constructor; [left; exists 0, 1; reflexivity|].
    constructor; [right; exists 0, (str "x"); reflexivity|constructor]. }
  assert (H2 : Forall is_text_op [insert_op 2 (str "yz")]).
  { constructor; [right; exists 2, (str "yz"); reflexivity|constructor]. }
  split; [exact H1|]. split; [exact H2|].
  destruct (merge_diffs_keeps_every_operation _ _ H1 H2) as (merged & Hm & _ & Hperm).
  exists merged. split; assumption.
Defined.

End VersionMerge.

(* ===================================================================== *)
(** * The markdown helpers of the document service *)
(* ===================================================================== *)

Section Markdown.

Import DocumentService.

#[local] Arguments len : simpl never.

Lemma slice_prefix {A} (l : list A) (b : Z) :
  slice l 0 b = take (Z.to_nat (slice_index (len l) b)) l.
Proof.
  unfold slice. cbv zeta.
  assert (H0 : slice_index (len l) 0 = 0).
  { unfold slice_index. simpl. pose proof (len_nonneg l). lia. }
  rewrite H0, Z.sub_0_r. reflexivity.
Qed.

Lemma slice_suffix {A} (l : list A) (a : Z) :
  0 <= a -> slice l a (len l) = drop (Z.to_nat (Z.min a (len l))) l.
Proof.
  intros Ha. unfold slice. cbv zeta. pose proof (len_nonneg l) as Hl.
  assert (H1 : slice_index (len l) a = Z.min a (len l)).
  { unfold slice_index. destruct (Z.ltb_spec a 0); [lia|reflexivity]. }
  assert (H2 : slice_index (len l) (len l) = len l).
  { unfold slice_index. destruct (Z.ltb_spec (len l) 0); lia. }
  rewrite H1, H2. apply take_ge. rewrite length_drop. unfold len in *. lia.
Qed.

Lemma slice_between {A} (l : list A) (a b : Z) :
  0 <= a <= b ->
  slice l a b
  = take (Z.to_nat (Z.min b (len l)) - Z.to_nat (Z.min a (len l)))
         (drop (Z.to_nat (Z.min a (len l))) l).
Proof.
  intros Hab. unfold slice. cbv zeta.
  assert (H1 : slice_index (len l) a = Z.min a (len l)).
  { unfold slice_index. destruct (Z.ltb_spec a 0); [lia|reflexivity]. }
  assert (H2 : slice_index (len l) b = Z.min b (len l)).
  { unfold slice_index. destruct (Z.ltb_spec b 0); [lia|reflexivity]. }
  rewrite H1, H2. f_equal. pose proof (len_nonneg l). lia.
Qed.

(** X28. For a style range with a start and a length that are not
    negative, [_apply_markdown_style] returns the content with the marker
    put in at the start and at the end of the range, both clipped to the
    length of the content; no character of the content is lost or moved. *)
Theorem apply_markdown_style_encloses_range
  (content marker : list ascii) (s : StyleRange.t) :
  0 <= StyleRange.start_offset s -> 0 <= StyleRange.length s ->
  let first := Z.min (StyleRange.start_offset s) (len content) in
  let last := Z.min (StyleRange.start_offset s + StyleRange.length s) (len content) in
  _apply_markdown_style content (StyleObj s) marker
  = Ok (splice (splice content last marker) first marker).
Proof.
  intros Hstart Hlength. cbv zeta. unfold _apply_markdown_style.
  set (start := StyleRange.start_offset s) in *.
  set (stop := start + StyleRange.length s).
  pose proof (len_nonneg content) as Hlen.
  rewrite slice_prefix, (slice_between content start stop) by lia.
  rewrite (slice_suffix content stop) by lia.
  assert (H1 : slice_index (len content) start = Z.min start (len content)).
  { unfold slice_index. destruct (Z.ltb_spec start 0); [lia|reflexivity]. }
  rewrite H1.
  set (b := Z.to_nat (Z.min start (len content))).
  set (e := Z.to_nat (Z.min stop (len content))).
  assert (Hbe : (b <= e <= length content)%nat) by (unfold b, e, len in *; lia).
  f_equal. unfold splice. fold b. fold e.
  rewrite take_app_le by (rewrite length_take; lia).
  rewrite take_take, Nat.min_l by lia.
  rewrite drop_app_le by (rewrite length_take; lia).
  do 2 f_equal. f_equal. symmetry. apply skipn_firstn_comm.
Qed.

Lemma apply_markdown_style_encloses_range_witness :
  0 <= 6 /\ 0 <= 5 /\
  _apply_markdown_style (str "hello world") (StyleObj (StyleRange.mk 0 6 5 ∅)) (str "**")
  = Ok (str "hello **world**").
Proof.
  split; [lia|]. split; [lia|].
  rewrite (apply_markdown_style_encloses_range (str "hello world") (str "**")
             (StyleRange.mk 0 6 5 ∅)) by (simpl; lia).
  vm_compute. reflexivity.
Defined.

(** ** [_add_line_prefix] *)

Lemma split_newline_cons (s : list ascii) :
  exists first others, split_newline s = first :: others.
Proof.
  induction s as [|c s (first & others & IH)]; simpl; [eauto|].
  destruct (Ascii.eqb c newline); [eauto|]. rewrite IH. eauto.
Qed.

Lemma join_newline_cons_char (c : ascii) (first : list ascii) (others : list (list ascii)) :
  join_newline ((c :: first) :: others) = c :: join_newline (first :: others).
Proof. destruct others; reflexivity. Qed.

Lemma join_newline_app (x first : list ascii) (others : list (list ascii)) :
  join_newline ((x ++ first) :: others) = x ++ join_newline (first :: others).
Proof. destruct others; simpl; [reflexivity|]. rewrite <- app_assoc. reflexivity. Qed.

Lemma join_newline_nil (lines : list (list ascii)) :
  lines <> [] -> join_newline ([] :: lines) = newline :: join_newline lines.
Proof. destruct lines; [contradiction|reflexivity]. Qed.

(** Splitting and joining again gives back the string. *)
Lemma join_split_newline (s : list ascii) : join_newline (split_newline s) = s.
Proof.
  induction s as [|c s IH]; [reflexivity|]. simpl.
  destruct (Ascii.eqb_spec c newline) as [->|Hc].
  - destruct (split_newline_cons s) as (first & others & Hs). rewrite Hs in *.
    rewrite join_newline_nil by discriminate. rewrite IH. reflexivity.
  - destruct (split_newline_cons s) as (first & others & Hs). rewrite Hs in *.
    rewrite join_newline_cons_char, IH. reflexivity.
Qed.

Lemma count_newline_nonneg (s : list ascii) : 0 <= count_newline s.
Proof. apply len_nonneg. Qed.

Lemma count_newline_cons (c : ascii) (s : list ascii) :
  count_newline (c :: s)
  = if Ascii.eqb c newline then 1 + count_newline s else count_newline s.
Proof.
  unfold count_newline. rewrite filter_cons.
  destruct (Ascii.eqb_spec c newline) as [->|Hc].
  - rewrite decide_True by reflexivity. apply len_cons.
  - rewrite decide_False by exact Hc. reflexivity.
Qed.

Lemma count_newline_zero (s : list ascii) : count_newline s = 0 <-> newline ∉ s.
Proof.
  induction s as [|c s IH].
  - split; [intros _ H; inversion H|reflexivity].
  - rewrite count_newline_cons, not_elem_of_cons.
    pose proof (count_newline_nonneg s).
    destruct (Ascii.eqb_spec c newline) as [->|Hc].
    + split; [lia|]. intros [Hne _]. contradiction.
    + rewrite IH. split; [intros Hs; split; [congruence|exact Hs]|tauto].
Qed.

Lemma insert_later {A} (n : nat) (x h : A) (t : list A) :
  <[S n := x]> (h :: t) = h :: <[n := x]> t.
Proof. reflexivity. Qed.

Lemma insert_first {A} (x h : A) (t : list A) : <[0%nat := x]> (h :: t) = x :: t.
Proof. reflexivity. Qed.

(** The line of a position: the characters before it split into whole
    lines [a] and the beginning [b] of its own line, and the prefix goes
    between the two. *)
Lemma prefix_line (prefix : list ascii) (before : list ascii) : forall after : list ascii,
  exists (a b current : list ascii) (n : nat),
    before = a ++ b /\ (newline ∉ b) /\ (a = [] \/ last a = Some newline) /\
    count_newline before = Z.of_nat n /\
    split_newline (before ++ after) !! n = Some current /\
    join_newline (<[n := prefix ++ current]> (split_newline (before ++ after)))
    = a ++ prefix ++ b ++ after.
Proof.
  induction before as [|c before IH]; intros after.
  { destruct (split_newline_cons after) as (first & others & Hs).
    exists [], [], first, 0%nat. cbn [app]. rewrite Hs.
    split_and!; [reflexivity|apply not_elem_of_nil|left; reflexivity|reflexivity|reflexivity|].
    rewrite insert_first, join_newline_app, <- Hs, join_split_newline. reflexivity. }
  destruct (IH after) as (a & b & current & n & Hab & Hb & Ha & Hn & Hcur & Hjoin).
  destruct (split_newline_cons (before ++ after)) as (first & others & Hs).
  change ((c :: before) ++ after) with (c :: (before ++ after)).
  rewrite count_newline_cons. cbn [split_newline].
  destruct (Ascii.eqb_spec c newline) as [->|Hc].
  - exists (newline :: a), b, current, (S n).
    split_and!.
    + rewrite Hab. reflexivity.
    + exact Hb.
    + right. destruct Ha as [->|Ha]; [reflexivity|].
      destruct a; [discriminate|]. exact Ha.
    + lia.
    + exact Hcur.
    + rewrite insert_later, join_newline_nil.
      * rewrite Hjoin. reflexivity.
      * rewrite Hs. destruct n; discriminate.
  - rewrite Hs in *. destruct n as [|n].
    + exists [], (c :: before), (c :: first), 0%nat.
      assert (Hnone : newline ∉ before) by (apply count_newline_zero; lia).
      split_and!.
      * reflexivity.
      * apply not_elem_of_cons. split; [congruence|exact Hnone].
      * left. reflexivity.
      * lia.
      * reflexivity.
      * rewrite insert_first, join_newline_app.
        rewrite join_newline_cons_char, <- Hs, join_split_newline. reflexivity.
    + exists (c :: a), b, current, (S n).
      assert (Hane : a <> []).
      { intros ->. simpl in Hab. subst b.
        apply count_newline_zero in Hb. lia. }
      split_and!.
      * rewrite Hab. reflexivity.
      * exact Hb.
      * right. destruct Ha as [->|Ha]; [contradiction|].
        destruct a; [contradiction|]. exact Ha.
      * lia.
      * exact Hcur.
      * rewrite insert_later in Hjoin. rewrite insert_later, join_newline_cons_char, Hjoin.
        reflexivity.
Qed.

(** X29. [_add_line_prefix] puts the prefix at the beginning of the line
    that holds the offset, for every offset: the characters before the
    offset split into whole lines [a] (empty or ending in a newline) and
    the beginning [b] of the line (without newline), and the result is the
    content with the prefix between the two. Nothing else changes. *)
Theorem add_line_prefix_at_line_start
  (content prefix : list ascii) (l : LineMarker.t) :
  exists a b : list ascii,
    slice content 0 (LineMarker.offset l) = a ++ b /\
    (newline ∉ b) /\ (a = [] \/ last a = Some newline) /\
    _add_line_prefix content (LineObj l) prefix
    = Ok (a ++ prefix ++ drop (length a) content).
Proof.
  rewrite slice_prefix.
  set (k := Z.to_nat (slice_index (len content) (LineMarker.offset l))).
  destruct (prefix_line prefix (take k content) (drop k content))
    as (a & b & current & n & Hab & Hb & Ha & Hn & Hcur & Hjoin).
  rewrite take_drop in Hcur, Hjoin.
  exists a, b. split_and!; [exact Hab|exact Hb|exact Ha|].
  unfold _add_line_prefix. cbv zeta. rewrite slice_prefix. fold k. rewrite Hn.
  pose proof (lookup_lt_Some _ _ _ Hcur) as Hlt.
  destruct (Z.ltb_spec (Z.of_nat n) (len (split_newline content))) as [_|Hge];
    [|unfold len in Hge; lia].
  rewrite index_in_range by (unfold len; lia). rewrite Nat2Z.id, Hcur. cbn [Py.bind].
  unfold setitem.
  destruct (Z.ltb_spec (Z.of_nat n) 0); [lia|].
  destruct (Z.leb_spec 0 (Z.of_nat n)); [|lia].
  destruct (Z.ltb_spec (Z.of_nat n) (len (split_newline content)));
    [|unfold len in *; lia].
  cbn [andb Py.bind]. rewrite Nat2Z.id, Hjoin. do 3 f_equal.
  rewrite <- (take_drop k content) at 2. rewrite Hab, <- app_assoc.
  rewrite drop_app_length. reflexivity.
Qed.

End Markdown.
